(** * A rich-text editing widget: selection tracking and exact font sizes

    The repository holds two near-duplicate implementations of one
    formatter: [ToolbarService] (a shared service driven by the floating
    toolbar) and [TextEditorComponent] (the same logic embedded in the
    editor component).  Both are embedded here statement by statement over
    a small model of the browser page: a document tree whose nodes carry
    identities, the detached trees that scripts still hold references to,
    and the window's selection.  The editing primitives that the browser
    supplies ([document.execCommand], [document.queryCommandState],
    [getComputedStyle], [parseFloat], ...) are parameters of the
    development, gathered in the record [Browser]. *)

From Stdlib Require Import PrimFloat.
From stdpp Require Import gmap strings list.

Open Scope string_scope.
Open Scope list_scope.
Open Scope nat_scope.

(** ** JavaScript values *)

(** The values stored in the format state
    ([{ [key: string]: boolean | string | number }]).  A JavaScript number
    is an IEEE-754 binary64, as is a primitive [float]. *)
Inductive jsval :=
| VBool (b : bool)
| VStr (s : string)
| VNum (x : float).

(** [isNaN(x)] on a number. *)
Definition isNaN (x : float) : bool := PrimFloat.is_nan x.

(** [x >= 1] on numbers (false when [x] is NaN). *)
Definition ge1 (x : float) : bool := PrimFloat.leb 1%float x.

(** [String.prototype.includes]: [needle] occurs in [hay]. *)
Fixpoint includes (needle hay : string) : bool :=
  String.prefix needle hay ||
  match hay with
  | EmptyString => false
  | String _ rest => includes needle rest
  end.

(** ** The document tree *)

Definition nid := nat.

(** The value of one inline style declaration.  [Px x] is the text
    [`${x}px`] that [setFontSize] writes; every other text is kept
    verbatim. *)
Inductive css_value :=
| Px (x : float)
| Raw (s : string).

(** What an element carries besides its children: its tag name (upper
    case, as [Element.tagName] reports it for HTML elements), its
    attributes other than [class] and [style], its class list and the
    declarations of its inline style, in order. *)
Record edata := mk_edata {
  tagName : string;
  attrs : gmap string string;
  classList : list string;
  style : list (string * css_value)
}.

#[warnings="-register-all"]
Inductive node :=
| Text (i : nid) (data : string)
| Elem (i : nid) (e : edata) (kids : list node).

Definition node_id (n : node) : nid :=
  match n with Text i _ => i | Elem i _ _ => i end.

Definition childNodes (n : node) : list node :=
  match n with Text _ _ => [] | Elem _ _ ks => ks end.

Definition is_element (n : node) : bool :=
  match n with Text _ _ => false | Elem _ _ _ => true end.

Definition has_id (i : nid) (n : node) : bool := node_id n =? i.

(** The inclusive descendants of a node, in tree order. *)
Fixpoint subtree (n : node) : list node :=
  n :: match n with
       | Text _ _ => []
       | Elem _ _ ks => flat_map subtree ks
       end.

Definition forest_nodes (f : list node) : list node := flat_map subtree f.

Definition ids (n : node) : list nid := map node_id (subtree n).

Definition forest_ids (f : list node) : list nid := map node_id (forest_nodes f).

Definition find_node (i : nid) (f : list node) : option node :=
  List.find (has_id i) (forest_nodes f).

(** The node that has [i] among its children. *)
Definition find_parent (i : nid) (f : list node) : option node :=
  List.find (fun n => existsb (has_id i) (childNodes n)) (forest_nodes f).

(** [alter_node i g n]: the element [i] of [n] gets the data [g e]. *)
Fixpoint alter_node (i : nid) (g : edata -> edata) (n : node) : node :=
  match n with
  | Text _ _ => n
  | Elem j e ks => Elem j (if j =? i then g e else e) (map (alter_node i g) ks)
  end.

(** [set_kids i new n]: the element [i] of [n] gets the children [new]. *)
Fixpoint set_kids (i : nid) (new : list node) (n : node) : node :=
  match n with
  | Text _ _ => n
  | Elem j e ks => Elem j e (if j =? i then new else map (set_kids i new) ks)
  end.

(** [splice i new n]: in the child list that holds the node [i], that node
    is replaced by the nodes [new] ([splice i []] takes it out). *)
Fixpoint splice (i : nid) (new : list node) (n : node) : node :=
  match n with
  | Text _ _ => n
  | Elem j e ks =>
      Elem j e (flat_map (fun k => if has_id i k then new else [splice i new k]) ks)
  end.

(** Copies of the nodes of a list, one after the other, each by [f] from
    the first identity the one before left unused. *)
Definition relabel_with (f : nid -> node -> node * nid)
  : nid -> list node -> list node * nid :=
  fix go (nx : nid) (l : list node) : list node * nid :=
    match l with
    | [] => ([], nx)
    | k :: r =>
        let '(k', nx1) := f nx k in
        let '(r', nx2) := go nx1 r in
        (k' :: r', nx2)
    end.

(** A copy of a fragment under the fresh identities [next], [next+1], ...
    handed out in tree order, with the first identity left unused. *)
Fixpoint relabel (next : nid) (n : node) : node * nid :=
  match n with
  | Text _ s => (Text next s, S next)
  | Elem _ e ks =>
      let '(ks', nx) := relabel_with relabel (S next) ks in
      (Elem next e ks', nx)
  end.

Definition relabel_list : nid -> list node -> list node * nid := relabel_with relabel.

(** The first non-empty answer of [f] along a list. *)
Definition first_path (f : node -> list node) : list node -> list node :=
  fix go (l : list node) : list node :=
    match l with
    | [] => []
    | k :: r => match f k with [] => go r | p => p end
    end.

(** The path from [n] down to the node [i], [n] first; empty when [i] is
    not in [n]. *)
Fixpoint path_to (i : nid) (n : node) : list node :=
  if has_id i n then [n]
  else
    match n with
    | Text _ _ => []
    | Elem _ _ ks =>
        match first_path (path_to i) ks with [] => [] | p => n :: p end
    end.

Definition forest_path (i : nid) (f : list node) : list node :=
  first_path (path_to i) f.

(** The boundary points [(container, offset)] of a tree, in tree order: a
    text node has one per character position, an element one before each
    child and one after the last. *)
Fixpoint points (n : node) : list (nid * nat) :=
  match n with
  | Text i s => map (fun k => (i, k)) (seq 0 (S (String.length s)))
  | Elem i _ ks =>
      let fix go (k : nat) (l : list node) : list (nid * nat) :=
        match l with
        | [] => []
        | c :: r => points c ++ (i, S k) :: go (S k) r
        end in
      (i, 0) :: go 0 ks
  end.

Fixpoint index_of {A} (p : A -> bool) (l : list A) : option nat :=
  match l with
  | [] => None
  | x :: r => if p x then Some 0 else S <$> index_of p r
  end.

(** A place for a node below the root of a tree: the element above it,
    its left and right siblings, and the way up from there. *)
Inductive ctx :=
| Top (i : nid) (e : edata) (l r : list node)
| Below (i : nid) (e : edata) (l : list node) (c : ctx) (r : list node).

(** The tree with the nodes [new] in the place. *)
Fixpoint plugs (c : ctx) (new : list node) : node :=
  match c with
  | Top i e l r => Elem i e (l ++ new ++ r)
  | Below i e l c' r => Elem i e (l ++ plugs c' new :: r)
  end.

Definition plug (c : ctx) (x : node) : node := plugs c [x].

(** The identities of the tree around the place. *)
Definition ctx_ids (c : ctx) : list nid := ids (plugs c []).

(** The element right above the place. *)
Fixpoint parent_in (c : ctx) (x : node) : node :=
  match c with
  | Top i e l r => Elem i e (l ++ x :: r)
  | Below _ _ _ c' _ => parent_in c' x
  end.

Definition flat_splice (i : nid) (new : list node) (ks : list node) : list node :=
  flat_map (fun k => if has_id i k then new else [splice i new k]) ks.

(** ** Element data: attributes, inline style, selectors *)

Definition getAttribute (name : string) (e : edata) : option string :=
  attrs e !! name.

Definition removeAttribute (name : string) (e : edata) : edata :=
  mk_edata (tagName e) (delete name (attrs e)) (classList e) (style e).

Definition is_prop (prop : string) (d : string * css_value) : bool :=
  String.eqb (fst d) prop.

(** [el.style.<prop>]; [None] stands for the empty string. *)
Definition getStyle (prop : string) (e : edata) : option css_value :=
  snd <$> List.find (is_prop prop) (style e).

Definition css_empty (v : css_value) : bool :=
  match v with Raw "" => true | _ => false end.

Fixpoint put_decl (prop : string) (v : css_value) (st : list (string * css_value))
  : list (string * css_value) :=
  match st with
  | [] => [(prop, v)]
  | d :: r => if is_prop prop d then (prop, v) :: r else d :: put_decl prop v r
  end.

(** [el.style.<prop> = v]: the empty string removes the declaration. *)
Definition setStyle (prop : string) (v : css_value) (e : edata) : edata :=
  mk_edata (tagName e) (attrs e) (classList e)
    (if css_empty v then List.filter (fun d => negb (is_prop prop d)) (style e)
     else put_decl prop v (style e)).

(** Truthiness of [el.style.<prop>]: a non-empty string. *)
Definition style_truthy (prop : string) (e : edata) : bool :=
  match getStyle prop e with
  | Some v => negb (css_empty v)
  | None => false
  end.

Definition css_value_includes (needle : string) (v : css_value) : bool :=
  match v with Px _ => false | Raw s => includes needle s end.

(** The text of the [style] attribute is the declarations
    [name: value;] in a row.  A needle without blank, colon or semicolon
    occurs in it exactly when it occurs in one name or in one value; the
    numeral-and-unit text of a [Px] value holds no letter but [p], [x] and
    those of a numeral. *)
Definition cssText_includes (needle : string) (st : list (string * css_value)) : bool :=
  existsb (fun d => includes needle (fst d) || css_value_includes needle (snd d)) st.

(** The three selectors of the program: [*], [tag[attr="value"]] and
    [tag[style*="needle"]].  Tags are written in upper case, as [tagName]
    is. *)
Inductive selector :=
| Universal
| AttrEquals (tag attr value : string)
| StyleContains (tag needle : string).

Definition matches (s : selector) (e : edata) : bool :=
  match s with
  | Universal => true
  | AttrEquals tag attr value =>
      String.eqb (tagName e) tag &&
      match getAttribute attr e with Some v => String.eqb v value | None => false end
  | StyleContains tag needle =>
      String.eqb (tagName e) tag && cssText_includes needle (style e)
  end.

Definition node_matches (s : selector) (n : node) : bool :=
  match n with Text _ _ => false | Elem _ e _ => matches s e end.

(** [root.querySelectorAll(s)] on the node [root]: its matching proper
    descendants, in tree order. *)
Definition select_all (s : selector) (root : node) : list nid :=
  map node_id (List.filter (node_matches s) (flat_map subtree (childNodes root))).

(** ** Ranges and the selection *)

Record Range := mk_Range {
  startContainer : nid;
  startOffset : nat;
  endContainer : nid;
  endOffset : nat
}.

(** The window's [Selection]: at most one range, and the side its anchor
    is on. *)
Record Selection := mk_Selection {
  sel_range : option Range;
  sel_backward : bool
}.

Definition rangeCount (s : Selection) : nat :=
  match sel_range s with Some _ => 1 | None => 0 end.

Definition getRangeAt0 (s : Selection) : option Range := sel_range s.

Definition anchorNode (s : Selection) : option nid :=
  (fun r => if sel_backward s then endContainer r else startContainer r) <$> sel_range s.

Definition no_selection : Selection := mk_Selection None false.

(** ** The page *)

(** The live document (rooted at its root element), the identity of
    [document.body], the detached trees still referenced by scripts, the
    next unused node identity, and the selection. *)
Record Page := mk_Page {
  document : node;
  body : nid;
  detached : list node;
  next_id : nid;
  selection : Selection
}.

Definition trees (p : Page) : list node := document p :: detached p.

Definition set_trees (doc : node) (det : list node) (p : Page) : Page :=
  mk_Page doc (body p) det (next_id p) (selection p).

Definition set_selection (s : Selection) (p : Page) : Page :=
  mk_Page (document p) (body p) (detached p) (next_id p) s.

Definition on_trees (f : node -> node) (p : Page) : Page :=
  set_trees (f (document p)) (map f (detached p)) p.

Definition get_node (p : Page) (i : nid) : option node := find_node i (trees p).

Definition empty_edata : edata := mk_edata "" ∅ [] [].

(** The data of the element behind a reference.  References held by the
    program always denote a node of the page; the default is never
    reached. *)
Definition node_data (p : Page) (i : nid) : edata :=
  match get_node p i with Some (Elem _ e _) => e | _ => empty_edata end.

Definition node_kids (p : Page) (i : nid) : list node :=
  match get_node p i with Some n => childNodes n | None => [] end.

Definition firstChild (p : Page) (i : nid) : option nid :=
  match node_kids p i with k :: _ => Some (node_id k) | [] => None end.

(** The node, its parent, its grandparent, ... up to the root of its tree. *)
Definition inclusive_ancestors (p : Page) (i : nid) : list node :=
  rev (forest_path i (trees p)).

Definition parentNode (p : Page) (i : nid) : option node :=
  match inclusive_ancestors p i with _ :: par :: _ => Some par | _ => None end.

(** [a.contains(b)]: [b] is an inclusive descendant of [a]. *)
Definition contains (p : Page) (a : nid) (b : option nid) : bool :=
  match b, get_node p a with
  | Some i, Some an => existsb (has_id i) (subtree an)
  | _, _ => false
  end.

Definition root_of (p : Page) (i : nid) : option nid :=
  node_id <$> last (inclusive_ancestors p i).

Definition commonAncestorContainer (p : Page) (r : Range) : option nid :=
  node_id <$> List.find (fun a => existsb (has_id (endContainer r)) (subtree a))
                (inclusive_ancestors p (startContainer r)).

(** Position of a boundary point among those of its tree. *)
Definition point_index (p : Page) (bp : nid * nat) : option nat :=
  match last (inclusive_ancestors p (fst bp)) with
  | Some root => index_of (fun q => (fst q =? fst bp) && (snd q =? snd bp)) (points root)
  | None => None
  end.

(** [bp1] is before [bp2], both in one tree. *)
Definition point_before (p : Page) (bp1 bp2 : nid * nat) : bool :=
  match point_index p bp1, point_index p bp2 with
  | Some a, Some b => a <? b
  | _, _ => false
  end.

Definition same_root (p : Page) (i j : nid) : bool :=
  match root_of p i, root_of p j with
  | Some a, Some b => a =? b
  | _, _ => false
  end.

(** [document.createRange()]: collapsed at the start of the document. *)
Definition createRange (p : Page) : Range :=
  mk_Range (node_id (document p)) 0 (node_id (document p)) 0.

(** "Set the start" and "set the end" of the DOM standard: a boundary
    point in another tree, or on the wrong side of the other end,
    collapses the range onto it. *)
Definition set_start (p : Page) (r : Range) (bp : nid * nat) : Range :=
  if negb (same_root p (startContainer r) (fst bp))
     || point_before p (endContainer r, endOffset r) bp
  then mk_Range (fst bp) (snd bp) (fst bp) (snd bp)
  else mk_Range (fst bp) (snd bp) (endContainer r) (endOffset r).

Definition set_end (p : Page) (r : Range) (bp : nid * nat) : Range :=
  if negb (same_root p (startContainer r) (fst bp))
     || point_before p bp (startContainer r, startOffset r)
  then mk_Range (fst bp) (snd bp) (fst bp) (snd bp)
  else mk_Range (startContainer r) (startOffset r) (fst bp) (snd bp).

(** Index of the node [i] among the children of [par]. *)
Definition child_index (par : node) (i : nid) : nat :=
  default 0 (index_of (has_id i) (childNodes par)).

(** [selection.removeAllRanges()] and [selection.addRange(r)]; a range
    whose root is not the document is ignored, and so is a second range. *)
Definition removeAllRanges (p : Page) : Page := set_selection no_selection p.

Definition addRange (r : Range) (p : Page) : Page :=
  match sel_range (selection p) with
  | Some _ => p
  | None =>
      if existsb (Nat.eqb (startContainer r)) (ids (document p))
      then set_selection (mk_Selection (Some r) false) p
      else p
  end.

(** ** Mutations of the tree *)

(** Take the node [i] out of wherever it is. *)
Definition take_out (i : nid) (p : Page) : Page :=
  set_trees (splice i [] (document p))
            (map (splice i []) (List.filter (fun t => negb (has_id i t)) (detached p))) p.

(** [el.style.<prop> = v] and [el.removeAttribute(name)] on a reference. *)
Definition alter_element (i : nid) (g : edata -> edata) (p : Page) : Page :=
  on_trees (alter_node i g) p.

(** [child.remove()]. *)
Definition remove_node (i : nid) (p : Page) : Page :=
  match parentNode p i, get_node p i with
  | Some _, Some n =>
      let p1 := take_out i p in
      set_trees (document p1) (detached p1 ++ [n]) p1
  | _, _ => p
  end.

(** [par.insertBefore(c, ref)], [ref] being a child of [par]. *)
Definition insertBefore (par c ref : nid) (p : Page) : Page :=
  match get_node p c with
  | Some cn =>
      let p1 := take_out c p in
      match get_node p1 ref with
      | Some refn => on_trees (splice ref [cn; refn]) p1
      | None => p
      end
  | None => p
  end.

(** [el.replaceWith(new)]; nothing happens when [el] has no parent. *)
Definition replaceWith (el new : nid) (p : Page) : Page :=
  match parentNode p el, get_node p new with
  | Some _, Some newn =>
      let p1 := take_out new p in
      match get_node p1 el with
      | Some eln =>
          let p2 := on_trees (splice el [newn]) p1 in
          set_trees (document p2) (detached p2 ++ [eln]) p2
      | None => p
      end
  | _, _ => p
  end.

(** [document.createElement(tag)]: a detached element with a fresh
    identity. *)
Definition createElement (tag : string) (p : Page) : nid * Page :=
  (next_id p,
   mk_Page (document p) (body p)
           (detached p ++ [Elem (next_id p) (mk_edata tag ∅ [] []) []])
           (S (next_id p)) (selection p)).

(** [dst.innerHTML = <markup of the fragment frag>]: the children of [dst]
    are replaced by a copy of [frag] under fresh identities; the former
    children stay around, detached. *)
Definition set_children_copy (dst : nid) (frag : list node) (p : Page) : Page :=
  let '(copy, nx) := relabel_list (next_id p) frag in
  let old := node_kids p dst in
  mk_Page (set_kids dst copy (document p)) (body p)
          (map (set_kids dst copy) (detached p) ++ old)
          nx (selection p).

(** ** What the browser supplies *)

Inductive outcome (A : Type) :=
| Ok (a : A)
| Throw (e : string).
Arguments Ok {A} a.
Arguments Throw {A} e.

(** The primitives the program calls but does not define.  A native
    command may change the page in any way and may raise; a query may
    raise. *)
Record Browser := mk_Browser {
  (** [document.execCommand(name, false, value)] *)
  native_execCommand : string -> string -> Page -> outcome unit * Page;
  (** [document.queryCommandState(name)] *)
  native_queryCommandState : string -> Page -> outcome bool;
  (** [window.getComputedStyle(el).fontSize] *)
  native_computedFontSize : Page -> nid -> string;
  (** [el.focus()] *)
  native_focus : nid -> Page -> Page;
  (** [parseFloat(text)] *)
  native_parseFloat : string -> float;
  (** [x.toFixed(1)] *)
  native_toFixed1 : float -> string;
  (** the markup of a fragment, as the [innerHTML] getter gives it *)
  native_serialize : list node -> string;
  (** the fragment a markup denotes, as the [innerHTML] setter builds it *)
  native_parse : string -> list node;
  (** the callback registered through [registerOnChange] *)
  native_onChange : string -> outcome unit
}.

(** ** The application state *)

(** What an observer of the run sees: the native calls, the values
    pushed on [isUpdating], the contents handed to [onChange]. *)
Inductive event :=
| EvExecCommand (name value : string)
| EvQueryCommandState (name : string)
| EvFocus (el : nid)
| EvIsUpdating (b : bool)
| EvOnChange (html : string).

(** [ToolbarService]: the fields the formatter reads or writes
    ([isVisible] and [position] only drive the toolbar's placement). *)
Record ToolbarService := mk_ToolbarService {
  ts_isUpdating : bool;
  ts_activeStates : gmap string jsval;
  ts_savedRange : option Range
}.

(** [TextEditorComponent]. *)
Record TextEditorComponent := mk_TextEditorComponent {
  te_content : string;
  te_isDisabled : bool;
  te_savedRange : option Range;
  te_toolbarState : gmap string jsval;
  te_editorRef : option nid
}.

(** [RichTextDirective]: the surface the shared toolbar works on. *)
Record RichTextDirective := mk_RichTextDirective {
  rt_isDisabled : bool;
  rt_el : nid
}.

Record App := mk_App {
  page : Page;
  service : ToolbarService;
  editor : TextEditorComponent;
  directive : RichTextDirective;
  trace : list event
}.

(** The initial format state of both implementations. *)
Definition initial_states : gmap string jsval :=
  <["bold" := VBool false]> (<["italic" := VBool false]> (<["underline" := VBool false]>
  (<["justifyLeft" := VBool false]> (<["justifyCenter" := VBool false]>
  (<["justifyRight" := VBool false]> (<["fontSize" := VNum 12%float]> ∅)))))).

(** ** Statements: state passing with exceptions *)

Definition M (A : Type) : Type := App -> outcome A * App.

Definition ret {A} (x : A) : M A := fun a => (Ok x, a).

Definition bind {A B} (m : M A) (k : A -> M B) : M B :=
  fun a => match m a with
           | (Ok x, a') => k x a'
           | (Throw e, a') => (Throw e, a')
           end.

Definition throw {A} (e : string) : M A := fun a => (Throw e, a).

Notation "x <- m ;; k" := (bind m (fun x => k))
  (at level 100, m at next level, right associativity).
Notation "m ;; k" := (bind m (fun _ => k))
  (at level 100, right associativity).

Definition gets {A} (f : App -> A) : M A := fun a => (Ok (f a), a).

Definition modify (f : App -> App) : M unit := fun a => (Ok tt, f a).

(** [try { body } finally { fin }] *)
Definition try_finally {A} (body : M A) (fin : M unit) : M A :=
  fun a => match body a with
           | (r, a1) => match fin a1 with
                        | (Ok _, a2) => (r, a2)
                        | (Throw e, a2) => (Throw e, a2)
                        end
           end.

Definition when (b : bool) (m : M unit) : M unit := if b then m else ret tt.

(** [l.forEach(f)] *)
Fixpoint forEach {A} (l : list A) (f : A -> M unit) : M unit :=
  match l with
  | [] => ret tt
  | x :: r => f x ;; forEach r f
  end.

(** A loop over [l] that grows a local array. *)
Fixpoint collect {A B} (l : list A) (f : A -> M B) (acc : list B) : M (list B) :=
  match l with
  | [] => ret acc
  | x :: r => y <- f x ;; collect r f (acc ++ [y])
  end.

Definition set_page (p : Page) (a : App) : App :=
  mk_App p (service a) (editor a) (directive a) (trace a).

Definition set_service (s : ToolbarService) (a : App) : App :=
  mk_App (page a) s (editor a) (directive a) (trace a).

Definition set_editor (c : TextEditorComponent) (a : App) : App :=
  mk_App (page a) (service a) c (directive a) (trace a).

Definition set_directive (d : RichTextDirective) (a : App) : App :=
  mk_App (page a) (service a) (editor a) d (trace a).

Definition emit (ev : event) : M unit :=
  modify (fun a => mk_App (page a) (service a) (editor a) (directive a) (trace a ++ [ev])).

Definition on_page (f : Page -> Page) : M unit :=
  modify (fun a => set_page (f (page a)) a).

(** ** The DOM interface, as statements *)

Section Dom.
Context (br : Browser).

(** [window.getSelection()]: a displayed document always has its
    selection object, so the [if (sel)] guards of the program pass. *)
Definition getSelection : M (option Selection) :=
  gets (fun a => Some (selection (page a))).

Definition document_execCommand (name value : string) : M unit :=
  emit (EvExecCommand name value) ;;
  fun a => match native_execCommand br name value (page a) with
           | (r, p') => (r, set_page p' a)
           end.

Definition document_queryCommandState (name : string) : M bool :=
  emit (EvQueryCommandState name) ;;
  fun a => (native_queryCommandState br name (page a), a).

Definition getComputedFontSize (el : nid) : M string :=
  gets (fun a => native_computedFontSize br (page a) el).

Definition focus (el : nid) : M unit :=
  emit (EvFocus el) ;; on_page (native_focus br el).

Definition sel_removeAllRanges : M unit := on_page removeAllRanges.

Definition sel_addRange (r : Range) : M unit := on_page (addRange r).

Definition document_createRange : M Range := gets (fun a => createRange (page a)).

(** [range.setStartBefore(n)] and [range.setEndAfter(n)]; both raise
    when [n] has no parent. *)
Definition setStartBefore (r : Range) (n : nid) : M Range :=
  par <- gets (fun a => parentNode (page a) n) ;;
  match par with
  | None => throw "InvalidNodeTypeError"
  | Some pn => gets (fun a => set_start (page a) r (node_id pn, child_index pn n))
  end.

Definition setEndAfter (r : Range) (n : nid) : M Range :=
  par <- gets (fun a => parentNode (page a) n) ;;
  match par with
  | None => throw "InvalidNodeTypeError"
  | Some pn => gets (fun a => set_end (page a) r (node_id pn, S (child_index pn n)))
  end.

(** [root.querySelectorAll(s)] *)
Definition querySelectorAll (root : nid) (s : selector) : M (list nid) :=
  gets (fun a => match get_node (page a) root with
                 | Some n => select_all s n
                 | None => []
                 end).

Definition parentElement (n : nid) : M (option nid) :=
  gets (fun a => node_id <$> parentNode (page a) n).

Definition data_of (n : nid) : M edata := gets (fun a => node_data (page a) n).

Definition childNodes_length (n : nid) : M nat :=
  gets (fun a => length (node_kids (page a) n)).

Definition el_firstChild (n : nid) : M (option nid) :=
  gets (fun a => firstChild (page a) n).

Definition set_style (n : nid) (prop : string) (v : css_value) : M unit :=
  on_page (alter_element n (setStyle prop v)).

Definition el_removeAttribute (n : nid) (name : string) : M unit :=
  on_page (alter_element n (removeAttribute name)).

Definition el_insertBefore (par c ref : nid) : M unit :=
  on_page (insertBefore par c ref).

Definition el_remove (n : nid) : M unit := on_page (remove_node n).

Definition el_replaceWith (el new : nid) : M unit := on_page (replaceWith el new).

Definition document_createElement (tag : string) : M nid :=
  fun a => let '(i, p') := createElement tag (page a) in (Ok i, set_page p' a).

(** [dst.innerHTML = src.innerHTML]: the markup of [src]'s children is
    parsed back into a copy of them. *)
Definition copy_innerHTML (dst src : nid) : M unit :=
  on_page (fun p => set_children_copy dst (node_kids p src) p).

(** [el.innerHTML] read as a string, and [el.innerHTML = html]. *)
Definition get_innerHTML (el : nid) : M string :=
  gets (fun a => native_serialize br (node_kids (page a) el)).

Definition set_innerHTML (el : nid) (html : string) : M unit :=
  on_page (set_children_copy el (native_parse br html)).
End Dom.

(** ** The font-size rewrite shared by both implementations

    The body of [toReplace.forEach] and the re-selection that follows it
    read the same, line for line, in [toolbar.service.ts] and in
    [text-editor.component.ts]; they are embedded once. *)

Definition markerFont : string := "cdk-marker-font".

(** [font[face="cdk-marker-font"]] and [span[style*="cdk-marker-font"]]. *)
Definition fontTagsSelector : selector := AttrEquals "FONT" "face" markerFont.
Definition spanTagsSelector : selector := StyleContains "SPAN" markerFont.

Section Rewrite.
Context (br : Browser).

(** The body of [descendants.forEach]; every element of an HTML
    document is an [HTMLElement]. *)
Definition cleanDescendant (node : nid) : M unit :=
  set_style node "font-size" (Raw "") ;;
  e <- data_of node ;;
  when (String.eqb (tagName e) "FONT")
    (el_removeAttribute node "size" ;;
     el_removeAttribute node "face").

(** [while (el.firstChild) { parent.insertBefore(el.firstChild, el); }];
    every turn takes one child out of [el], so the number of children of
    [el] on entry bounds the number of turns. *)
Fixpoint unwrapLoop (turns : nat) (parent el : nid) : M unit :=
  match turns with
  | 0 => ret tt
  | S n =>
      c <- el_firstChild el ;;
      match c with
      | Some child => el_insertBefore parent child el ;; unwrapLoop n parent el
      | None => ret tt
      end
  end.

(** [parent && parent.tagName === 'SPAN' && parent.style.fontSize &&
    parent.childNodes.length === 1] *)
Definition isParentFontSpan (parent : option nid) : M bool :=
  match parent with
  | None => ret false
  | Some par =>
      pe <- data_of par ;;
      n <- childNodes_length par ;;
      ret (String.eqb (tagName pe) "SPAN" && style_truthy "font-size" pe && (n =? 1))
  end.

(** The body of [toReplace.forEach]; the result is the element pushed
    on [newSpans]. *)
Definition replaceMarker (size : float) (el : nid) : M nid :=
  descendants <- querySelectorAll el Universal ;;
  forEach descendants cleanDescendant ;;
  parent <- parentElement el ;;
  reuse <- isParentFontSpan parent ;;
  match parent, reuse with
  | Some par, true =>
      set_style par "font-size" (Px size) ;;
      turns <- childNodes_length el ;;
      unwrapLoop turns par el ;;
      el_remove el ;;
      ret par
  | _, _ =>
      span <- document_createElement "SPAN" ;;
      set_style span "font-size" (Px size) ;;
      copy_innerHTML span el ;;
      el_replaceWith el span ;;
      ret span
  end.

(** [if (newSpans.length > 0) { ... }] *)
Definition reselect (newSpans : list nid) : M unit :=
  match newSpans with
  | [] => ret tt
  | first :: _ =>
      sel <- getSelection ;;
      match sel with
      | None => ret tt
      | Some _ =>
          sel_removeAllRanges ;;
          range <- document_createRange ;;
          range <- setStartBefore range first ;;
          range <- setEndAfter range (List.last newSpans first) ;;
          sel_addRange range
      end
  end.

(** The parsing of a computed font size:
    [parsed = parseFloat(computed); if (!isNaN(parsed)) currentFontSize
     = parseFloat(parsed.toFixed(1))], from the default 12. *)
Definition probeFontSize (span : option nid) : M float :=
  match span with
  | None => ret 12%float
  | Some sp =>
      computed <- getComputedFontSize br sp ;;
      let parsed := native_parseFloat br computed in
      ret (if negb (isNaN parsed)
           then native_parseFloat br (native_toFixed1 br parsed)
           else 12%float)
  end.
End Rewrite.

(** ** [ToolbarService] (toolbar.service.ts) *)

Module ToolbarService.
Section WithBrowser.
Context (br : Browser).

Definition set_savedRange (r : option Range) : M unit :=
  modify (fun a => set_service
    (mk_ToolbarService (ts_isUpdating (service a)) (ts_activeStates (service a)) r) a).

Definition activeStates_next (st : gmap string jsval) : M unit :=
  modify (fun a => set_service
    (mk_ToolbarService (ts_isUpdating (service a)) st (ts_savedRange (service a))) a).

Definition isUpdating_next (b : bool) : M unit :=
  modify (fun a => set_service
    (mk_ToolbarService b (ts_activeStates (service a)) (ts_savedRange (service a))) a) ;;
  emit (EvIsUpdating b).

(** The loop of [isContentEditable], over the nodes that
    [node = node.parentNode] visits. *)
Fixpoint isContentEditable_walk (chain : list node) : bool :=
  match chain with
  | [] => false
  | Text _ _ :: up => isContentEditable_walk up
  | Elem _ el _ :: up =>
      if bool_decide (getAttribute "contenteditable" el = Some "true") then true
      else if bool_decide (getAttribute "contenteditable" el = Some "false") then false
      else if existsb (String.eqb "floating-toolbar") (classList el) then false
      else isContentEditable_walk up
  end.

Definition isContentEditable (node : option nid) : M bool :=
  gets (fun a => match node with
                 | Some n => isContentEditable_walk (inclusive_ancestors (page a) n)
                 | None => false
                 end).

Definition saveSelection : M unit :=
  sel <- getSelection ;;
  match sel with
  | Some s =>
      if 0 <? rangeCount s then
        match getRangeAt0 s with
        | Some range =>
            container <- gets (fun a => commonAncestorContainer (page a) range) ;;
            editable <- isContentEditable container ;;
            when editable (set_savedRange (Some range))
        | None => ret tt
        end
      else ret tt
  | None => ret tt
  end.

Definition restoreSelection : M unit :=
  saved <- gets (fun a => ts_savedRange (service a)) ;;
  match saved with
  | Some r =>
      sel <- getSelection ;;
      match sel with
      | Some _ => sel_removeAllRanges ;; sel_addRange r
      | None => ret tt
      end
  | None => ret tt
  end.

Definition updateActiveStates : M unit :=
  sel <- getSelection ;;
  let anchor := match sel with Some s => anchorNode s | None => None end in
  editable <- isContentEditable anchor ;;
  match anchor with
  | Some an =>
      if editable then
        span <- parentElement an ;;
        currentFontSize <- probeFontSize br span ;;
        bold <- document_queryCommandState br "bold" ;;
        italic <- document_queryCommandState br "italic" ;;
        underline <- document_queryCommandState br "underline" ;;
        justifyLeft <- document_queryCommandState br "justifyLeft" ;;
        justifyCenter <- document_queryCommandState br "justifyCenter" ;;
        justifyRight <- document_queryCommandState br "justifyRight" ;;
        activeStates_next
          (<["bold" := VBool bold]> (<["italic" := VBool italic]>
          (<["underline" := VBool underline]> (<["justifyLeft" := VBool justifyLeft]>
          (<["justifyCenter" := VBool justifyCenter]>
          (<["justifyRight" := VBool justifyRight]>
          (<["fontSize" := VNum currentFontSize]> ∅)))))))
      else ret tt
  | None => ret tt
  end.

Definition executeCommand (command value : string) : M unit :=
  isUpdating_next true ;;
  try_finally
    (restoreSelection ;;
     document_execCommand br "styleWithCSS" "true" ;;
     document_execCommand br command value ;;
     saveSelection ;;
     updateActiveStates)
    (isUpdating_next false).

(** [let container = document.body; if (this.savedRange &&
    this.savedRange.commonAncestorContainer) { ... }] *)
Definition searchContainer : M (option nid) :=
  saved <- gets (fun a => ts_savedRange (service a)) ;;
  common <- gets (fun a => match saved with
                           | Some r => commonAncestorContainer (page a) r
                           | None => None
                           end) ;;
  match common with
  | Some node =>
      n <- gets (fun a => get_node (page a) node) ;;
      match n with
      | Some (Elem _ _ _) => ret (Some node)
      | _ => parentElement node
      end
  | None => gets (fun a => Some (body (page a)))
  end.

Definition setFontSize (size : float) : M unit :=
  isUpdating_next true ;;
  try_finally
    (restoreSelection ;;
     document_execCommand br "styleWithCSS" "false" ;;
     document_execCommand br "fontName" markerFont ;;
     document_execCommand br "styleWithCSS" "true" ;;
     container <- searchContainer ;;
     match container with
     | None => throw "TypeError"
     | Some root =>
         fontTags <- querySelectorAll root fontTagsSelector ;;
         spanTags <- querySelectorAll root spanTagsSelector ;;
         let toReplace := fontTags ++ spanTags in
         newSpans <- collect toReplace (replaceMarker size) [] ;;
         reselect newSpans ;;
         saveSelection ;;
         current <- gets (fun a => ts_activeStates (service a)) ;;
         activeStates_next (<["fontSize" := VNum size]> current)
     end)
    (isUpdating_next false).
End WithBrowser.
End ToolbarService.

(** ** [FloatingToolbarComponent] (floating-toolbar.component.ts) *)

Module FloatingToolbarComponent.
Section WithBrowser.
Context (br : Browser).

Definition exec (command value : string) : M unit :=
  ToolbarService.executeCommand br command value.

(** [typeof size === 'number' ? size : 12] on [state['fontSize']]. *)
Definition getCurrentFontSize : M float :=
  gets (fun a => match ts_activeStates (service a) !! "fontSize" with
                 | Some (VNum size) => size
                 | _ => 12%float
                 end).

Definition changeFontSize (delta : float) : M unit :=
  current <- getCurrentFontSize ;;
  let newSize := (current + delta)%float in
  when (ge1 newSize) (ToolbarService.setFontSize br newSize).

Definition setManualFontSize (value : string) : M unit :=
  let newSize := native_parseFloat br value in
  when (negb (isNaN newSize) && ge1 newSize) (ToolbarService.setFontSize br newSize).

Definition saveRange : M unit := ToolbarService.saveSelection.
End WithBrowser.
End FloatingToolbarComponent.

(** ** [RichTextDirective] (rich-text.directive.ts) *)

Module RichTextDirective.
Definition setDisabledState (isDisabled : bool) : M unit :=
  modify (fun a => set_directive (mk_RichTextDirective isDisabled (rt_el (directive a))) a).

(** The host binding [[contentEditable]: isDisabled ? "false" : "true"]. *)
Definition hostContentEditable : M unit :=
  modify (fun a =>
    let v := if rt_isDisabled (directive a) then "false" else "true" in
    set_page (alter_element (rt_el (directive a))
                (fun e => mk_edata (tagName e) (<["contenteditable" := v]> (attrs e))
                                   (classList e) (style e)) (page a)) a).
End RichTextDirective.

(** ** [TextEditorComponent] (text-editor.component.ts) *)

Module TextEditorComponent.
Section WithBrowser.
Context (br : Browser).

(** [cleanupEmptyLines] works on a scratch element that is never attached
    to the document and returns a string; it is kept as a function on
    markup. *)
Context (cleanupEmptyLines : string -> string).

Definition set_content (s : string) : M unit :=
  modify (fun a => set_editor
    (mk_TextEditorComponent s (te_isDisabled (editor a)) (te_savedRange (editor a))
       (te_toolbarState (editor a)) (te_editorRef (editor a))) a).

Definition set_isDisabled (b : bool) : M unit :=
  modify (fun a => set_editor
    (mk_TextEditorComponent (te_content (editor a)) b (te_savedRange (editor a))
       (te_toolbarState (editor a)) (te_editorRef (editor a))) a).

Definition set_savedRange (r : option Range) : M unit :=
  modify (fun a => set_editor
    (mk_TextEditorComponent (te_content (editor a)) (te_isDisabled (editor a)) r
       (te_toolbarState (editor a)) (te_editorRef (editor a))) a).

(** [this.toolbarState[key] = v] *)
Definition toolbarState_set (key : string) (v : jsval) : M unit :=
  modify (fun a => set_editor
    (mk_TextEditorComponent (te_content (editor a)) (te_isDisabled (editor a))
       (te_savedRange (editor a)) (<[key := v]> (te_toolbarState (editor a)))
       (te_editorRef (editor a))) a).

(** [this.editorRef.nativeElement]; a [TypeError] when the view child is
    not there yet. *)
Definition nativeElement : M nid :=
  ref <- gets (fun a => te_editorRef (editor a)) ;;
  match ref with
  | Some el => ret el
  | None => throw "TypeError"
  end.

(** [value || ''] on a [string | null | undefined]. *)
Definition or_empty (value : option string) : string :=
  match value with
  | Some s => s
  | None => ""
  end.

Definition writeValue (value : option string) : M unit :=
  set_content (or_empty value) ;;
  ref <- gets (fun a => te_editorRef (editor a)) ;;
  match ref with
  | Some el =>
      html <- get_innerHTML br el ;;
      content <- gets (fun a => te_content (editor a)) ;;
      when (negb (String.eqb html content)) (set_innerHTML br el content)
  | None => ret tt
  end.

Definition setDisabledState (isDisabled : bool) : M unit :=
  set_isDisabled isDisabled ;;
  ref <- gets (fun a => te_editorRef (editor a)) ;;
  match ref with
  | Some el =>
      let v := if isDisabled then "false" else "true" in
      on_page (alter_element el
                 (fun e => mk_edata (tagName e) (<["contenteditable" := v]> (attrs e))
                                    (classList e) (style e)))
  | None => ret tt
  end.

Definition saveSelection : M unit :=
  sel <- getSelection ;;
  match sel with
  | Some s =>
      if 0 <? rangeCount s then
        el <- nativeElement ;;
        inside <- gets (fun a => contains (page a) el (anchorNode s)) ;;
        if inside then set_savedRange (getRangeAt0 s) else ret tt
      else ret tt
  | None => ret tt
  end.

Definition restoreSelection : M unit :=
  saved <- gets (fun a => te_savedRange (editor a)) ;;
  match saved with
  | Some r =>
      sel <- getSelection ;;
      match sel with
      | Some _ => sel_removeAllRanges ;; sel_addRange r
      | None => ret tt
      end
  | None => ret tt
  end.

Definition probeState (key : string) : M unit :=
  b <- document_queryCommandState br key ;;
  toolbarState_set key (VBool b).

Definition updateToolbarState : M unit :=
  ref <- gets (fun a => te_editorRef (editor a)) ;;
  match ref with
  | None => ret tt
  | Some el =>
      selection <- getSelection ;;
      let anchor := match selection with Some s => anchorNode s | None => None end in
      inside <- gets (fun a => contains (page a) el anchor) ;;
      match anchor with
      | Some an =>
          if inside then
            span <- parentElement an ;;
            currentFontSize <- probeFontSize br span ;;
            probeState "bold" ;;
            probeState "italic" ;;
            probeState "underline" ;;
            probeState "justifyLeft" ;;
            probeState "justifyCenter" ;;
            probeState "justifyRight" ;;
            toolbarState_set "fontSize" (VNum currentFontSize)
          else ret tt
      | None => ret tt
      end
  end.

Definition onInput : M unit :=
  el <- nativeElement ;;
  html <- get_innerHTML br el ;;
  set_content (cleanupEmptyLines html) ;;
  content <- gets (fun a => te_content (editor a)) ;;
  emit (EvOnChange content) ;;
  (fun a => (native_onChange br content, a)) ;;
  saveSelection ;;
  updateToolbarState.

Definition execCommand (command value : string) : M unit :=
  disabled <- gets (fun a => te_isDisabled (editor a)) ;;
  if disabled then ret tt
  else
    restoreSelection ;;
    el <- nativeElement ;;
    focus br el ;;
    document_execCommand br "styleWithCSS" "true" ;;
    document_execCommand br command value ;;
    saveSelection ;;
    updateToolbarState ;;
    onInput.

(** [typeof size === 'number' ? size : 12] on [toolbarState['fontSize']]. *)
Definition getCurrentFontSize : M float :=
  gets (fun a => match te_toolbarState (editor a) !! "fontSize" with
                 | Some (VNum size) => size
                 | _ => 12%float
                 end).

Definition setFontSize (size : float) : M unit :=
  restoreSelection ;;
  document_execCommand br "styleWithCSS" "false" ;;
  document_execCommand br "fontName" markerFont ;;
  el <- nativeElement ;;
  fontTags <- querySelectorAll el fontTagsSelector ;;
  spanTags <- querySelectorAll el spanTagsSelector ;;
  let toReplace := fontTags ++ spanTags in
  newSpans <- collect toReplace (replaceMarker size) [] ;;
  reselect newSpans ;;
  saveSelection ;;
  updateToolbarState ;;
  toolbarState_set "fontSize" (VNum size) ;;
  onInput.

Definition changeFontSize (delta : float) : M unit :=
  current <- getCurrentFontSize ;;
  let newSize := (current + delta)%float in
  when (ge1 newSize) (setFontSize newSize).

Definition setManualFontSize (value : string) : M unit :=
  let newSize := native_parseFloat br value in
  when (negb (isNaN newSize) && ge1 newSize) (setFontSize newSize).
End WithBrowser.
End TextEditorComponent.

(** [node.textContent]: the text of the text nodes below a node, in tree
    order. *)
Fixpoint textContent (n : node) : string :=
  match n with
  | Text _ s => s
  | Elem _ _ ks => fold_right (fun k acc => textContent k ++ acc)%string "" ks
  end.

(** ** The placement of the floating toolbar

    [ToolbarService] holds two more subjects, [isVisible] and
    [position], that only the placement of the toolbar reads and writes.
    They live beside the application state: a placement statement runs
    on the pair of them and the application. *)

Record ToolbarPosition := mk_ToolbarPosition {
  pos_top : float;
  pos_left : float
}.

(** The fields of a [DOMRect] that the program reads. *)
Record DOMRect := mk_DOMRect {
  rect_top : float;
  rect_left : float;
  rect_width : float
}.

(** What the layout engine supplies: the scroll offsets of the window,
    [range.getBoundingClientRect()] and [el.getBoundingClientRect()]. *)
Record Layout := mk_Layout {
  window_scrollX : float;
  window_scrollY : float;
  range_rect : Page -> Range -> DOMRect;
  element_rect : Page -> nid -> DOMRect
}.

Record Stage := mk_Stage {
  stage_app : App;
  isVisible : bool;
  position : ToolbarPosition
}.

Definition MS (A : Type) : Type := Stage -> outcome A * Stage.

Definition sret {A} (x : A) : MS A := fun st => (Ok x, st).

Definition sbind {A B} (m : MS A) (k : A -> MS B) : MS B :=
  fun st => match m st with
            | (Ok x, st') => k x st'
            | (Throw e, st') => (Throw e, st')
            end.

(** A statement on the application, run on the stage. *)
Definition lift {A} (m : M A) : MS A :=
  fun st => match m (stage_app st) with
            | (r, a') => (r, mk_Stage a' (isVisible st) (position st))
            end.

Notation "x <~ m ;~ k" := (sbind m (fun x => k))
  (at level 100, m at next level, right associativity).
Notation "m ;~ k" := (sbind m (fun _ => k))
  (at level 100, right associativity).

Definition isVisible_next (b : bool) : MS unit :=
  fun st => (Ok tt, mk_Stage (stage_app st) b (position st)).

Definition position_next (pos : ToolbarPosition) : MS unit :=
  fun st => (Ok tt, mk_Stage (stage_app st) (isVisible st) pos).

(** [selection.isCollapsed] *)
Definition isCollapsed (s : Selection) : bool :=
  match sel_range s with
  | Some r => (startContainer r =? endContainer r) && (startOffset r =? endOffset r)
  | None => true
  end.

(** [show] and [hide] of [ToolbarService] (toolbar.service.ts). *)
Module ToolbarPlacement.
Section WithBrowser.
Context (br : Browser) (ly : Layout).

Definition show (selectionRect containerRect : DOMRect) : MS unit :=
  let top_ := (rect_top containerRect + window_scrollY ly)%float in
  let left_ := (rect_left containerRect + window_scrollX ly)%float in
  position_next (mk_ToolbarPosition top_ left_) ;~
  isVisible_next true ;~
  lift (ToolbarService.updateActiveStates br).

Definition hide : MS unit := isVisible_next false.
End WithBrowser.
End ToolbarPlacement.

(** The event handlers of [RichTextDirective] (rich-text.directive.ts). *)
Module RichTextHandlers.
Section WithBrowser.
Context (br : Browser) (ly : Layout).

Definition onInput : M unit :=
  host <- gets (fun a => rt_el (directive a)) ;;
  html <- get_innerHTML br host ;;
  emit (EvOnChange html) ;;
  (fun a => (native_onChange br html, a)) ;;
  busy <- gets (fun a => ts_isUpdating (service a)) ;;
  when (negb busy) ToolbarService.saveSelection.

Definition checkSelection : MS unit :=
  busy <~ lift (gets (fun a => ts_isUpdating (service a))) ;~
  if busy then sret tt
  else
    selection <~ lift getSelection ;~
    match selection with
    | None => sret tt
    | Some s =>
        if rangeCount s =? 0 then sret tt
        else
          match getRangeAt0 s with
          | None => sret tt
          | Some range =>
              container <~ lift (gets (fun a => commonAncestorContainer (page a) range)) ;~
              host <~ lift (gets (fun a => rt_el (directive a))) ;~
              inside <~ lift (gets (fun a => contains (page a) host container)) ;~
              if negb inside then sret tt
              else if isCollapsed s then ToolbarPlacement.hide
              else
                selectionRect <~ lift (gets (fun a => range_rect ly (page a) range)) ;~
                containerRect <~ lift (gets (fun a => element_rect ly (page a) host)) ;~
                lift ToolbarService.saveSelection ;~
                if (0 <? rect_width selectionRect)%float
                then ToolbarPlacement.show br ly selectionRect containerRect
                else sret tt
          end
    end.
End WithBrowser.
End RichTextHandlers.

(** ** [cleanupEmptyLines] of [TextEditorComponent] (text-editor.component.ts)

    A string is the sequence of its code units, each below 256. *)

(** White space, as [String.prototype.trim] and the class [\s] of a
    regular expression take it, among the code units below 256: TAB, LF,
    VT, FF, CR, SPACE and NBSP. *)
Definition is_whitespace (c : Ascii.ascii) : bool :=
  let n := Ascii.nat_of_ascii c in
  (n =? 9) || (n =? 10) || (n =? 11) || (n =? 12) || (n =? 13) || (n =? 32) || (n =? 160).

Fixpoint trimStart (s : string) : string :=
  match s with
  | EmptyString => EmptyString
  | String c r => if is_whitespace c then trimStart r else s
  end.

Fixpoint trimEnd (s : string) : string :=
  match s with
  | EmptyString => EmptyString
  | String c r =>
      match trimEnd r with
      | EmptyString => if is_whitespace c then EmptyString else String c EmptyString
      | t => String c t
      end
  end.

(** [s.trim()] *)
Definition trim (s : string) : string := trimEnd (trimStart s).

(** The code unit [c] is the one of the string [s]. *)
Definition is_char (s : string) (c : Ascii.ascii) : bool :=
  String.eqb (String c EmptyString) s.

(** What is left of [s] after a match of [/<br\s*\/?>/i] at its start:
    [<], [b] and [r] in either case, white space, at most one [/], and
    [>]. *)
Definition match_br (s : string) : option string :=
  match s with
  | String lt (String b (String r rest)) =>
      if is_char "<" lt && (is_char "b" b || is_char "B" b)
         && (is_char "r" r || is_char "R" r)
      then
        let rest1 := trimStart rest in
        let rest2 := match rest1 with
                     | String c t => if is_char "/" c then t else rest1
                     | EmptyString => rest1
                     end in
        match rest2 with
        | String c t => if is_char ">" c then Some t else None
        | EmptyString => None
        end
      else None
  | _ => None
  end.

(** The matches are taken from left to right; [fuel] bounds the number
    of steps, and the length of [s] is enough of it. *)
Fixpoint remove_br_from (fuel : nat) (s : string) : string :=
  match fuel with
  | 0 => s
  | S fuel' =>
      match s with
      | EmptyString => EmptyString
      | String c rest =>
          match match_br s with
          | Some after => remove_br_from fuel' after
          | None => String c (remove_br_from fuel' rest)
          end
      end
  end.

(** [s.replace(/<br\s*\/?>/gi, '')] *)
Definition remove_br (s : string) : string := remove_br_from (String.length s) s.

(** What the selector [p, div] matches. *)
Definition is_block (n : node) : bool :=
  match n with
  | Text _ _ => false
  | Elem _ e _ => String.eqb (tagName e) "P" || String.eqb (tagName e) "DIV"
  end.

(** [root.querySelectorAll('p, div')] on the node [root]. *)
Definition select_blocks (root : node) : list nid :=
  map node_id (List.filter is_block (flat_map subtree (childNodes root))).

Module EmptyLines.
Section WithBrowser.
Context (br : Browser).

(** [el.textContent || ''] *)
Definition get_textContent (el : nid) : M string :=
  gets (fun a => match get_node (page a) el with
                 | Some n => textContent n
                 | None => ""
                 end).

Definition querySelectorAll_blocks (root : nid) : M (list nid) :=
  gets (fun a => match get_node (page a) root with
                 | Some n => select_blocks n
                 | None => []
                 end).

(** The body of [blocks.forEach]. *)
Definition removeIfEmpty (block : nid) : M unit :=
  text <- get_textContent block ;;
  inner <- get_innerHTML br block ;;
  when (String.eqb (trim text) "" && String.eqb (remove_br (trim inner)) "")
       (el_remove block).

(** The local [cleanHtml] is read from [div.innerHTML] and rewritten,
    and never used: the function returns [div.innerHTML.trim()]. *)
Definition cleanupEmptyLines (html : string) : M string :=
  div <- document_createElement "DIV" ;;
  set_innerHTML br div html ;;
  blocks <- querySelectorAll_blocks div ;;
  forEach blocks removeIfEmpty ;;
  out <- get_innerHTML br div ;;
  ret (trim out).
End WithBrowser.
End EmptyLines.

(** ** Vocabulary of the statements *)

(** The size that [getCurrentFontSize] reads off a format state. *)
Definition stored_size (st : gmap string jsval) : float :=
  match st !! "fontSize" with
  | Some (VNum size) => size
  | _ => 12%float
  end.

(** An editable surface: an element with [contenteditable="true"]. *)
Definition is_surface (n : node) : bool :=
  match n with
  | Elem _ e _ => bool_decide (getAttribute "contenteditable" e = Some "true")
  | Text _ _ => false
  end.

(** A region closed to editing: an element with [contenteditable="false"],
    or the root of the floating toolbar. *)
Definition is_closed (n : node) : bool :=
  match n with
  | Elem _ e _ =>
      bool_decide (getAttribute "contenteditable" e = Some "false")
      || existsb (String.eqb "floating-toolbar") (classList e)
  | Text _ _ => false
  end.

(** The two forms under which the marker is looked for. *)
Definition is_font_marker (e : edata) : bool := matches fontTagsSelector e.
Definition is_span_marker (e : edata) : bool := matches spanTagsSelector e.
Definition is_marker (e : edata) : bool := is_font_marker e || is_span_marker e.

Definition node_is_marker (n : node) : bool :=
  match n with Text _ _ => false | Elem _ e _ => is_marker e end.

(** The marked elements among the proper descendants of the node [root]. *)
Definition markers_under (p : Page) (root : nid) : list nid :=
  map node_id (List.filter node_is_marker (flat_map subtree (node_kids p root))).

Definition is_isUpdating (ev : event) : bool :=
  match ev with EvIsUpdating _ => true | _ => false end.

Definition is_native_call (ev : event) : bool :=
  match ev with
  | EvExecCommand _ _ | EvQueryCommandState _ | EvFocus _ => true
  | _ => false
  end.

Definition format_keys : list string :=
  ["bold"; "italic"; "underline"; "justifyLeft"; "justifyCenter"; "justifyRight"].

(** Whatever its outcome, the statement [m] leaves the state related by
    [R] to the one it started from. *)
Definition respects {A} (R : App -> App -> Prop) (m : M A) : Prop :=
  forall a, R a (snd (m a)).

(** The [isUpdating] flag is left alone: its value is the same and nothing
    was pushed on it. *)
Definition flag_steady (a a' : App) : Prop :=
  ts_isUpdating (service a') = ts_isUpdating (service a) /\
  exists evs, trace a' = trace a ++ evs /\
              forallb (fun ev => negb (is_isUpdating ev)) evs = true.

(** The service's format state is left alone. *)
Definition states_steady (a a' : App) : Prop :=
  ts_activeStates (service a') = ts_activeStates (service a).

(** The editor component keeps its view child. *)
Definition ref_steady (a a' : App) : Prop :=
  te_editorRef (editor a') = te_editorRef (editor a).

(** The page is left alone. *)
Definition page_steady (a a' : App) : Prop := page a' = page a.

(** The state after a formatting query answered [b] and the answer was
    stored under [key]. *)
Definition probed (key : string) (b : bool) (a : App) : App :=
  mk_App (page a) (service a)
    (mk_TextEditorComponent (te_content (editor a)) (te_isDisabled (editor a))
       (te_savedRange (editor a)) (<[key := VBool b]> (te_toolbarState (editor a)))
       (te_editorRef (editor a)))
    (directive a) (trace a ++ [EvQueryCommandState key]).

(** A page is well formed when no two nodes of its trees share an identity
    and every identity in use is below the next fresh one. *)
Definition wf_page (p : Page) : Prop :=
  NoDup (forest_ids (trees p)) /\ Forall (fun i => i < next_id p) (forest_ids (trees p)).

(** The forest without the node [i]. *)
Definition take_forest (i : nid) (f : list node) : list node :=
  map (splice i []) (List.filter (fun t => negb (has_id i t)) f).

(** A place inside a place, and a place with more siblings around. *)
Fixpoint ctx_app (c inner : ctx) : ctx :=
  match c with
  | Top i e l r => Below i e l inner r
  | Below i e l c' r => Below i e l (ctx_app c' inner) r
  end.

Fixpoint ctx_sib (c : ctx) (before after : list node) : ctx :=
  match c with
  | Top i e l r => Top i e (l ++ before) (after ++ r)
  | Below i e l c' r => Below i e l (ctx_sib c' before after) r
  end.

(** The node with the data of its root changed. *)
Definition alter_root (g : edata -> edata) (n : node) : node :=
  match n with
  | Text _ _ => n
  | Elem i e ks => Elem i (g e) ks
  end.

(** *** Vocabulary of the rewrite *)

(** The data of the wrapper made by [document.createElement('span')]
    once its [style.fontSize] is set. *)
Definition new_span (size : float) : edata :=
  setStyle "font-size" (Px size) (mk_edata "SPAN" ∅ [] []).


(** Everything but the page is as it was. *)
Definition only_page (a a' : App) : Prop :=
  service a' = service a /\ editor a' = editor a /\
  directive a' = directive a /\ trace a' = trace a.

(** The page is changed in its trees only, without new nodes. *)
Definition same_frame (p p' : Page) : Prop :=
  next_id p' = next_id p /\ selection p' = selection p /\ body p' = body p.

(** What [cleanDescendant] does to the data of an element. *)
Definition clean_edata (e : edata) : edata :=
  let e1 := setStyle "font-size" (Raw "") e in
  if String.eqb (tagName e1) "FONT"
  then removeAttribute "face" (removeAttribute "size" e1)
  else e1.

(** A node with all its elements cleaned. *)
Fixpoint clean_tree (n : node) : node :=
  match n with
  | Text _ _ => n
  | Elem i e ks => Elem i (clean_edata e) (map clean_tree ks)
  end.

(** The elements of a fragment, in tree order: what
    [querySelectorAll('*')] finds in it. *)
Definition elem_ids (ks : list node) : list nid :=
  map node_id (List.filter (node_matches Universal) (flat_map subtree ks)).

(** The state reached by cleaning the fragment [ks] in a place. *)
Definition cleans (ks : list node) : Prop :=
  forall c done after a f1 f2,
    NoDup (forest_ids (trees (page a))) ->
    trees (page a) = f1 ++ plugs c (done ++ ks ++ after) :: f2 ->
    exists a', forEach (elem_ids ks) cleanDescendant a = (Ok tt, a') /\
               only_page a a' /\ same_frame (page a) (page a') /\
               trees (page a') = f1 ++ plugs c (done ++ map clean_tree ks ++ after) :: f2.

(** The element right above a place: its identity, its data, and the
    siblings on the left and on the right of the place. *)
Fixpoint top_id (c : ctx) : nid :=
  match c with Top i _ _ _ => i | Below _ _ _ c' _ => top_id c' end.

Fixpoint top_data (c : ctx) : edata :=
  match c with Top _ e _ _ => e | Below _ _ _ c' _ => top_data c' end.

Fixpoint top_left (c : ctx) : list node :=
  match c with Top _ _ l _ => l | Below _ _ _ c' _ => top_left c' end.

Fixpoint top_right (c : ctx) : list node :=
  match c with Top _ _ _ r => r | Below _ _ _ c' _ => top_right c' end.

(** The place with the data of the element right above it changed. *)
Fixpoint alter_top (g : edata -> edata) (c : ctx) : ctx :=
  match c with
  | Top i e l r => Top i (g e) l r
  | Below i e l c' r => Below i e l (alter_top g c') r
  end.


(** *** Vocabulary of the loop over [toReplace] *)

(** The data of the elements of a fragment, in tree order. *)
Definition elem_datas (f : list node) : list edata :=
  flat_map (fun n => match n with Elem _ e _ => [e] | Text _ _ => [] end) (forest_nodes f).


(** The flag that reaches a place. *)
Fixpoint hole_flag (step : bool -> nid -> bool) (flag : bool) (c : ctx) : bool :=
  match c with
  | Top i _ _ _ => step flag i
  | Below i _ _ c' _ => hole_flag step (step flag i) c'
  end.








(** The trees of the page are as they were. *)
Definition trees_steady (a a' : App) : Prop := trees (page a') = trees (page a).


(** The state after the formatting query [key] was put to the browser. *)
Definition asked (key : string) (a : App) : App :=
  mk_App (page a) (service a) (editor a) (directive a) (trace a ++ [EvQueryCommandState key]).

(** The statement [m], when it raises, leaves the state related by [R]
    to the one it started from. *)
Definition raises_within {A} (R : App -> App -> Prop) (m : M A) : Prop :=
  forall a e a', m a = (Throw e, a') -> R a a'.

(** Nothing is added to what the observer saw. *)
Definition trace_steady (a a' : App) : Prop := trace a' = trace a.

(** The editor component keeps its content, its disabled flag and its
    view child. *)
Definition editor_kept (a a' : App) : Prop :=
  te_content (editor a') = te_content (editor a) /\
  te_isDisabled (editor a') = te_isDisabled (editor a) /\
  te_editorRef (editor a') = te_editorRef (editor a).

(** Nothing was seen by the observer and the editor component is kept. *)
Definition quiet_kept (a a' : App) : Prop := trace_steady a a' /\ editor_kept a a'.

(** The data of an element once its [contentEditable] is set to [v]. *)
Definition with_contenteditable (v : string) (e : edata) : edata :=
  mk_edata (tagName e) (<["contenteditable" := v]> (attrs e)) (classList e) (style e).

(** The text of a fragment. *)
Definition forest_text (ks : list node) : string :=
  fold_right (fun k acc => textContent k ++ acc)%string "" ks.


(** The blocks of a fragment, in tree order. *)
Definition block_ids (ks : list node) : list nid :=
  map node_id (List.filter is_block (flat_map subtree ks)).

(** The test of [cleanupEmptyLines] on the content of a block: its text
    is white space and its markup is made of line breaks. *)
Definition empty_content (br : Browser) (ks : list node) : bool :=
  String.eqb (trim (forest_text ks)) "" &&
  String.eqb (remove_br (trim (native_serialize br ks))) "".

(** A node without its empty blocks: a block whose content passes the
    test goes with all it holds; any other node stays, its children
    pruned in turn. *)
Fixpoint prune (br : Browser) (n : node) : list node :=
  match n with
  | Text _ _ => [n]
  | Elem i e ks =>
      if is_block n && empty_content br ks then []
      else [Elem i e (flat_map (prune br) ks)]
  end.

(** The code units of a string that are not white space. *)
Fixpoint visible (s : string) : string :=
  match s with
  | EmptyString => EmptyString
  | String c r => if is_whitespace c then visible r else String c (visible r)
  end.

(** The state reached by the loop of [cleanupEmptyLines] over the blocks
    of the fragment [ks] in a place; [junk] is what was removed. *)
Definition prunes (br : Browser) (ks : list node) : Prop :=
  forall c done after a f1 f2,
    NoDup (forest_ids (trees (page a))) ->
    trees (page a) = f1 ++ plugs c (done ++ ks ++ after) :: f2 ->
    exists a' junk,
      forEach (block_ids ks) (EmptyLines.removeIfEmpty br) a = (Ok tt, a') /\
      only_page a a' /\ same_frame (page a) (page a') /\
      trees (page a')
      = f1 ++ plugs c (done ++ flat_map (prune br) ks ++ after) :: f2 ++ junk /\
      forest_ids (trees (page a')) ≡ₚ forest_ids (trees (page a)).

(** The boundary points of an element after its first one: those of each
    child, followed by the point after the child. *)
Fixpoint kid_points (i : nid) (k : nat) (l : list node) : list (nid * nat) :=
  match l with
  | [] => []
  | c :: r => points c ++ (i, S k) :: kid_points i (S k) r
  end.

(** The test by which [point_index] finds a boundary point. *)
Definition at_point (bp q : nid * nat) : bool :=
  (fst q =? fst bp) && (snd q =? snd bp).

(** The place of the point [(i, k)] among the points of the element [i]
    with the children [ks]. *)
Definition point_offset (ks : list node) (k : nat) : nat :=
  k + length (flat_map points (take k ks)).

(** ** Scenarios *)

Module Scenario.
(** A browser whose commands decline to act: the page is left as it is,
    every formatting query answers yes, every computed font size is
    16px. *)
Definition quiet : Browser :=
  mk_Browser (fun _ _ p => (Ok tt, p)) (fun _ _ => Ok true) (fun _ _ => "16px")
    (fun _ p => p) (fun _ => 16%float) (fun _ => "16.0")
    (fun _ => "") (fun _ => []) (fun _ => Ok tt).

(** A browser whose formatting commands raise. *)
Definition failing : Browser :=
  mk_Browser (fun _ _ p => (Throw "NotSupportedError", p)) (fun _ _ => Ok true)
    (fun _ _ => "16px") (fun _ p => p) (fun _ => 16%float) (fun _ => "16.0")
    (fun _ => "") (fun _ => []) (fun _ => Ok tt).

Definition plain (tag : string) : edata := mk_edata tag ∅ [] [].
Definition marked_span : edata :=
  mk_edata "SPAN" ∅ [] [("font-family", Raw markerFont)].
Definition marked_font : edata :=
  mk_edata "FONT" (<["face" := markerFont]> ∅) [] [].
Definition surface (editable : string) : edata :=
  mk_edata "DIV" (<["contenteditable" := editable]> ∅) [] [].
Definition sized_span (size : float) : edata :=
  mk_edata "SPAN" ∅ [] [("font-size", Px size)].

Definition in_body (content : list node) (editable : string) : node :=
  Elem 0 (plain "HTML") [Elem 1 (plain "BODY") [Elem 2 (surface editable) content]].

Definition app_of (doc : node) (next : nid) (sel : Selection) (states : gmap string jsval)
                  (saved : option Range) (disabled : bool) : App :=
  mk_App (mk_Page doc 1 [] next sel)
         (mk_ToolbarService false states saved)
         (mk_TextEditorComponent "" disabled saved states (Some 2))
         (mk_RichTextDirective disabled 2) [].

(** [<div contenteditable>hello</div>], nothing selected. *)
Definition hello : App :=
  app_of (in_body [Text 3 "hello"] "true") 4 no_selection initial_states None false.

(** The same with the stored size replaced. *)
Definition hello_sized (v : jsval) : App :=
  app_of (in_body [Text 3 "hello"] "true") 4 no_selection
         (<["fontSize" := v]> initial_states) None false.


(** A marked span followed by a marked font element. *)
Definition mixed : App :=
  app_of (in_body [Elem 3 marked_span [Text 4 "a"]; Elem 5 marked_font [Text 6 "b"]] "true")
         7 no_selection initial_states None false.

(** A disabled surface with the word [hello] selected and saved. *)
Definition hello_range : Range := mk_Range 3 0 3 5.
Definition disabled : App :=
  app_of (in_body [Text 3 "hello"] "false") 4 (mk_Selection (Some hello_range) false)
         initial_states (Some hello_range) true.

(** An enabled surface with the word [hello] selected and saved. *)
Definition selected : App :=
  app_of (in_body [Text 3 "hello"] "true") 4 (mk_Selection (Some hello_range) false)
         initial_states (Some hello_range) false.

(** The selection sits in an input of the floating toolbar, next to the
    surface; the word [hello] was saved before. *)
Definition in_toolbar : App :=
  mk_App (mk_Page
            (Elem 0 (plain "HTML") [Elem 1 (plain "BODY")
               [Elem 2 (surface "true") [Text 3 "hello"];
                Elem 4 (mk_edata "DIV" ∅ ["floating-toolbar"] [])
                  [Elem 5 (plain "INPUT") []]]])
            1 [] 6 (mk_Selection (Some (mk_Range 5 0 5 0)) false))
         (mk_ToolbarService false initial_states (Some hello_range))
         (mk_TextEditorComponent "" false (Some hello_range) initial_states (Some 2))
         (mk_RichTextDirective false 2) [].

(** A browser that raises on the query for italics and answers yes to
    the others. *)
Definition italic_fails : Browser :=
  mk_Browser (fun _ _ p => (Ok tt, p))
    (fun name _ => if String.eqb name "italic" then Throw "InvalidStateError" else Ok true)
    (fun _ _ => "16px") (fun _ p => p) (fun _ => 16%float) (fun _ => "16.0")
    (fun _ => "") (fun _ => []) (fun _ => Ok tt).

(** The caret in the middle of the word [hello]. *)
Definition caret : App :=
  app_of (in_body [Text 3 "hello"] "true") 4 (mk_Selection (Some (mk_Range 3 2 3 2)) false)
         initial_states (Some hello_range) false.

(** The word [hello] selected while the service is updating. *)
Definition busy : App :=
  mk_App (page selected) (mk_ToolbarService true initial_states (Some hello_range))
         (editor selected) (directive selected) [].

(** A layout without scrolling: every range is 30 wide, the host element
    sits at (100, 50). *)
Definition still : Layout :=
  mk_Layout 0 0 (fun _ _ => mk_DOMRect 10 20 30) (fun _ _ => mk_DOMRect 100 50 400).

Definition on_stage (a : App) : Stage := mk_Stage a false (mk_ToolbarPosition 0 0).

(** The markup of a fragment of paragraphs, line breaks and blocks. *)
Fixpoint markup (n : node) : string :=
  match n with
  | Text _ s => s
  | Elem _ e ks =>
      let inner := fold_right (fun k acc => markup k ++ acc)%string "" ks in
      if String.eqb (tagName e) "BR" then "<br>"
      else if String.eqb (tagName e) "P" then ("<p>" ++ inner ++ "</p>")%string
      else ("<div>" ++ inner ++ "</div>")%string
  end.

(** What was typed: an empty line, a block around a line of spaces, and
    a line with a word. *)
Definition typed : list node :=
  [Elem 0 (plain "P") [Elem 0 (plain "BR") []];
   Elem 0 (plain "DIV") [Elem 0 (plain "P") [Text 0 "  "]];
   Elem 0 (plain "P") [Text 0 "hello"]].

(** A browser that reads [typed] from any markup and writes markup with
    [markup]. *)
Definition typing : Browser :=
  mk_Browser (fun _ _ p => (Ok tt, p)) (fun _ _ => Ok false)
    (fun _ _ => "16px") (fun _ p => p) (fun _ => 16%float) (fun _ => "16.0")
    (fun ks => fold_right (fun k acc => markup k ++ acc)%string "" ks)
    (fun _ => typed) (fun _ => Ok tt).


(** Two wrappers side by side, as the rewrite leaves them. *)
Definition two_wrappers : App :=
  app_of (in_body [Elem 3 (sized_span 18) [Text 4 "a"]; Elem 5 (sized_span 18) [Text 6 "b"]]
                  "true")
         7 no_selection initial_states None false.
End Scenario.

(** * Properties *)

(** ** Running statements *)

Lemma bind_run {A B} (m : M A) (k : A -> M B) a :
  bind m k a = match m a with
               | (Ok x, a') => k x a'
               | (Throw e, a') => (Throw e, a')
               end.
Proof. reflexivity. Qed.

Lemma bind_Ok_inv {A B} (m : M A) (k : A -> M B) a y a2 :
  bind m k a = (Ok y, a2) ->
  exists x a1, m a = (Ok x, a1) /\ k x a1 = (Ok y, a2).
Proof.
  unfold bind. destruct (m a) as [[x|e] a1]; intros H.
  - eauto.
  - discriminate.
Qed.

(** ** The steppers and the manual entry *)

(** C8. [changeFontSize(delta)] reads the stored size (12 when the stored
    value is not a number), adds [delta] and calls [setFontSize] with the
    sum exactly when the sum is at least 1, doing nothing otherwise;
    [setManualFontSize(v)] calls [setFontSize(parseFloat(v))] exactly when
    [v] parses to a number at least 1.  From 12, [+1] requests 13; from 1,
    [-1] is a no-op.  Both implementations. *)
Theorem font_size_requests (br : Browser) (cleanup : string -> string) :
  (forall delta a,
     FloatingToolbarComponent.changeFontSize br delta a =
       let newSize := (stored_size (ts_activeStates (service a)) + delta)%float in
       if ge1 newSize then ToolbarService.setFontSize br newSize a else (Ok tt, a)) /\
  (forall delta a,
     TextEditorComponent.changeFontSize br cleanup delta a =
       let newSize := (stored_size (te_toolbarState (editor a)) + delta)%float in
       if ge1 newSize then TextEditorComponent.setFontSize br cleanup newSize a
       else (Ok tt, a)) /\
  (forall v a,
     FloatingToolbarComponent.setManualFontSize br v a =
       let newSize := native_parseFloat br v in
       if negb (isNaN newSize) && ge1 newSize
       then ToolbarService.setFontSize br newSize a else (Ok tt, a)) /\
  (forall v a,
     TextEditorComponent.setManualFontSize br cleanup v a =
       let newSize := native_parseFloat br v in
       if negb (isNaN newSize) && ge1 newSize
       then TextEditorComponent.setFontSize br cleanup newSize a else (Ok tt, a)) /\
  (forall a, ts_activeStates (service a) !! "fontSize" = Some (VNum 12%float) ->
     FloatingToolbarComponent.changeFontSize br 1%float a
     = ToolbarService.setFontSize br 13%float a) /\
  (forall a, te_toolbarState (editor a) !! "fontSize" = Some (VNum 12%float) ->
     TextEditorComponent.changeFontSize br cleanup 1%float a
     = TextEditorComponent.setFontSize br cleanup 13%float a) /\
  (forall a, ts_activeStates (service a) !! "fontSize" = Some (VNum 1%float) ->
     FloatingToolbarComponent.changeFontSize br (-1)%float a = (Ok tt, a)) /\
  (forall a, te_toolbarState (editor a) !! "fontSize" = Some (VNum 1%float) ->
     TextEditorComponent.changeFontSize br cleanup (-1)%float a = (Ok tt, a)) /\
  (forall a s, ts_activeStates (service a) !! "fontSize" = Some (VStr s) ->
     FloatingToolbarComponent.changeFontSize br 1%float a
     = ToolbarService.setFontSize br 13%float a) /\
  (forall a s, te_toolbarState (editor a) !! "fontSize" = Some (VStr s) ->
     TextEditorComponent.changeFontSize br cleanup 1%float a
     = TextEditorComponent.setFontSize br cleanup 13%float a).
Proof.
  assert (Hfl : forall delta a,
     FloatingToolbarComponent.changeFontSize br delta a =
       let newSize := (stored_size (ts_activeStates (service a)) + delta)%float in
       if ge1 newSize then ToolbarService.setFontSize br newSize a else (Ok tt, a)).
  { intros delta a. unfold FloatingToolbarComponent.changeFontSize,
      FloatingToolbarComponent.getCurrentFontSize, stored_size, when.
    rewrite bind_run. unfold gets. cbv zeta.
    destruct (ge1 _); reflexivity. }
  assert (Hed : forall delta a,
     TextEditorComponent.changeFontSize br cleanup delta a =
       let newSize := (stored_size (te_toolbarState (editor a)) + delta)%float in
       if ge1 newSize then TextEditorComponent.setFontSize br cleanup newSize a
       else (Ok tt, a)).
  { intros delta a. unfold TextEditorComponent.changeFontSize,
      TextEditorComponent.getCurrentFontSize, stored_size, when.
    rewrite bind_run. unfold gets. cbv zeta.
    destruct (ge1 _); reflexivity. }
  repeat split.
  - exact Hfl.
  - exact Hed.
  - intros v a. unfold FloatingToolbarComponent.setManualFontSize, when. cbv zeta.
    destruct (negb _ && _); reflexivity.
  - intros v a. unfold TextEditorComponent.setManualFontSize, when. cbv zeta.
    destruct (negb _ && _); reflexivity.
  - intros a H. rewrite Hfl. unfold stored_size. rewrite H. reflexivity.
  - intros a H. rewrite Hed. unfold stored_size. rewrite H. reflexivity.
  - intros a H. rewrite Hfl. unfold stored_size. rewrite H. reflexivity.
  - intros a H. rewrite Hed. unfold stored_size. rewrite H. reflexivity.
  - intros a s H. rewrite Hfl. unfold stored_size. rewrite H. reflexivity.
  - intros a s H. rewrite Hed. unfold stored_size. rewrite H. reflexivity.
Qed.

(** From a stored size of 1 the minus stepper leaves the application as it
    is, on the page of [Scenario.hello_sized]. *)
Lemma font_size_requests_witness :
  FloatingToolbarComponent.changeFontSize Scenario.quiet (-1)%float
    (Scenario.hello_sized (VNum 1%float))
  = (Ok tt, Scenario.hello_sized (VNum 1%float)).
Proof.
  apply (font_size_requests Scenario.quiet (fun s => s)).
  vm_compute. reflexivity.
Defined.

(** ** [writeValue] *)

(** C10. [writeValue(v)] of the embedded component stores the empty string
    when [v] is null, undefined or empty and stores [v] otherwise; the
    surface's markup is rewritten only when it differs from the stored
    value, so writing what the surface already holds leaves the page as it
    is.  Nothing else changes and no exception is raised. *)
Theorem writeValue_stores_and_rewrites_on_difference
    (br : Browser) (value : option string) (a : App) :
  exists a',
    TextEditorComponent.writeValue br value a = (Ok tt, a') /\
    te_content (editor a') = match value with Some s => s | None => "" end /\
    (value = None \/ value = Some "" -> te_content (editor a') = "") /\
    page a' =
      match te_editorRef (editor a) with
      | Some el =>
          if String.eqb (native_serialize br (node_kids (page a) el)) (te_content (editor a'))
          then page a
          else set_children_copy el (native_parse br (te_content (editor a'))) (page a)
      | None => page a
      end /\
    (forall el html, te_editorRef (editor a) = Some el ->
       native_serialize br (node_kids (page a) el) = html ->
       value = Some html -> page a' = page a) /\
    service a' = service a /\ trace a' = trace a /\ directive a' = directive a /\
    te_isDisabled (editor a') = te_isDisabled (editor a) /\
    te_savedRange (editor a') = te_savedRange (editor a) /\
    te_toolbarState (editor a') = te_toolbarState (editor a) /\
    te_editorRef (editor a') = te_editorRef (editor a).
Proof.
  unfold TextEditorComponent.writeValue, TextEditorComponent.set_content,
    TextEditorComponent.or_empty, get_innerHTML, set_innerHTML, on_page, when.
  cbv [bind modify gets ret]. cbn [editor set_editor te_editorRef page te_content].
  destruct (te_editorRef (editor a)) as [el|] eqn:Href.
  - cbv beta. cbn [editor set_editor te_editorRef page te_content].
    destruct (String.eqb (native_serialize br (node_kids (page a) el))
                (match value with Some s => s | None => "" end)) eqn:Heq;
      cbn [negb]; (eexists; split; [reflexivity|]); cbn; rewrite ?Heq;
      repeat split; try reflexivity; try (intros [->| ->]; reflexivity).
    intros el' html Hel Hser ->. injection Hel as <-.
    rewrite Hser, String.eqb_refl in Heq. discriminate.
  - eexists. split; [reflexivity|]. cbn.
    repeat split; try reflexivity; try (intros [->| ->]; reflexivity).
Qed.

(** On [Scenario.hello], whose serialised content the quiet browser gives
    as the empty string, writing a null value leaves the page as it is. *)
Lemma writeValue_stores_and_rewrites_on_difference_witness :
  exists a',
    TextEditorComponent.writeValue Scenario.quiet None Scenario.hello = (Ok tt, a') /\
    te_content (editor a') = "" /\ page a' = page Scenario.hello.
Proof.
  destruct (writeValue_stores_and_rewrites_on_difference Scenario.quiet None Scenario.hello)
    as (a' & Hrun & Hc & _ & Hp & _).
  exists a'. split; [exact Hrun|]. split; [exact Hc|].
  rewrite Hp, Hc. reflexivity.
Defined.

(** ** The disabled guard *)

(** C6, as the code has it.  The component's [execCommand] on a disabled
    surface is a no-op: no native primitive is called and the content, the
    saved range, the format state and the page are what they were. *)
Theorem execCommand_disabled_is_noop
    (br : Browser) (cleanup : string -> string) (command value : string) (a : App) :
  te_isDisabled (editor a) = true ->
  TextEditorComponent.execCommand br cleanup command value a = (Ok tt, a).
Proof.
  intros H. unfold TextEditorComponent.execCommand.
  rewrite bind_run. unfold gets. rewrite H. reflexivity.
Qed.

Lemma execCommand_disabled_is_noop_witness :
  TextEditorComponent.execCommand Scenario.quiet (fun s => s) "bold" "" Scenario.disabled
  = (Ok tt, Scenario.disabled).
Proof.
  apply execCommand_disabled_is_noop. reflexivity.
Defined.

(** C6 as stated fails for the service: [executeCommand] has no disabled
    guard.  On a disabled surface it still switches the style mode and
    calls the named primitive. *)
Lemma executeCommand_ignores_disabled :
  rt_isDisabled (directive Scenario.disabled) = true /\
  te_isDisabled (editor Scenario.disabled) = true /\
  getAttribute "contenteditable" (node_data (page Scenario.disabled) 2) = Some "false" /\
  List.filter is_native_call
    (trace (snd (ToolbarService.executeCommand Scenario.quiet "bold" "" Scenario.disabled)))
  = [EvExecCommand "styleWithCSS" "true"; EvExecCommand "bold" ""] /\
  ToolbarService.executeCommand Scenario.quiet "bold" "" Scenario.disabled
  <> (Ok tt, Scenario.disabled).
Proof.
  split; [reflexivity|]. split; [reflexivity|]. split; [vm_compute; reflexivity|].
  assert (Htr : List.filter is_native_call
    (trace (snd (ToolbarService.executeCommand Scenario.quiet "bold" "" Scenario.disabled)))
    = [EvExecCommand "styleWithCSS" "true"; EvExecCommand "bold" ""])
    by (vm_compute; reflexivity).
  split; [exact Htr|].
  intros Heq. rewrite Heq in Htr. discriminate Htr.
Qed.

(** ** The selection tracker *)

Lemma walk_stops_before_surface (pre rest : list node) :
  Forall (fun n => is_surface n = false) pre ->
  (rest = [] \/ exists x post, rest = x :: post /\ is_surface x = false /\ is_closed x = true) ->
  ToolbarService.isContentEditable_walk (pre ++ rest) = false.
Proof.
  intros Hpre Hrest. induction Hpre as [|n pre Hn _ IH]; cbn [app].
  - destruct Hrest as [->|(x & post & -> & Hs & Hc)]; [reflexivity|].
    destruct x as [|i e ks]; [discriminate|].
    cbn [is_surface is_closed] in Hs, Hc. cbn [ToolbarService.isContentEditable_walk].
    rewrite Hs.
    destruct (bool_decide (getAttribute "contenteditable" e = Some "false")); [reflexivity|].
    cbn [orb] in Hc. rewrite Hc. reflexivity.
  - destruct n as [|i e ks]; cbn [ToolbarService.isContentEditable_walk]; [exact IH|].
    cbn [is_surface] in Hn. rewrite Hn.
    destruct (bool_decide (getAttribute "contenteditable" e = Some "false")); [reflexivity|].
    destruct (existsb _ _); [reflexivity|exact IH].
Qed.

Lemma service_saveSelection_skips (a : App) :
  (forall r c, sel_range (selection (page a)) = Some r ->
     commonAncestorContainer (page a) r = Some c ->
     ToolbarService.isContentEditable_walk (inclusive_ancestors (page a) c) = false) ->
  ToolbarService.saveSelection a = (Ok tt, a).
Proof.
  intros H. unfold ToolbarService.saveSelection, getSelection.
  cbv [bind gets]. unfold rangeCount, getRangeAt0.
  destruct (sel_range (selection (page a))) as [r|] eqn:Hr; [|reflexivity].
  cbn [Nat.ltb Nat.leb]. cbv [bind gets ToolbarService.isContentEditable].
  destruct (commonAncestorContainer (page a) r) as [c|] eqn:Hc; [|reflexivity].
  rewrite (H r c eq_refl Hc). reflexivity.
Qed.

(** C5. [save()] with the live selection outside the editable surface
    leaves the application, and so the saved range, as it was: in the
    component when the surface does not contain the anchor, in the service
    when no inclusive ancestor of the range's common ancestor is an
    editable surface.  [restore()] with no saved range is a no-op that
    returns normally and leaves the live selection alone. *)
Theorem selection_tracker_frame :
  (forall a,
     (forall el, te_editorRef (editor a) = Some el ->
                 contains (page a) el (anchorNode (selection (page a))) = false) ->
     snd (TextEditorComponent.saveSelection a) = a) /\
  (forall a,
     (forall r c, sel_range (selection (page a)) = Some r ->
        commonAncestorContainer (page a) r = Some c ->
        Forall (fun n => is_surface n = false) (inclusive_ancestors (page a) c)) ->
     ToolbarService.saveSelection a = (Ok tt, a)) /\
  (forall a, te_savedRange (editor a) = None ->
     TextEditorComponent.restoreSelection a = (Ok tt, a)) /\
  (forall a, ts_savedRange (service a) = None ->
     ToolbarService.restoreSelection a = (Ok tt, a)).
Proof.
  repeat split.
  - intros a H. unfold TextEditorComponent.saveSelection, getSelection.
    cbv [bind gets].
    destruct (0 <? rangeCount (selection (page a))); [|reflexivity].
    cbv [bind gets TextEditorComponent.nativeElement].
    destruct (te_editorRef (editor a)) as [el|] eqn:Hel; [|reflexivity].
    cbv [ret]. rewrite (H el eq_refl). reflexivity.
  - intros a H. apply service_saveSelection_skips. intros r c Hr Hc.
    rewrite <- (app_nil_r (inclusive_ancestors (page a) c)).
    apply walk_stops_before_surface; [eauto|left; reflexivity].
  - intros a H. unfold TextEditorComponent.restoreSelection.
    cbv [bind gets]. rewrite H. reflexivity.
  - intros a H. unfold ToolbarService.restoreSelection.
    cbv [bind gets]. rewrite H. reflexivity.
Qed.

(** With the selection in the toolbar's input, the component's [save()]
    keeps the range saved before. *)
Lemma selection_tracker_frame_witness :
  snd (TextEditorComponent.saveSelection Scenario.in_toolbar) = Scenario.in_toolbar /\
  te_savedRange (editor Scenario.in_toolbar) = Some Scenario.hello_range.
Proof.
  split; [|reflexivity].
  apply selection_tracker_frame. intros el Hel. injection Hel as <-.
  vm_compute. reflexivity.
Defined.

(** C9. The service's [saveSelection] never captures a selection of the
    toolbar or of a non-editable region: when the walk from the range's
    common ancestor through its parents meets an element with
    [contenteditable="false"] or with the class [floating-toolbar] before
    any element with [contenteditable="true"], or meets none up to the
    root, the saved range (and all the rest) is left as it was. *)
Theorem saveSelection_never_captures_closed_regions
    (a : App) (r : Range) (c : nid) (pre rest : list node) :
  sel_range (selection (page a)) = Some r ->
  commonAncestorContainer (page a) r = Some c ->
  inclusive_ancestors (page a) c = pre ++ rest ->
  Forall (fun n => is_surface n = false) pre ->
  (rest = [] \/ exists x post, rest = x :: post /\ is_surface x = false /\ is_closed x = true) ->
  ToolbarService.saveSelection a = (Ok tt, a) /\
  ts_savedRange (service (snd (ToolbarService.saveSelection a))) = ts_savedRange (service a).
Proof.
  intros Hr Hc Hchain Hpre Hrest.
  assert (Hrun : ToolbarService.saveSelection a = (Ok tt, a)).
  { apply service_saveSelection_skips. intros r' c' Hr' Hc'.
    rewrite Hr in Hr'. injection Hr' as <-. rewrite Hc in Hc'. injection Hc' as <-.
    rewrite Hchain. apply walk_stops_before_surface; assumption. }
  split; [exact Hrun|]. rewrite Hrun. reflexivity.
Qed.

(** With the caret in the toolbar's input the walk meets the toolbar's
    root first, and the saved range stays the word [hello]. *)
Lemma saveSelection_never_captures_closed_regions_witness :
  ToolbarService.saveSelection Scenario.in_toolbar = (Ok tt, Scenario.in_toolbar) /\
  ts_savedRange (service (snd (ToolbarService.saveSelection Scenario.in_toolbar)))
  = Some Scenario.hello_range.
Proof.
  apply (saveSelection_never_captures_closed_regions Scenario.in_toolbar
           (mk_Range 5 0 5 0) 5
           [Elem 5 (Scenario.plain "INPUT") []]
           [Elem 4 (mk_edata "DIV" ∅ ["floating-toolbar"] []) [Elem 5 (Scenario.plain "INPUT") []];
            Elem 1 (Scenario.plain "BODY")
              [Elem 2 (Scenario.surface "true") [Text 3 "hello"];
               Elem 4 (mk_edata "DIV" ∅ ["floating-toolbar"] [])
                 [Elem 5 (Scenario.plain "INPUT") []]];
            document (page Scenario.in_toolbar)]).
  - reflexivity.
  - vm_compute. reflexivity.
  - vm_compute. reflexivity.
  - repeat constructor.
  - right. eexists _, _. split; [reflexivity|]. split; vm_compute; reflexivity.
Defined.

(** ** Frames: what a statement leaves related *)

Section Frame.
Context (R : App -> App -> Prop).
Hypothesis R_refl : forall a, R a a.
Hypothesis R_trans : forall a b c, R a b -> R b c -> R a c.
Hypothesis R_page : forall a p, R a (set_page p a).

Lemma respects_ret {A} (x : A) : respects R (ret x).
Proof. intros a. apply R_refl. Qed.

Lemma respects_gets {A} (f : App -> A) : respects R (gets f).
Proof. intros a. apply R_refl. Qed.

Lemma respects_throw {A} (e : string) : respects R (@throw A e).
Proof. intros a. apply R_refl. Qed.

Lemma respects_read {A} (f : App -> outcome A) : respects R (fun a => (f a, a)).
Proof. intros a. apply R_refl. Qed.

Lemma respects_bind {A B} (m : M A) (k : A -> M B) :
  respects R m -> (forall x, respects R (k x)) -> respects R (bind m k).
Proof.
  intros Hm Hk a. unfold bind. specialize (Hm a).
  destruct (m a) as [[x|e] a1]; cbn [snd] in *.
  - eapply R_trans; [exact Hm|apply Hk].
  - exact Hm.
Qed.

Lemma respects_try_finally {A} (body : M A) (fin : M unit) :
  respects R body -> respects R fin -> respects R (try_finally body fin).
Proof.
  intros Hb Hf a. unfold try_finally. specialize (Hb a).
  destruct (body a) as [r a1]. specialize (Hf a1).
  destruct (fin a1) as [[[]|e] a2]; cbn [snd] in *; eapply R_trans; eassumption.
Qed.

Lemma respects_when (b : bool) (m : M unit) : respects R m -> respects R (when b m).
Proof. intros Hm. destruct b; [exact Hm|apply respects_ret]. Qed.

Lemma respects_forEach {A} (l : list A) (f : A -> M unit) :
  (forall x, respects R (f x)) -> respects R (forEach l f).
Proof.
  intros Hf. induction l as [|x l IH]; cbn [forEach].
  - apply respects_ret.
  - apply respects_bind; [apply Hf|intros _; exact IH].
Qed.

Lemma respects_collect {A B} (l : list A) (f : A -> M B) (acc : list B) :
  (forall x, respects R (f x)) -> respects R (collect l f acc).
Proof.
  intros Hf. revert acc. induction l as [|x l IH]; intros acc; cbn [collect].
  - apply respects_ret.
  - apply respects_bind; [apply Hf|intros y; apply IH].
Qed.

Lemma respects_modify (f : App -> App) :
  (forall a, R a (f a)) -> respects R (modify f).
Proof. intros H a. apply H. Qed.

Lemma respects_on_page (f : Page -> Page) : respects R (on_page f).
Proof. intros a. apply R_page. Qed.

Lemma respects_native (f : Page -> outcome unit * Page) :
  respects R (fun a => match f (page a) with (r, p') => (r, set_page p' a) end).
Proof. intros a. destruct (f (page a)) as [r p']. apply R_page. Qed.

Lemma respects_createElement (tag : string) : respects R (document_createElement tag).
Proof.
  intros a. unfold document_createElement.
  destruct (createElement tag (page a)) as [i p']. apply R_page.
Qed.

Lemma respects_unwrapLoop (turns : nat) (parent el : nid) :
  respects R (unwrapLoop turns parent el).
Proof.
  induction turns as [|n IH]; cbn [unwrapLoop].
  - apply respects_ret.
  - apply respects_bind; [apply respects_gets|].
    intros [c|]; [|apply respects_ret].
    apply respects_bind; [apply respects_on_page|intros _; exact IH].
Qed.
End Frame.

(** Statements are opened up to the primitives of the frame lemmas. *)
Create HintDb stmt discriminated.
#[export] Hint Unfold
  getSelection document_execCommand document_queryCommandState getComputedFontSize focus
  sel_removeAllRanges sel_addRange document_createRange setStartBefore setEndAfter
  querySelectorAll parentElement data_of childNodes_length el_firstChild set_style
  el_removeAttribute el_insertBefore el_remove el_replaceWith copy_innerHTML
  get_innerHTML set_innerHTML cleanDescendant isParentFontSpan replaceMarker reselect
  probeFontSize
  ToolbarService.isContentEditable ToolbarService.saveSelection
  ToolbarService.restoreSelection ToolbarService.updateActiveStates
  ToolbarService.searchContainer
  TextEditorComponent.nativeElement TextEditorComponent.saveSelection
  TextEditorComponent.restoreSelection TextEditorComponent.probeState
  TextEditorComponent.updateToolbarState TextEditorComponent.onInput : stmt.

(** [frame prim] proves [respects R m] by walking the statement [m];
    [prim] closes the state updates that are specific to [R]. *)
Ltac frame_walk Hrefl Htrans Hpage prim :=
  repeat first
    [ apply (respects_ret _ Hrefl)
    | apply (respects_gets _ Hrefl)
    | apply (respects_throw _ Hrefl)
    | apply (respects_read _ Hrefl)
    | apply (respects_on_page _ Hpage)
    | apply (respects_native _ Hpage)
    | apply (respects_createElement _ Hpage)
    | apply (respects_unwrapLoop _ Hrefl Htrans Hpage)
    | apply (respects_bind _ Htrans); [|intros ?]
    | apply (respects_try_finally _ Htrans)
    | apply (respects_when _ Hrefl)
    | apply (respects_forEach _ Hrefl Htrans); intros ?
    | apply (respects_collect _ Hrefl Htrans); intros ?
    | solve [prim]
    | match goal with
      | |- respects _ (match ?x with _ => _ end) => destruct x
      end
    | progress autounfold with stmt ].
(** ** The [isUpdating] flag *)

Lemma flag_steady_refl a : flag_steady a a.
Proof. split; [reflexivity|]. exists []. rewrite app_nil_r. split; reflexivity. Qed.

Lemma flag_steady_trans a b c : flag_steady a b -> flag_steady b c -> flag_steady a c.
Proof.
  intros [H1 (e1 & T1 & F1)] [H2 (e2 & T2 & F2)]. split; [congruence|].
  exists (e1 ++ e2). rewrite T2, T1, app_assoc. split; [reflexivity|].
  rewrite forallb_app, F1, F2. reflexivity.
Qed.

Lemma flag_steady_page a p : flag_steady a (set_page p a).
Proof.
  split; [reflexivity|]. exists []. cbn [trace set_page].
  rewrite app_nil_r. split; reflexivity.
Qed.

Ltac flag_prim :=
  first
    [ apply respects_modify; intros ?; split; [reflexivity|];
      first [ exists []; rewrite app_nil_r; split; reflexivity
            | eexists [_]; split; reflexivity ]
    | unfold emit ].

Ltac flag_frame :=
  frame_walk flag_steady_refl flag_steady_trans flag_steady_page flag_prim.

Lemma isUpdating_bracket {A} (body : M A) (a : App) :
  respects flag_steady body ->
  let a' := snd ((ToolbarService.isUpdating_next true ;;
                  try_finally body (ToolbarService.isUpdating_next false)) a) in
  ts_isUpdating (service a') = false /\
  exists mid, trace a' = trace a ++ EvIsUpdating true :: mid ++ [EvIsUpdating false] /\
              forallb (fun ev => negb (is_isUpdating ev)) mid = true.
Proof.
  intros Hbody. cbv zeta.
  unfold ToolbarService.isUpdating_next, emit.
  cbv [bind modify try_finally]. cbn [service set_service page editor directive trace].
  match goal with |- context [body ?s] => set (a0 := s) end.
  specialize (Hbody a0). destruct (body a0) as [r a1]. cbn [snd] in *.
  destruct Hbody as [_ (mid & Htr & Hmid)].
  split; [reflexivity|]. exists mid. cbn [trace]. rewrite Htr.
  subst a0. cbn [trace]. rewrite <- !app_assoc. split; [reflexivity|exact Hmid].
Qed.

(** C4, as the code has it.  Every [executeCommand] and every
    [setFontSize] of the service pushes [true] on [isUpdating] on entry
    and [false] when it ends, with nothing pushed in between, whether the
    steps in between return or raise; the flag is false afterwards. *)
Theorem service_isUpdating_held_then_cleared
    (br : Browser) (command value : string) (size : float) (a : App) :
  (let a' := snd (ToolbarService.executeCommand br command value a) in
   ts_isUpdating (service a') = false /\
   exists mid, trace a' = trace a ++ EvIsUpdating true :: mid ++ [EvIsUpdating false] /\
               forallb (fun ev => negb (is_isUpdating ev)) mid = true) /\
  (let a' := snd (ToolbarService.setFontSize br size a) in
   ts_isUpdating (service a') = false /\
   exists mid, trace a' = trace a ++ EvIsUpdating true :: mid ++ [EvIsUpdating false] /\
               forallb (fun ev => negb (is_isUpdating ev)) mid = true).
Proof.
  split.
  - unfold ToolbarService.executeCommand. apply isUpdating_bracket. flag_frame.
  - unfold ToolbarService.setFontSize. apply isUpdating_bracket. flag_frame.
Qed.

(** On a browser whose commands raise, the exception leaves
    [executeCommand] and the flag is false all the same. *)
Example isUpdating_cleared_after_exception :
  fst (ToolbarService.executeCommand Scenario.failing "bold" "" Scenario.selected)
    = Throw "NotSupportedError" /\
  ts_isUpdating (service (snd (ToolbarService.executeCommand Scenario.failing "bold" ""
                                 Scenario.selected))) = false.
Proof. split; vm_compute; reflexivity. Qed.

(** C4 as stated fails for the embedded component: it has no [isUpdating]
    flag.  Its [setFontSize] and [execCommand] call the native primitives
    and push nothing on the only flag there is. *)
Lemma component_never_holds_isUpdating :
  let a1 := snd (TextEditorComponent.setFontSize Scenario.quiet (fun s => s) 18%float
                   Scenario.selected) in
  let a2 := snd (TextEditorComponent.execCommand Scenario.quiet (fun s => s) "bold" ""
                   Scenario.selected) in
  List.filter is_isUpdating (trace a1) = [] /\
  List.filter is_isUpdating (trace a2) = [] /\
  In (EvExecCommand "fontName" markerFont) (trace a1) /\
  In (EvExecCommand "bold" "") (trace a2).
Proof.
  cbv zeta. split; [vm_compute; reflexivity|]. split; [vm_compute; reflexivity|].
  split; vm_compute; tauto.
Qed.

(** ** The format state after [setFontSize] *)

Lemma bind_Ok_respects {A B} (R : App -> App -> Prop) (m : M A) (k : A -> M B) a y a2 :
  respects R m ->
  bind m k a = (Ok y, a2) ->
  exists x a1, R a a1 /\ k x a1 = (Ok y, a2).
Proof.
  intros HR H. apply bind_Ok_inv in H as (x & a1 & Hm & Hk).
  exists x, a1. split; [|exact Hk]. specialize (HR a). rewrite Hm in HR. exact HR.
Qed.

Lemma try_finally_Ok_inv {A} (body : M A) (fin : M unit) a y a2 :
  try_finally body fin a = (Ok y, a2) ->
  exists a1, body a = (Ok y, a1) /\ fin a1 = (Ok tt, a2).
Proof.
  unfold try_finally. destruct (body a) as [r a1].
  destruct (fin a1) as [[[]|e] a2'] eqn:Hf; intros H; [|discriminate].
  injection H as -> ->. eauto.
Qed.

Lemma states_steady_refl a : states_steady a a.
Proof. reflexivity. Qed.

Lemma states_steady_trans a b c : states_steady a b -> states_steady b c -> states_steady a c.
Proof. unfold states_steady. congruence. Qed.

Lemma states_steady_page a p : states_steady a (set_page p a).
Proof. reflexivity. Qed.

Ltac states_prim :=
  first [ apply respects_modify; intros ?; reflexivity | unfold emit ].

Ltac states_frame :=
  frame_walk states_steady_refl states_steady_trans states_steady_page states_prim.

Lemma ref_steady_refl a : ref_steady a a.
Proof. reflexivity. Qed.

Lemma ref_steady_trans a b c : ref_steady a b -> ref_steady b c -> ref_steady a c.
Proof. unfold ref_steady. congruence. Qed.

Lemma ref_steady_page a p : ref_steady a (set_page p a).
Proof. reflexivity. Qed.

Ltac ref_prim :=
  first [ apply respects_modify; intros ?; reflexivity
        | unfold emit
        | unfold TextEditorComponent.toolbarState_set
        | unfold TextEditorComponent.set_content
        | unfold TextEditorComponent.set_savedRange ].

Ltac ref_frame :=
  frame_walk ref_steady_refl ref_steady_trans ref_steady_page ref_prim.

(** One step of a run that returned: the head statement is skipped, the
    relation it respects is recorded. *)
Ltac skip_head R frame H HR :=
  match type of H with
  | bind _ _ _ = (Ok _, _) =>
      apply (bind_Ok_respects R) in H;
      [ let x := fresh "x" in let a1 := fresh "a" in
        destruct H as (x & a1 & HR & H)
      | solve [frame] ]
  end.

Lemma service_setFontSize_states (br : Browser) (size : float) (a a' : App) :
  ToolbarService.setFontSize br size a = (Ok tt, a') ->
  ts_activeStates (service a') = <["fontSize" := VNum size]> (ts_activeStates (service a)).
Proof.
  unfold ToolbarService.setFontSize. intros H.
  skip_head states_steady states_frame H H0.
  apply try_finally_Ok_inv in H as (a1 & H & Hfin).
  assert (Hend : ts_activeStates (service a') = ts_activeStates (service a1)).
  { revert Hfin. unfold ToolbarService.isUpdating_next, emit. cbv [bind modify].
    intros [= <-]. reflexivity. }
  rewrite Hend. clear Hend Hfin.
  skip_head states_steady states_frame H H1.
  skip_head states_steady states_frame H H2.
  skip_head states_steady states_frame H H3.
  skip_head states_steady states_frame H H4.
  skip_head states_steady states_frame H H5.
  destruct x4 as [root|]; [|discriminate].
  skip_head states_steady states_frame H H6.
  skip_head states_steady states_frame H H7.
  skip_head states_steady states_frame H H8.
  skip_head states_steady states_frame H H9.
  skip_head states_steady states_frame H H10.
  revert H. unfold ToolbarService.activeStates_next. cbv [bind gets modify].
  intros [= <-]. cbn [service set_service ts_activeStates].
  unfold states_steady in *. congruence.
Qed.

Lemma page_steady_refl a : page_steady a a.
Proof. reflexivity. Qed.

Lemma page_steady_trans a b c : page_steady a b -> page_steady b c -> page_steady a c.
Proof. unfold page_steady. congruence. Qed.

Lemma bind_gets {A B} (f : App -> A) (k : A -> M B) a : bind (gets f) k a = k (f a) a.
Proof. reflexivity. Qed.

Lemma probe_step {B} (br : Browser) (key : string) (k : unit -> M B) a y a2 :
  bind (TextEditorComponent.probeState br key) k a = (Ok y, a2) ->
  exists b, native_queryCommandState br key (page a) = Ok b /\
            k tt (probed key b a) = (Ok y, a2).
Proof.
  unfold TextEditorComponent.probeState, TextEditorComponent.toolbarState_set,
    document_queryCommandState, emit, probed.
  cbv [bind modify]. cbn [page].
  destruct (native_queryCommandState br key (page a)) as [b|e]; [eauto|discriminate].
Qed.

Lemma probeFontSize_pure (br : Browser) (span : option nid) a :
  exists z, probeFontSize br span a = (Ok z, a).
Proof.
  unfold probeFontSize. destruct span; [|eexists; reflexivity].
  unfold getComputedFontSize. cbv [bind gets ret]. eexists; reflexivity.
Qed.

(** A run of [updateToolbarState] that returns with the anchor inside the
    surface has stored the answer of every formatting query. *)
Lemma updateToolbarState_probes (br : Browser) (a a' : App) (el : nid) :
  TextEditorComponent.updateToolbarState br a = (Ok tt, a') ->
  te_editorRef (editor a) = Some el ->
  contains (page a) el (anchorNode (selection (page a))) = true ->
  page a' = page a /\
  forall key, In key format_keys ->
    exists b, native_queryCommandState br key (page a) = Ok b /\
              te_toolbarState (editor a') !! key = Some (VBool b).
Proof.
  intros H Href Hin. unfold TextEditorComponent.updateToolbarState in H.
  rewrite bind_gets, Href in H. unfold getSelection in H.
  rewrite bind_gets, bind_gets, Hin in H.
  destruct (anchorNode (selection (page a))) as [an|] eqn:Han; [|discriminate].
  unfold parentElement in H. rewrite bind_gets in H.
  rewrite bind_run in H.
  destruct (probeFontSize_pure br (node_id <$> parentNode (page a) an) a) as (z & Hz).
  rewrite Hz in H.
  apply probe_step in H as (b1 & Q1 & H).
  apply probe_step in H as (b2 & Q2 & H).
  apply probe_step in H as (b3 & Q3 & H).
  apply probe_step in H as (b4 & Q4 & H).
  apply probe_step in H as (b5 & Q5 & H).
  apply probe_step in H as (b6 & Q6 & H).
  unfold TextEditorComponent.toolbarState_set, modify in H.
  injection H as <-. split; [reflexivity|].
  unfold probed in *.
  cbn [editor set_editor te_toolbarState page service directive trace
       te_content te_isDisabled te_savedRange te_editorRef] in *.
  intros key Hkey. unfold format_keys in Hkey. cbn [In] in Hkey.
  destruct Hkey as [<-|[<-|[<-|[<-|[<-|[<-|[]]]]]]]; eexists; (split; [eassumption|]);
    repeat (first [ rewrite lookup_insert_eq; reflexivity
                  | rewrite lookup_insert_ne by discriminate ]).
Qed.

Ltac page_prim :=
  first [ apply respects_modify; intros ?; reflexivity
        | unfold emit
        | unfold TextEditorComponent.toolbarState_set ].

Lemma updateToolbarState_keeps_page (br : Browser) :
  respects page_steady (TextEditorComponent.updateToolbarState br).
Proof. frame_walk page_steady_refl page_steady_trans I page_prim. Qed.

(** All the leading statements of a run that returned are skipped; the
    relation between the first state and the current one is kept. *)
Ltac skip_heads R frame Htrans H Hacc :=
  repeat
    match type of H with
    | bind _ _ _ = (Ok _, _) =>
        let HR := fresh "HR" in
        let Hnew := fresh "Hacc" in
        apply (bind_Ok_respects R) in H;
        [ destruct H as (? & ? & HR & H);
          pose proof (Htrans _ _ _ Hacc HR) as Hnew;
          clear Hacc HR; rename Hnew into Hacc
        | solve [frame] ]
    end.

Lemma component_setFontSize_probes
    (br : Browser) (cleanup : string -> string) (size : float) (a a' : App) (el : nid) :
  TextEditorComponent.setFontSize br cleanup size a = (Ok tt, a') ->
  te_editorRef (editor a) = Some el ->
  contains (page a') el (anchorNode (selection (page a'))) = true ->
  forall key, In key format_keys ->
    exists b, native_queryCommandState br key (page a') = Ok b /\
              te_toolbarState (editor a') !! key = Some (VBool b).
Proof.
  unfold TextEditorComponent.setFontSize. intros H Href Hin.
  assert (Hlast : exists a0, ref_steady a a0 /\
            TextEditorComponent.updateToolbarState br a0 = (Ok tt, a')).
  { pose proof (ref_steady_refl a) as Hacc.
    skip_heads ref_steady ref_frame ref_steady_trans H Hacc.
    unfold TextEditorComponent.onInput in H.
    skip_heads ref_steady ref_frame ref_steady_trans H Hacc.
    eauto. }
  destruct Hlast as (a0 & Hr & Hrun). unfold ref_steady in Hr. rewrite Href in Hr.
  pose proof (updateToolbarState_keeps_page br a0) as Hp. rewrite Hrun in Hp.
  unfold page_steady in Hp. cbn [snd] in Hp. rewrite Hp in *.
  destruct (updateToolbarState_probes br a0 a' el Hrun Hr Hin) as [_ Hk]. exact Hk.
Qed.

(** C3, as the code has it.  When the service's [setFontSize(s)] returns,
    the [fontSize] key is [s] itself, force-set and not rounded, and every
    other key holds what it held before the call: the service does not
    probe them again.  When the component's [setFontSize(s)] returns with
    the selection anchor inside the surface, the six boolean keys hold the
    answers of the formatting queries on the final page. *)
Theorem setFontSize_format_state
    (br : Browser) (cleanup : string -> string) (size : float) :
  (forall a a',
     ToolbarService.setFontSize br size a = (Ok tt, a') ->
     ts_activeStates (service a') !! "fontSize" = Some (VNum size) /\
     forall key, key <> "fontSize" ->
       ts_activeStates (service a') !! key = ts_activeStates (service a) !! key) /\
  (forall a a' el,
     TextEditorComponent.setFontSize br cleanup size a = (Ok tt, a') ->
     te_editorRef (editor a) = Some el ->
     contains (page a') el (anchorNode (selection (page a'))) = true ->
     forall key, In key format_keys ->
       exists b, native_queryCommandState br key (page a') = Ok b /\
                 te_toolbarState (editor a') !! key = Some (VBool b)).
Proof.
  split.
  - intros a a' H. rewrite (service_setFontSize_states br size a a' H). split.
    + apply lookup_insert_eq.
    + intros key Hkey. apply lookup_insert_ne. congruence.
  - intros a a' el. apply component_setFontSize_probes.
Qed.

(** With the word [hello] selected, the service's [setFontSize(18)]
    returns and the stored size is 18. *)
Lemma setFontSize_format_state_witness :
  ToolbarService.setFontSize Scenario.quiet 18%float Scenario.selected
    = (Ok tt, snd (ToolbarService.setFontSize Scenario.quiet 18%float Scenario.selected)) /\
  ts_activeStates
    (service (snd (ToolbarService.setFontSize Scenario.quiet 18%float Scenario.selected)))
    !! "fontSize" = Some (VNum 18%float).
Proof.
  assert (Hrun : ToolbarService.setFontSize Scenario.quiet 18%float Scenario.selected
    = (Ok tt, snd (ToolbarService.setFontSize Scenario.quiet 18%float Scenario.selected)))
    by (vm_compute; reflexivity).
  split; [exact Hrun|].
  apply (proj1 (setFontSize_format_state Scenario.quiet (fun s => s) 18%float)
           Scenario.selected _ Hrun).
Defined.

(** C3 as stated fails in both implementations.  With the word [hello]
    selected and a browser that answers yes to every formatting query and
    computes 16px everywhere: the service's [setFontSize(18)] returns with
    [bold] still false, not probed; the component's [setFontSize(18)]
    returns with [fontSize] 16, probed again by [onInput] after the forced
    value was stored. *)
Lemma setFontSize_state_not_as_claimed :
  let s := ToolbarService.setFontSize Scenario.quiet 18%float Scenario.selected in
  let c := TextEditorComponent.setFontSize Scenario.quiet (fun s => s) 18%float
             Scenario.selected in
  fst s = Ok tt /\
  native_queryCommandState Scenario.quiet "bold" (page (snd s)) = Ok true /\
  ts_activeStates (service (snd s)) !! "bold" = Some (VBool false) /\
  fst c = Ok tt /\
  te_toolbarState (editor (snd c)) !! "fontSize" = Some (VNum 16%float) /\
  te_toolbarState (editor (snd c)) !! "fontSize" <> Some (VNum 18%float).
Proof.
  cbv zeta. repeat split; try (vm_compute; reflexivity).
  vm_compute. discriminate.
Qed.

(** ** Re-selection when both forms of the marker are present *)

(** C7 fails on the code: the wrappers are collected font-form first and
    span-form second, not in tree order.  On [Scenario.mixed], where a
    marked span precedes a marked font element, the work list is the font
    element then the span, the wrappers are collected in that order, and
    the range rebuilt from the "first" to the "last" collapses between the
    two wrappers instead of spanning both.  Both implementations. *)
Lemma mixed_forms_collapse_the_selection :
  let surface := 2 in
  let c := TextEditorComponent.setFontSize Scenario.quiet (fun s => s) 18%float
             Scenario.mixed in
  let s := ToolbarService.setFontSize Scenario.quiet 18%float Scenario.mixed in
  (* the marked elements in tree order, and the work list *)
  markers_under (page Scenario.mixed) surface = [3; 5] /\
  fst ((fontTags <- querySelectorAll surface fontTagsSelector ;;
        spanTags <- querySelectorAll surface spanTagsSelector ;;
        ret (fontTags ++ spanTags)) Scenario.mixed) = Ok [5; 3] /\
  (* the wrappers, as collected *)
  fst (collect [5; 3] (replaceMarker 18%float) [] Scenario.mixed) = Ok [7; 9] /\
  (* the wrappers, as they stand in the surface afterwards *)
  fst c = Ok tt /\
  node_kids (page (snd c)) surface
    = [Elem 9 (Scenario.sized_span 18%float) [Text 10 "a"];
       Elem 7 (Scenario.sized_span 18%float) [Text 8 "b"]] /\
  (* the selection: collapsed after the first wrapper in tree order *)
  sel_range (selection (page (snd c))) = Some (mk_Range surface 1 surface 1) /\
  sel_range (selection (page (snd c))) <> Some (mk_Range surface 0 surface 2) /\
  fst s = Ok tt /\
  node_kids (page (snd s)) surface = node_kids (page (snd c)) surface /\
  sel_range (selection (page (snd s))) = Some (mk_Range surface 1 surface 1).
Proof.
  cbv zeta.
  repeat (apply conj; [vm_compute; first [reflexivity | discriminate]|]).
  vm_compute. reflexivity.
Qed.

(** ** Trees *)

Lemma node_ind' (P : node -> Prop) :
  (forall i s, P (Text i s)) ->
  (forall i e ks, Forall P ks -> P (Elem i e ks)) ->
  forall n, P n.
Proof.
  intros HT HE. fix IH 1. intros [i s|i e ks].
  - apply HT.
  - apply HE. induction ks as [|k ks IHks]; constructor; [apply IH|exact IHks].
Qed.

Lemma elem_of_flat_map {A B} (f : A -> list B) (l : list A) (y : B) :
  y ∈ flat_map f l <-> exists x, x ∈ l /\ y ∈ f x.
Proof.
  rewrite list_elem_of_In, in_flat_map. split; intros (x & H1 & H2); exists x.
  - rewrite !list_elem_of_In. auto.
  - rewrite <- !list_elem_of_In. auto.
Qed.

Lemma forest_ids_flat (f : list node) : forest_ids f = flat_map ids f.
Proof.
  unfold forest_ids, forest_nodes, ids. induction f as [|t f IH]; [reflexivity|].
  cbn [flat_map]. rewrite map_app, IH. reflexivity.
Qed.

Lemma ids_Elem i e ks : ids (Elem i e ks) = i :: forest_ids ks.
Proof. reflexivity. Qed.

Lemma ids_Text i s : ids (Text i s) = [i].
Proof. reflexivity. Qed.

Lemma ids_head n : node_id n ∈ ids n.
Proof. destruct n; cbn; left. Qed.

Lemma forest_ids_nil : forest_ids [] = [].
Proof. reflexivity. Qed.

Lemma forest_ids_cons t f : forest_ids (t :: f) = ids t ++ forest_ids f.
Proof. rewrite !forest_ids_flat. reflexivity. Qed.

Lemma forest_ids_app f g : forest_ids (f ++ g) = forest_ids f ++ forest_ids g.
Proof. rewrite !forest_ids_flat. apply flat_map_app. Qed.

Lemma elem_of_forest_ids i f : i ∈ forest_ids f <-> exists t, t ∈ f /\ i ∈ ids t.
Proof. rewrite forest_ids_flat. apply elem_of_flat_map. Qed.

(** *** What an absent identity leaves alone *)

Lemma splice_kids_absent i new (ks : list node) :
  Forall (fun k => i ∉ ids k -> splice i new k = k) ks ->
  i ∉ forest_ids ks ->
  flat_map (fun k => if has_id i k then new else [splice i new k]) ks = ks.
Proof.
  induction 1 as [|k ks Hk _ IH]; intros Hi; [reflexivity|].
  rewrite forest_ids_cons, elem_of_app in Hi. cbn [flat_map].
  assert (Hk' : i ∉ ids k) by tauto.
  unfold has_id. destruct (Nat.eqb_spec (node_id k) i) as [<-|_].
  - exfalso. apply Hk', ids_head.
  - rewrite Hk by exact Hk'. cbn. f_equal. apply IH. tauto.
Qed.

Lemma splice_absent i new n : i ∉ forest_ids (childNodes n) -> splice i new n = n.
Proof.
  induction n as [j s|j e ks IH] using node_ind'; intros Hi; [reflexivity|].
  cbn [splice childNodes] in *. f_equal. apply splice_kids_absent; [|exact Hi].
  eapply Forall_impl; [exact IH|]. cbn. intros k Hk Hik. apply Hk.
  destruct k; cbn [childNodes]; [rewrite forest_ids_nil; apply not_elem_of_nil|].
  rewrite ids_Elem, not_elem_of_cons in Hik. tauto.
Qed.

Lemma splice_absent' i new n : i ∉ ids n -> splice i new n = n.
Proof.
  intros H. apply splice_absent. destruct n; cbn [childNodes].
  - rewrite forest_ids_nil. apply not_elem_of_nil.
  - rewrite ids_Elem, not_elem_of_cons in H. tauto.
Qed.

Lemma map_absent {f : node -> node} i (ks : list node) :
  Forall (fun k => i ∉ ids k -> f k = k) ks ->
  i ∉ forest_ids ks -> map f ks = ks.
Proof.
  induction 1 as [|k ks Hk _ IH]; intros Hi; [reflexivity|].
  rewrite forest_ids_cons, elem_of_app in Hi. cbn [map].
  rewrite Hk, IH by tauto. reflexivity.
Qed.

Lemma alter_absent i g n : i ∉ ids n -> alter_node i g n = n.
Proof.
  induction n as [j s|j e ks IH] using node_ind'; intros Hi; [reflexivity|].
  rewrite ids_Elem, not_elem_of_cons in Hi. destruct Hi as [Hne Hi].
  cbn [alter_node]. destruct (Nat.eqb_spec j i) as [->|_]; [congruence|].
  f_equal. apply (map_absent i); assumption.
Qed.

Lemma set_kids_absent i new n : i ∉ ids n -> set_kids i new n = n.
Proof.
  induction n as [j s|j e ks IH] using node_ind'; intros Hi; [reflexivity|].
  rewrite ids_Elem, not_elem_of_cons in Hi. destruct Hi as [Hne Hi].
  cbn [set_kids]. destruct (Nat.eqb_spec j i) as [->|_]; [congruence|].
  f_equal. apply (map_absent i); assumption.
Qed.

Lemma find_absent i (l : list node) :
  i ∉ map node_id l -> List.find (has_id i) l = None.
Proof.
  induction l as [|x l IH]; intros Hi; [reflexivity|].
  cbn [map] in Hi. rewrite not_elem_of_cons in Hi. cbn [List.find].
  unfold has_id at 1. destruct (Nat.eqb_spec (node_id x) i); [destruct Hi; congruence|].
  apply IH. tauto.
Qed.

Lemma find_node_absent i f : i ∉ forest_ids f -> find_node i f = None.
Proof. intros H. apply find_absent. exact H. Qed.

Lemma first_path_absent (f : node -> list node) (l : list node) :
  Forall (fun k => f k = []) l -> first_path f l = [].
Proof. induction 1 as [|k l Hk _ IH]; cbn [first_path]; [reflexivity|]. rewrite Hk. exact IH. Qed.

Lemma path_to_Elem i j e ks :
  path_to i (Elem j e ks) =
    if j =? i then [Elem j e ks]
    else match first_path (path_to i) ks with
         | [] => []
         | p => Elem j e ks :: p
         end.
Proof. reflexivity. Qed.

Lemma path_to_absent i n : i ∉ ids n -> path_to i n = [].
Proof.
  induction n as [j s|j e ks IH] using node_ind'; intros Hi.
  - cbn. rewrite ids_Text, not_elem_of_cons in Hi. unfold has_id. cbn.
    destruct (Nat.eqb_spec j i); [destruct Hi; congruence|reflexivity].
  - rewrite ids_Elem, not_elem_of_cons in Hi. destruct Hi as [Hne Hi].
    rewrite path_to_Elem. destruct (Nat.eqb_spec j i); [congruence|].
    rewrite first_path_absent; [reflexivity|].
    rewrite Forall_forall in IH |- *. intros k Hk. apply IH; [exact Hk|].
    intros Hik. apply Hi. apply elem_of_forest_ids. eauto.
Qed.

(** *** Contexts *)

Lemma splice_Elem i new j e ks :
  splice i new (Elem j e ks) = Elem j e (flat_splice i new ks).
Proof. reflexivity. Qed.

Lemma flat_splice_app i new l r :
  flat_splice i new (l ++ r) = flat_splice i new l ++ flat_splice i new r.
Proof. apply flat_map_app. Qed.

Lemma flat_splice_absent i new ks :
  i ∉ forest_ids ks -> flat_splice i new ks = ks.
Proof.
  intros H. apply splice_kids_absent; [|exact H].
  apply Forall_forall. intros k _. apply splice_absent'.
Qed.

Lemma flat_splice_hit i new x : node_id x = i -> flat_splice i new [x] = new.
Proof.
  intros H. unfold flat_splice. cbn [flat_map]. unfold has_id. rewrite H, Nat.eqb_refl.
  apply app_nil_r.
Qed.

Lemma flat_splice_miss i new x :
  node_id x <> i -> flat_splice i new [x] = [splice i new x].
Proof.
  intros H. unfold flat_splice. cbn [flat_map]. unfold has_id.
  destruct (Nat.eqb_spec (node_id x) i); [contradiction|reflexivity].
Qed.

Lemma ids_plugs c new : ids (plugs c new) ≡ₚ ctx_ids c ++ forest_ids new.
Proof.
  unfold ctx_ids. induction c as [i e l r|i e l c IH r]; cbn [plugs].
  - rewrite !ids_Elem, !forest_ids_app, forest_ids_nil. cbn [app]. constructor.
    rewrite <- app_assoc. apply Permutation_app_head, Permutation_app_comm.
  - rewrite !ids_Elem, !forest_ids_app, !forest_ids_cons, IH. cbn [app]. constructor.
    rewrite <- !app_assoc. apply Permutation_app_head.
    apply Permutation_app_head. apply Permutation_app_comm.
Qed.

Lemma ids_plug c x : ids (plug c x) ≡ₚ ctx_ids c ++ ids x.
Proof.
  unfold plug. rewrite ids_plugs, forest_ids_cons, forest_ids_nil, app_nil_r. reflexivity.
Qed.

Lemma NoDup_plug c x :
  NoDup (ids (plug c x)) ->
  NoDup (ctx_ids c) /\ NoDup (ids x) /\ (forall i, i ∈ ids x -> i ∉ ctx_ids c).
Proof.
  rewrite ids_plug, NoDup_app. intros (H1 & H2 & H3). repeat split; [exact H1|exact H3|].
  intros i Hx Hc. exact (H2 i Hc Hx).
Qed.

Lemma NoDup_plugs c x new :
  NoDup (ids (plug c x)) ->
  NoDup (forest_ids new) ->
  (forall i, i ∈ forest_ids new -> i ∉ ctx_ids c) ->
  NoDup (ids (plugs c new)).
Proof.
  intros H Hn Hd. apply NoDup_plug in H as (H1 & _ & _).
  rewrite ids_plugs, NoDup_app. repeat split; [exact H1| |exact Hn].
  intros i Hc Hi. exact (Hd i Hi Hc).
Qed.

Lemma plug_in c x : x ∈ subtree (plug c x).
Proof.
  unfold plug. induction c as [i e l r|i e l c IH r]; cbn [plugs subtree]; right.
  - apply elem_of_flat_map. exists x. split; [|destruct x; left].
    rewrite elem_of_app. right. left.
  - apply elem_of_flat_map. exists (plugs c [x]). split; [|exact IH].
    rewrite elem_of_app. right. left.
Qed.

Lemma plug_in_inner c x : x ∈ flat_map subtree (childNodes (plug c x)).
Proof.
  unfold plug. destruct c as [i e l r|i e l c r]; cbn [plugs childNodes];
    apply elem_of_flat_map.
  - exists x. split; [|destruct x; left]. rewrite elem_of_app. right. left.
  - exists (plugs c [x]). split; [|apply plug_in]. rewrite elem_of_app. right. left.
Qed.

(** Every proper descendant sits in the hole of a context. *)
Lemma decompose n x :
  x ∈ flat_map subtree (childNodes n) -> exists c, n = plug c x.
Proof.
  induction n as [j s|j e ks IH] using node_ind'; cbn [childNodes].
  - cbn. intros H. apply elem_of_nil in H. contradiction.
  - intros H. apply elem_of_flat_map in H as (k & Hk & Hx).
    apply list_elem_of_split in Hk as (l & r & ->).
    rewrite Forall_app, Forall_cons in IH. destruct IH as (_ & IHk & _).
    destruct k as [i s|i e' ks']; cbn [subtree] in Hx.
    + rewrite elem_of_cons in Hx. destruct Hx as [->|Hx].
      * exists (Top j e l r). reflexivity.
      * cbn in Hx. apply elem_of_nil in Hx. contradiction.
    + rewrite elem_of_cons in Hx. destruct Hx as [->|Hx].
      * exists (Top j e l r). reflexivity.
      * destruct (IHk Hx) as (c & Hc). exists (Below j e l c r).
        unfold plug in *. cbn [plugs]. rewrite <- Hc. reflexivity.
Qed.

Lemma find_unique (l : list node) x :
  NoDup (map node_id l) -> x ∈ l -> List.find (has_id (node_id x)) l = Some x.
Proof.
  induction l as [|y l IH]; intros Hn Hx.
  - apply elem_of_nil in Hx. contradiction.
  - cbn [map] in Hn. rewrite NoDup_cons in Hn. destruct Hn as [Hy Hn].
    cbn [List.find]. unfold has_id at 1.
    rewrite elem_of_cons in Hx. destruct Hx as [->|Hx].
    + rewrite Nat.eqb_refl. reflexivity.
    + destruct (Nat.eqb_spec (node_id y) (node_id x)) as [E|_]; [|apply IH; assumption].
      exfalso. apply Hy. rewrite E.
      change (map node_id l) with (node_id <$> l). apply list_elem_of_fmap_2. exact Hx.
Qed.

Lemma find_node_unique f x :
  NoDup (forest_ids f) -> x ∈ forest_nodes f -> find_node (node_id x) f = Some x.
Proof. intros Hn Hx. apply find_unique; assumption. Qed.

Lemma find_node_in f i x : find_node i f = Some x -> x ∈ forest_nodes f /\ node_id x = i.
Proof.
  unfold find_node. intros H. apply find_some in H as [H1 H2].
  split; [apply list_elem_of_In; exact H1|]. apply Nat.eqb_eq. exact H2.
Qed.

Lemma NoDup_kid i e l y r :
  NoDup (ids (Elem i e (l ++ y :: r))) ->
  NoDup (ids y) /\
  (forall j, j ∈ ids y -> j <> i /\ (j ∉ forest_ids l) /\ (j ∉ forest_ids r)) /\
  (i ∉ forest_ids l) /\ (i ∉ forest_ids r) /\ (i ∉ ids y).
Proof.
  rewrite ids_Elem, forest_ids_app, forest_ids_cons, NoDup_cons, !NoDup_app.
  rewrite !elem_of_app.
  intros (Hi & Hl & Hd & Hy & Hd2 & Hr). split; [exact Hy|]. split.
  - intros j Hj. repeat split.
    + intros ->. apply Hi. right. left. exact Hj.
    + intros Hjl. apply (Hd j Hjl). rewrite elem_of_app. left. exact Hj.
    + apply Hd2. exact Hj.
  - repeat split; intros H; apply Hi; tauto.
Qed.

Lemma plugs_id c new : node_id (plugs c new) ∈ ctx_ids c.
Proof. unfold ctx_ids. destruct c; cbn [plugs]; rewrite ids_Elem; left. Qed.

Lemma ctx_ids_Top i e l r : ctx_ids (Top i e l r) = i :: forest_ids l ++ forest_ids r.
Proof. unfold ctx_ids. cbn [plugs]. rewrite ids_Elem, !forest_ids_app. reflexivity. Qed.

Lemma ctx_ids_Below i e l c r :
  ctx_ids (Below i e l c r) = i :: forest_ids l ++ ctx_ids c ++ forest_ids r.
Proof.
  unfold ctx_ids. cbn [plugs]. rewrite ids_Elem, forest_ids_app, forest_ids_cons.
  reflexivity.
Qed.

(** *** Operations on an identity outside the context *)

Lemma splice_plugs_outside j nw c new :
  j ∉ ctx_ids c -> splice j nw (plugs c new) = plugs c (flat_splice j nw new).
Proof.
  induction c as [i e l r|i e l c IH r]; intros Hj; cbn [plugs]; rewrite splice_Elem.
  - rewrite ctx_ids_Top, not_elem_of_cons, not_elem_of_app in Hj.
    rewrite !flat_splice_app.
    rewrite (flat_splice_absent _ _ l), (flat_splice_absent _ _ r) by tauto. reflexivity.
  - rewrite ctx_ids_Below, not_elem_of_cons, !not_elem_of_app in Hj.
    change (l ++ plugs c new :: r) with (l ++ [plugs c new] ++ r).
    rewrite !flat_splice_app.
    rewrite (flat_splice_absent _ _ l), (flat_splice_absent _ _ r) by tauto.
    rewrite flat_splice_miss.
    + rewrite IH by tauto. reflexivity.
    + intros E. destruct Hj as (_ & _ & Hc & _). apply Hc. rewrite <- E. apply plugs_id.
Qed.

Lemma map_alter_absent j g ks : j ∉ forest_ids ks -> map (alter_node j g) ks = ks.
Proof.
  intros H. apply (map_absent j); [|exact H].
  apply Forall_forall. intros k _. apply alter_absent.
Qed.

Lemma alter_plugs_outside j g c new :
  j ∉ ctx_ids c -> alter_node j g (plugs c new) = plugs c (map (alter_node j g) new).
Proof.
  induction c as [i e l r|i e l c IH r]; intros Hj; cbn [plugs alter_node].
  - rewrite ctx_ids_Top, not_elem_of_cons, not_elem_of_app in Hj.
    destruct (Nat.eqb_spec i j) as [->|_]; [tauto|].
    rewrite !map_app.
    rewrite (map_alter_absent _ _ l), (map_alter_absent _ _ r) by tauto. reflexivity.
  - rewrite ctx_ids_Below, not_elem_of_cons, !not_elem_of_app in Hj.
    destruct (Nat.eqb_spec i j) as [->|_]; [tauto|].
    rewrite map_app. cbn [map].
    rewrite (map_alter_absent _ _ l), (map_alter_absent _ _ r), IH by tauto. reflexivity.
Qed.

Lemma map_set_kids_absent j nw ks : j ∉ forest_ids ks -> map (set_kids j nw) ks = ks.
Proof.
  intros H. apply (map_absent j); [|exact H].
  apply Forall_forall. intros k _. apply set_kids_absent.
Qed.

(** *** Operations on the node in the place *)

Lemma splice_plug c x new :
  NoDup (ids (plug c x)) -> splice (node_id x) new (plug c x) = plugs c new.
Proof.
  intros H. apply NoDup_plug in H as (_ & _ & H).
  unfold plug. rewrite splice_plugs_outside by (apply H, ids_head).
  rewrite flat_splice_hit by reflexivity. reflexivity.
Qed.

Lemma alter_self g x : NoDup (ids x) -> alter_node (node_id x) g x = alter_root g x.
Proof.
  destruct x as [i s|i e ks]; [reflexivity|]. cbn [node_id alter_node alter_root].
  rewrite ids_Elem, NoDup_cons. intros [Hi _].
  rewrite Nat.eqb_refl, map_alter_absent by exact Hi. reflexivity.
Qed.

Lemma alter_plug c x g :
  NoDup (ids (plug c x)) ->
  alter_node (node_id x) g (plug c x) = plug c (alter_root g x).
Proof.
  intros H. apply NoDup_plug in H as (_ & Hx & H).
  unfold plug. rewrite alter_plugs_outside by (apply H, ids_head).
  cbn [map]. rewrite alter_self by exact Hx. reflexivity.
Qed.

(** *** The way up from the node in the place *)

Lemma first_path_hit (f : node -> list node) l y r :
  Forall (fun k => f k = []) l -> f y <> [] -> first_path f (l ++ y :: r) = f y.
Proof.
  induction 1 as [|k l Hk _ IH]; intros Hy; cbn [app first_path].
  - destruct (f y); [contradiction|reflexivity].
  - rewrite Hk. apply IH. exact Hy.
Qed.

Lemma path_absent_list i l : i ∉ forest_ids l -> Forall (fun k => path_to i k = []) l.
Proof.
  intros H. apply Forall_forall. intros k Hk. apply path_to_absent.
  intros Hik. apply H. apply elem_of_forest_ids. eauto.
Qed.

Lemma path_to_self x : path_to (node_id x) x = [x].
Proof.
  destruct x as [i s|i e ks]; cbn [path_to node_id]; unfold has_id; cbn [node_id];
    rewrite Nat.eqb_refl; reflexivity.
Qed.

Lemma path_to_plug c x :
  NoDup (ids (plug c x)) ->
  exists up, path_to (node_id x) (plug c x) = up ++ [parent_in c x; x].
Proof.
  unfold plug. induction c as [i e l r|i e l c IH r]; intros H; cbn [plugs parent_in].
  - change (l ++ [x] ++ r) with (l ++ x :: r) in *.
    apply NoDup_kid in H as (_ & H & _). destruct (H _ (ids_head x)) as (Hne & Hl & Hr).
    rewrite path_to_Elem. destruct (Nat.eqb_spec i (node_id x)); [congruence|].
    rewrite first_path_hit; [|apply path_absent_list; exact Hl|rewrite path_to_self; discriminate].
    rewrite path_to_self. exists []. reflexivity.
  - pose proof H as H'. apply NoDup_kid in H as (Hn & H & _).
    assert (Hx : node_id x ∈ ids (plugs c [x])).
    { apply list_elem_of_fmap_2'  with (x := x); [apply plug_in|reflexivity]. }
    destruct (H _ Hx) as (Hne & Hl & Hr).
    destruct (IH Hn) as (up & Hup).
    rewrite path_to_Elem. destruct (Nat.eqb_spec i (node_id x)); [congruence|].
    rewrite first_path_hit; [|apply path_absent_list; exact Hl|rewrite Hup; destruct up; discriminate].
    rewrite Hup. exists (Elem i e (l ++ plugs c [x] :: r) :: up).
    destruct up; reflexivity.
Qed.

(** ** Forests *)

Lemma map_splice_absent i new f : i ∉ forest_ids f -> map (splice i new) f = f.
Proof.
  intros H. apply (map_absent i); [|exact H].
  apply Forall_forall. intros k _. apply splice_absent'.
Qed.

Lemma filter_root_absent i f :
  i ∉ forest_ids f -> List.filter (fun t => negb (has_id i t)) f = f.
Proof.
  induction f as [|t f IH]; intros H; [reflexivity|].
  rewrite forest_ids_cons, not_elem_of_app in H. cbn [List.filter].
  unfold has_id at 1. destruct (Nat.eqb_spec (node_id t) i) as [<-|_].
  - exfalso. apply (proj1 H), ids_head.
  - cbn [negb]. f_equal. apply IH. tauto.
Qed.

Lemma first_path_skip i f1 f2 :
  i ∉ forest_ids f1 -> first_path (path_to i) (f1 ++ f2) = first_path (path_to i) f2.
Proof.
  induction f1 as [|t f1 IH]; intros H; [reflexivity|].
  rewrite forest_ids_cons, not_elem_of_app in H. cbn [app first_path].
  rewrite path_to_absent by tauto. apply IH. tauto.
Qed.

Lemma forest_nodes_app f g : forest_nodes (f ++ g) = forest_nodes f ++ forest_nodes g.
Proof. apply flat_map_app. Qed.

Lemma elem_of_forest_nodes x f : x ∈ forest_nodes f <-> exists t, t ∈ f /\ x ∈ subtree t.
Proof. apply elem_of_flat_map. Qed.

Lemma subtree_ids x t : x ∈ subtree t -> node_id x ∈ ids t.
Proof. intros H. apply list_elem_of_fmap_2' with (x := x); [exact H|reflexivity]. Qed.

Lemma subtree_inner x t : x ∈ subtree t -> x = t \/ x ∈ flat_map subtree (childNodes t).
Proof.
  destruct t; cbn [subtree childNodes]; rewrite elem_of_cons; intros [H|H]; auto.
Qed.

(** A node of a forest without duplicates sits in exactly one tree, as its
    root or in a place below it. *)
Lemma locate f x :
  NoDup (forest_ids f) -> x ∈ forest_nodes f ->
  exists f1 t f2, f = f1 ++ t :: f2 /\ (t = x \/ exists c, t = plug c x) /\
                  (node_id x ∉ forest_ids f1) /\ (node_id x ∉ forest_ids f2).
Proof.
  intros Hn Hx. apply elem_of_forest_nodes in Hx as (t & Ht & Hx).
  apply list_elem_of_split in Ht as (f1 & f2 & ->).
  exists f1, t, f2. split; [reflexivity|].
  rewrite forest_ids_app, forest_ids_cons, !NoDup_app in Hn.
  destruct Hn as (_ & Hd1 & _ & Hd2 & _).
  pose proof (subtree_ids _ _ Hx) as Hi.
  split; [|split].
  - apply subtree_inner in Hx as [->|Hx]; [left; reflexivity|right].
    apply decompose. exact Hx.
  - intros H1. apply (Hd1 _ H1). rewrite elem_of_app. left. exact Hi.
  - apply Hd2. exact Hi.
Qed.

Lemma NoDup_forest_tree f1 t f2 :
  NoDup (forest_ids (f1 ++ t :: f2)) -> NoDup (ids t).
Proof.
  rewrite forest_ids_app, forest_ids_cons, !NoDup_app. tauto.
Qed.

Lemma forest_tree_disjoint f1 t f2 i :
  NoDup (forest_ids (f1 ++ t :: f2)) -> i ∈ ids t ->
  (i ∉ forest_ids f1) /\ (i ∉ forest_ids f2).
Proof.
  rewrite forest_ids_app, forest_ids_cons, !NoDup_app.
  intros (_ & Hd1 & _ & Hd2 & _) Hi. split.
  - intros H1. apply (Hd1 _ H1). rewrite elem_of_app. left. exact Hi.
  - apply Hd2. exact Hi.
Qed.

Lemma map_splice_at i new f1 t f2 :
  (i ∉ forest_ids f1) -> (i ∉ forest_ids f2) ->
  map (splice i new) (f1 ++ t :: f2) = f1 ++ splice i new t :: f2.
Proof.
  intros H1 H2. rewrite map_app. cbn [map].
  rewrite (map_splice_absent _ _ f1), (map_splice_absent _ _ f2) by assumption. reflexivity.
Qed.

Lemma map_alter_at i g f1 t f2 :
  (i ∉ forest_ids f1) -> (i ∉ forest_ids f2) ->
  map (alter_node i g) (f1 ++ t :: f2) = f1 ++ alter_node i g t :: f2.
Proof.
  intros H1 H2. rewrite map_app. cbn [map].
  rewrite (map_alter_absent _ _ f1), (map_alter_absent _ _ f2) by assumption. reflexivity.
Qed.

(** ** Pages: looking nodes up *)

Lemma get_node_at p f1 t f2 x :
  NoDup (forest_ids (trees p)) -> trees p = f1 ++ t :: f2 -> x ∈ subtree t ->
  get_node p (node_id x) = Some x.
Proof.
  intros Hn Ht Hx. unfold get_node. apply find_node_unique; [exact Hn|].
  rewrite Ht. apply elem_of_forest_nodes. exists t. split; [|exact Hx].
  rewrite elem_of_app. right. left.
Qed.

Lemma get_node_absent p i : i ∉ forest_ids (trees p) -> get_node p i = None.
Proof. apply find_node_absent. Qed.

Lemma get_node_some p i x : get_node p i = Some x -> i ∈ forest_ids (trees p) /\ node_id x = i.
Proof.
  intros H. apply find_node_in in H as [H1 <-]. split; [|reflexivity].
  apply list_elem_of_fmap_2' with (x := x); [exact H1|reflexivity].
Qed.

Lemma parentNode_plug p f1 c x f2 :
  NoDup (forest_ids (trees p)) -> trees p = f1 ++ plug c x :: f2 ->
  parentNode p (node_id x) = Some (parent_in c x).
Proof.
  intros Hn Ht. rewrite Ht in Hn.
  pose proof (NoDup_forest_tree _ _ _ Hn) as Hnt.
  destruct (forest_tree_disjoint _ _ _ (node_id x) Hn (subtree_ids _ _ (plug_in c x)))
    as [H1 _].
  unfold parentNode, inclusive_ancestors, forest_path. rewrite Ht.
  rewrite first_path_skip by exact H1. cbn [first_path].
  destruct (path_to_plug c x Hnt) as (up & ->).
  match goal with
  | |- context [match ?l with [] => ?X | n :: l0 => n :: l0 end] =>
      replace (match l with [] => X | n :: l0 => n :: l0 end) with l
        by (destruct up; reflexivity)
  end.
  rewrite rev_app_distr. reflexivity.
Qed.


Lemma parentNode_absent p i : i ∉ forest_ids (trees p) -> parentNode p i = None.
Proof.
  intros H. unfold parentNode, inclusive_ancestors, forest_path.
  rewrite <- (app_nil_r (trees p)), first_path_skip by exact H. reflexivity.
Qed.

(** ** Pages: what the mutations do to the trees *)

Lemma wf_page_fresh p i : wf_page p -> next_id p <= i -> i ∉ forest_ids (trees p).
Proof.
  intros [_ H] Hi Hin. rewrite Forall_forall in H. specialize (H _ Hin). lia.
Qed.

Lemma trees_on_trees f p : trees (on_trees f p) = map f (trees p).
Proof. reflexivity. Qed.

Lemma trees_take_out i p :
  node_id (document p) <> i -> trees (take_out i p) = take_forest i (trees p).
Proof.
  intros H. unfold take_out, take_forest, trees. cbn [document detached set_trees List.filter].
  unfold has_id at 2. destruct (Nat.eqb_spec (node_id (document p)) i); [contradiction|].
  reflexivity.
Qed.


Lemma take_forest_plug c x f1 f2 :
  NoDup (forest_ids (f1 ++ plug c x :: f2)) ->
  take_forest (node_id x) (f1 ++ plug c x :: f2) = f1 ++ plugs c [] :: f2.
Proof.
  intros Hn. pose proof (NoDup_forest_tree _ _ _ Hn) as Hnt.
  destruct (forest_tree_disjoint _ _ _ _ Hn (subtree_ids _ _ (plug_in c x))) as [H1 H2].
  unfold take_forest. rewrite List.filter_app. cbn [List.filter]. unfold has_id at 2.
  destruct (Nat.eqb_spec (node_id (plug c x)) (node_id x)) as [E|_].
  - exfalso. apply NoDup_plug in Hnt as (_ & _ & Hd).
    apply (Hd _ (ids_head x)). rewrite <- E. apply plugs_id.
  - cbn [negb]. rewrite !filter_root_absent by assumption.
    rewrite map_splice_at by assumption. rewrite splice_plug by exact Hnt. reflexivity.
Qed.

Lemma root_not_inner p f1 c x f2 :
  NoDup (forest_ids (trees p)) -> trees p = f1 ++ plug c x :: f2 ->
  node_id (document p) <> node_id x.
Proof.
  intros Hn Ht E. rewrite Ht in Hn.
  pose proof (NoDup_forest_tree _ _ _ Hn) as Hnt.
  destruct (forest_tree_disjoint _ _ _ _ Hn (subtree_ids _ _ (plug_in c x))) as [H1 _].
  unfold trees in Ht. destruct f1 as [|t f1]; cbn [app] in Ht; injection Ht as Hd _.
  - apply NoDup_plug in Hnt as (_ & _ & Hx). apply (Hx _ (ids_head x)).
    rewrite <- E, Hd. apply plugs_id.
  - apply H1. rewrite forest_ids_cons, elem_of_app. left. rewrite <- E, Hd. apply ids_head.
Qed.

(** Permutations of blocks: both sides are lists of the same blocks in
    two orders. *)
Ltac perm_bubble a :=
  repeat
    match goal with
    | |- _ ≡ₚ a ++ _ => fail 1
    | |- _ ≡ₚ ?r =>
        match r with
        | context [?b ++ a ++ ?rest] => rewrite (Permutation_app_swap_app b a rest)
        end
    end.

Ltac perm_blocks :=
  match goal with
  | |- ?l ≡ₚ ?r => rewrite <- (app_nil_r l), <- (app_nil_r r)
  end;
  rewrite <- ?app_assoc;
  repeat
    match goal with
    | |- [] ≡ₚ [] => reflexivity
    | |- ?a ++ _ ≡ₚ _ => perm_bubble a; apply Permutation_app_head
    end.

(** The identities of a forest with a place filled otherwise. *)
Lemma forest_ids_replug f1 c x new f2 g :
  forest_ids (f1 ++ plugs c new :: f2 ++ g) ++ ids x
  ≡ₚ forest_ids (f1 ++ plug c x :: f2) ++ forest_ids new ++ forest_ids g.
Proof.
  rewrite !forest_ids_app, !forest_ids_cons, !forest_ids_app, ids_plugs, ids_plug.
  perm_blocks.
Qed.

(** *** Places inside places *)

Lemma plugs_ctx_app c inner new : plugs (ctx_app c inner) new = plug c (plugs inner new).
Proof.
  unfold plug. induction c as [i e l r|i e l c IH r]; cbn [ctx_app plugs].
  - reflexivity.
  - rewrite IH. reflexivity.
Qed.

Lemma plugs_ctx_sib c before after new :
  plugs (ctx_sib c before after) new = plugs c (before ++ new ++ after).
Proof.
  induction c as [i e l r|i e l c IH r]; cbn [ctx_sib plugs].
  - rewrite <- !app_assoc. reflexivity.
  - rewrite IH. reflexivity.
Qed.

Lemma parent_in_ctx_sib c before after x :
  parent_in (ctx_sib c before after) x = parent_in c x
  \/ exists i e l r, parent_in (ctx_sib c before after) x = Elem i e (l ++ x :: r).
Proof.
  induction c as [i e l r|i e l c IH r]; cbn [ctx_sib parent_in]; [|exact IH].
  right. eauto.
Qed.

(** *** Copies *)

Lemma relabel_Elem next i e ks :
  relabel next (Elem i e ks) =
    (Elem next e (fst (relabel_list (S next) ks)), snd (relabel_list (S next) ks)).
Proof.
  cbn [relabel]. unfold relabel_list. destruct (relabel_with relabel (S next) ks).
  reflexivity.
Qed.

Lemma relabel_list_cons next k r :
  relabel_list next (k :: r) =
    (fst (relabel next k) :: fst (relabel_list (snd (relabel next k)) r),
     snd (relabel_list (snd (relabel next k)) r)).
Proof.
  unfold relabel_list. cbn [relabel_with]. destruct (relabel next k) as [k' nx1].
  cbn [fst snd]. destruct (relabel_with relabel nx1 r). reflexivity.
Qed.

Lemma relabel_spec n :
  forall next, ids (fst (relabel next n)) = seq next (length (subtree n)) /\
               snd (relabel next n) = next + length (subtree n).
Proof.
  induction n as [i s|i e ks IH] using node_ind'; intros next.
  - cbn. split; [reflexivity|lia].
  - rewrite relabel_Elem. cbn [fst snd subtree length].
    assert (Hl : forall nx,
      forest_ids (fst (relabel_list nx ks)) = seq nx (length (flat_map subtree ks)) /\
      snd (relabel_list nx ks) = nx + length (flat_map subtree ks)).
    { induction IH as [|k ks Hk _ IHks]; intros nx.
      - cbn. split; [reflexivity|lia].
      - rewrite relabel_list_cons. cbn [fst snd flat_map].
        destruct (Hk nx) as [Hk1 Hk2]. destruct (IHks (snd (relabel nx k))) as [H1 H2].
        rewrite forest_ids_cons, Hk1, H1, H2, Hk2, length_app, seq_app.
        split; [reflexivity|lia]. }
    destruct (Hl (S next)) as [H1 H2]. rewrite ids_Elem, H1, H2.
    split; [reflexivity|lia].
Qed.

Lemma relabel_list_spec ks next :
  forest_ids (fst (relabel_list next ks)) = seq next (length (forest_nodes ks)) /\
  snd (relabel_list next ks) = next + length (forest_nodes ks).
Proof.
  revert next. induction ks as [|k ks IH]; intros next.
  - cbn. split; [reflexivity|lia].
  - rewrite relabel_list_cons. cbn [fst snd]. unfold forest_nodes. cbn [flat_map].
    destruct (relabel_spec k next) as [Hk1 Hk2].
    destruct (IH (snd (relabel next k))) as [H1 H2].
    rewrite forest_ids_cons, Hk1, H1, H2, Hk2, length_app, seq_app.
    split; [reflexivity|]. unfold forest_nodes. lia.
Qed.

(** *** Looking up in a longer forest *)


Lemma ids_alter i g n : ids (alter_node i g n) = ids n.
Proof.
  induction n as [j s|j e ks IH] using node_ind'; [reflexivity|].
  cbn [alter_node]. rewrite !ids_Elem. f_equal.
  rewrite !forest_ids_flat. induction IH as [|k ks Hk _ IHks]; [reflexivity|].
  cbn [map flat_map]. rewrite Hk, IHks. reflexivity.
Qed.

Lemma forest_ids_alter i g f : forest_ids (map (alter_node i g) f) = forest_ids f.
Proof.
  rewrite !forest_ids_flat. induction f as [|t f IH]; [reflexivity|].
  cbn [map flat_map]. rewrite ids_alter, IH. reflexivity.
Qed.

Lemma wf_alter_element p i g : wf_page p -> wf_page (alter_element i g p).
Proof.
  unfold wf_page, alter_element. rewrite trees_on_trees, forest_ids_alter. tauto.
Qed.

(** *** [replaceWith], [remove], [insertBefore] *)


Lemma document_first p f1 t f2 :
  trees p = f1 ++ t :: f2 -> f1 = [] /\ document p = t \/ exists f1', f1 = document p :: f1'.
Proof.
  unfold trees. destruct f1 as [|d f1]; cbn [app]; intros [= -> _]; eauto.
Qed.


Lemma take_out_plug_effect p f1 c x f2 :
  NoDup (forest_ids (trees p)) -> trees p = f1 ++ plug c x :: f2 ->
  trees (take_out (node_id x) p) = f1 ++ plugs c [] :: f2 /\
  next_id (take_out (node_id x) p) = next_id p /\
  selection (take_out (node_id x) p) = selection p /\
  body (take_out (node_id x) p) = body p.
Proof.
  intros Hn Ht. split; [|repeat split].
  rewrite trees_take_out by (eapply root_not_inner; eassumption).
  rewrite Ht in *. apply take_forest_plug. exact Hn.
Qed.

Lemma forest_ids_unplug f1 c x f2 :
  forest_ids (f1 ++ plug c x :: f2) ≡ₚ forest_ids (f1 ++ plugs c [] :: f2) ++ ids x.
Proof.
  rewrite !forest_ids_app, !forest_ids_cons, ids_plug.
  change (ids (plugs c [])) with (ctx_ids c). perm_blocks.
Qed.



Lemma remove_node_effect p f1 c x f2 :
  NoDup (forest_ids (trees p)) -> trees p = f1 ++ plug c x :: f2 ->
  trees (remove_node (node_id x) p) = f1 ++ plugs c [] :: f2 ++ [x] /\
  next_id (remove_node (node_id x) p) = next_id p /\
  selection (remove_node (node_id x) p) = selection p /\
  body (remove_node (node_id x) p) = body p.
Proof.
  intros Hn Ht. unfold remove_node.
  rewrite (parentNode_plug p f1 c x f2 Hn Ht).
  rewrite (get_node_at p f1 (plug c x) f2 x Hn Ht (plug_in c x)).
  destruct (take_out_plug_effect p f1 c x f2 Hn Ht) as (T1 & N1 & S1 & B1).
  split; [|repeat split; assumption].
  unfold trees at 1. cbn [document detached set_trees].
  change (document (take_out (node_id x) p) :: detached (take_out (node_id x) p) ++ [x])
    with (trees (take_out (node_id x) p) ++ [x]).
  rewrite T1, <- app_assoc. reflexivity.
Qed.


(** *** The new wrapper *)

Lemma find_skip {A} (q : A -> bool) (l1 l2 : list A) :
  List.find q l1 = None -> List.find q (l1 ++ l2) = List.find q l2.
Proof.
  induction l1 as [|x l1 IH]; [reflexivity|]. cbn [List.find app].
  destruct (q x); [discriminate|exact IH].
Qed.




(** ** Running the rewrite *)

Lemma only_page_refl a : only_page a a.
Proof. repeat split. Qed.

Lemma only_page_trans a b c : only_page a b -> only_page b c -> only_page a c.
Proof. unfold only_page. intros (?&?&?&?) (?&?&?&?). repeat split; congruence. Qed.


Lemma same_frame_refl p : same_frame p p.
Proof. repeat split. Qed.

Lemma same_frame_trans p q r : same_frame p q -> same_frame q r -> same_frame p r.
Proof. unfold same_frame. intros (?&?&?) (?&?&?). repeat split; congruence. Qed.


Lemma elem_ids_app l r : elem_ids (l ++ r) = elem_ids l ++ elem_ids r.
Proof. unfold elem_ids. rewrite flat_map_app, List.filter_app, map_app. reflexivity. Qed.

Lemma elem_ids_Elem i e ks : elem_ids [Elem i e ks] = i :: elem_ids ks.
Proof. unfold elem_ids. cbn. rewrite app_nil_r. reflexivity. Qed.

Lemma elem_ids_Text i s : elem_ids [Text i s] = [].
Proof. reflexivity. Qed.

Lemma forEach_app {A} (l r : list A) (f : A -> M unit) a :
  forEach (l ++ r) f a =
    match forEach l f a with
    | (Ok _, a1) => forEach r f a1
    | (Throw e, a1) => (Throw e, a1)
    end.
Proof.
  revert a. induction l as [|x l IH]; intros a; cbn [app forEach].
  - reflexivity.
  - cbv [bind]. destruct (f x a) as [[[]|e] a1]; [apply IH|reflexivity].
Qed.

Lemma ids_clean_tree n : ids (clean_tree n) = ids n.
Proof.
  induction n as [j s|j e ks IH] using node_ind'; [reflexivity|].
  cbn [clean_tree]. rewrite !ids_Elem. f_equal.
  rewrite !forest_ids_flat. induction IH as [|k ks Hk _ IHks]; [reflexivity|].
  cbn [map flat_map]. rewrite Hk, IHks. reflexivity.
Qed.


Lemma node_data_at p f1 c i e ks f2 :
  NoDup (forest_ids (trees p)) -> trees p = f1 ++ plug c (Elem i e ks) :: f2 ->
  node_data p i = e.
Proof.
  intros Hn Ht. unfold node_data.
  pose proof (get_node_at p f1 _ f2 (Elem i e ks) Hn Ht (plug_in c _)) as Hg.
  cbn [node_id] in Hg. rewrite Hg. reflexivity.
Qed.

Lemma alter_element_at p f1 c i e ks f2 g :
  NoDup (forest_ids (trees p)) -> trees p = f1 ++ plug c (Elem i e ks) :: f2 ->
  trees (alter_element i g p) = f1 ++ plug c (Elem i (g e) ks) :: f2.
Proof.
  intros Hn Ht. unfold alter_element. rewrite trees_on_trees, Ht.
  rewrite Ht in Hn.
  destruct (forest_tree_disjoint _ _ _ _ Hn (subtree_ids _ _ (plug_in c (Elem i e ks))))
    as [H1 H2].
  cbn [node_id] in H1, H2. rewrite map_alter_at by assumption.
  pose proof (alter_plug c (Elem i e ks) g (NoDup_forest_tree _ _ _ Hn)) as Ha.
  cbn [node_id alter_root] in Ha. rewrite Ha. reflexivity.
Qed.

Lemma forest_ids_same_place f1 c i e e' ks f2 :
  forest_ids (f1 ++ plug c (Elem i e' ks) :: f2) = forest_ids (f1 ++ plug c (Elem i e ks) :: f2).
Proof.
  rewrite !forest_ids_app, !forest_ids_cons. f_equal. f_equal.
  unfold plug. induction c as [j d l r|j d l c IH r]; cbn [plugs].
  - rewrite !ids_Elem, !forest_ids_app, !forest_ids_cons, !ids_Elem. reflexivity.
  - rewrite !ids_Elem, !forest_ids_app, !forest_ids_cons, IH. reflexivity.
Qed.

(** One descendant cleaned. *)
Lemma cleanDescendant_effect a f1 c i e ks f2 :
  NoDup (forest_ids (trees (page a))) ->
  trees (page a) = f1 ++ plug c (Elem i e ks) :: f2 ->
  exists a', cleanDescendant i a = (Ok tt, a') /\ only_page a a' /\
             same_frame (page a) (page a') /\
             trees (page a') = f1 ++ plug c (Elem i (clean_edata e) ks) :: f2.
Proof.
  intros Hn Ht. unfold cleanDescendant, set_style, data_of, el_removeAttribute, on_page.
  cbv [bind modify gets when]. cbn [page set_page].
  set (p1 := alter_element i (setStyle "font-size" (Raw "")) (page a)).
  assert (T1 : trees p1 = f1 ++ plug c (Elem i (setStyle "font-size" (Raw "") e) ks) :: f2)
    by (apply alter_element_at; assumption).
  assert (Hn1 : NoDup (forest_ids (trees p1))).
  { rewrite T1, (forest_ids_same_place _ _ _ e), <- Ht. exact Hn. }
  rewrite (node_data_at p1 _ _ _ _ _ _ Hn1 T1).
  unfold clean_edata. cbv zeta.
  destruct (String.eqb (tagName (setStyle "font-size" (Raw "") e)) "FONT").
  - cbv [bind modify ret]. cbn [page set_page].
    set (p2 := alter_element i (removeAttribute "size") p1).
    assert (T2 : trees p2 = f1 ++ plug c (Elem i (removeAttribute "size"
                   (setStyle "font-size" (Raw "") e)) ks) :: f2)
      by (apply alter_element_at; assumption).
    assert (Hn2 : NoDup (forest_ids (trees p2))).
    { rewrite T2, (forest_ids_same_place _ _ _ (setStyle "font-size" (Raw "") e)), <- T1.
      exact Hn1. }
    eexists. split; [reflexivity|]. split; [repeat split|]. split; [repeat split|].
    cbn [page]. apply alter_element_at; assumption.
  - eexists. split; [reflexivity|]. split; [repeat split|]. split; [repeat split|].
    exact T1.
Qed.

Lemma NoDup_replug f1 c new new' f2 :
  forest_ids new' ≡ₚ forest_ids new ->
  NoDup (forest_ids (f1 ++ plugs c new :: f2)) ->
  NoDup (forest_ids (f1 ++ plugs c new' :: f2)).
Proof.
  intros H. rewrite !forest_ids_app, !forest_ids_cons, !ids_plugs, H. tauto.
Qed.

Lemma cleans_nil : cleans [].
Proof.
  intros c done after a f1 f2 Hn Ht. exists a. split; [reflexivity|].
  split; [apply only_page_refl|]. split; [apply same_frame_refl|exact Ht].
Qed.

Lemma cleans_cons k ks : cleans [k] -> cleans ks -> cleans (k :: ks).
Proof.
  intros Hk Hks c done after a f1 f2 Hn Ht.
  change (k :: ks) with ([k] ++ ks). rewrite elem_ids_app, forEach_app.
  destruct (Hk c done (ks ++ after) a f1 f2 Hn) as (a1 & R1 & O1 & F1 & T1).
  { rewrite Ht. cbn [app]. reflexivity. }
  rewrite R1.
  assert (Hn1 : NoDup (forest_ids (trees (page a1)))).
  { rewrite T1. rewrite Ht in Hn. revert Hn. apply NoDup_replug.
    cbn [map app]. rewrite !forest_ids_app, !forest_ids_cons, !forest_ids_app.
    rewrite ids_clean_tree. reflexivity. }
  destruct (Hks c (done ++ map clean_tree [k]) after a1 f1 f2 Hn1) as (a2 & R2 & O2 & F2 & T2).
  { rewrite T1, <- !app_assoc. reflexivity. }
  exists a2. split; [exact R2|]. split; [eapply only_page_trans; eassumption|].
  split; [eapply same_frame_trans; eassumption|].
  rewrite T2, <- !app_assoc. reflexivity.
Qed.

Lemma cleans_all ks : cleans ks.
Proof.
  assert (H : Forall (fun k => cleans [k]) ks).
  { induction ks as [|k ks IH]; constructor; [|exact IH]. clear IH ks.
    induction k as [i s|i e kk IH] using node_ind'.
    - intros c done after a f1 f2 Hn Ht. exists a. split; [reflexivity|].
      split; [apply only_page_refl|]. split; [apply same_frame_refl|exact Ht].
    - assert (Hkk : cleans kk).
      { induction IH as [|k kk Hk _ IHkk]; [apply cleans_nil|].
        apply cleans_cons; assumption. }
      intros c done after a f1 f2 Hn Ht.
      rewrite elem_ids_Elem. cbn [forEach]. cbv [bind].
      assert (Ht' : trees (page a)
                = f1 ++ plug (ctx_sib c done after) (Elem i e kk) :: f2).
      { rewrite Ht. unfold plug. rewrite plugs_ctx_sib. reflexivity. }
      destruct (cleanDescendant_effect a f1 _ i e kk f2 Hn Ht') as (a1 & R1 & O1 & F1 & T1).
      rewrite R1.
      assert (Hn1 : NoDup (forest_ids (trees (page a1)))).
      { rewrite T1, (forest_ids_same_place _ _ _ e), <- Ht'. exact Hn. }
      destruct (Hkk (ctx_app (ctx_sib c done after) (Top i (clean_edata e) [] []))
                  [] [] a1 f1 f2 Hn1) as (a2 & R2 & O2 & F2 & T2).
      { rewrite T1, plugs_ctx_app. cbn [plugs app]. rewrite !app_nil_r. reflexivity. }
      exists a2. split; [exact R2|]. split; [eapply only_page_trans; eassumption|].
      split; [eapply same_frame_trans; eassumption|].
      rewrite T2, plugs_ctx_app. cbn [plugs app map clean_tree]. rewrite !app_nil_r.
      unfold plug. rewrite plugs_ctx_sib. reflexivity. }
  induction H as [|k ks Hk _ IH]; [apply cleans_nil|apply cleans_cons; assumption].
Qed.


(** The descendants of a root, cleaned. *)
Lemma clean_descendants_root a f1 i e ks f2 :
  NoDup (forest_ids (trees (page a))) ->
  trees (page a) = f1 ++ Elem i e ks :: f2 ->
  exists a', forEach (elem_ids ks) cleanDescendant a = (Ok tt, a') /\
             only_page a a' /\ same_frame (page a) (page a') /\
             trees (page a') = f1 ++ Elem i e (map clean_tree ks) :: f2.
Proof.
  intros Hn Ht.
  destruct (cleans_all ks (Top i e [] []) [] [] a f1 f2 Hn) as (a' & R & O & F & T).
  { rewrite Ht. cbn [plugs app]. rewrite !app_nil_r. reflexivity. }
  exists a'. split; [exact R|]. split; [exact O|]. split; [exact F|].
  rewrite T. cbn [plugs app]. rewrite !app_nil_r. reflexivity.
Qed.

(** *** The element right above a place *)





Lemma alter_top_ctx_app g c inner :
  alter_top g (ctx_app c inner) = ctx_app c (alter_top g inner).
Proof. induction c as [i e l r|i e l c IH r]; cbn; [reflexivity|rewrite IH; reflexivity]. Qed.

Lemma parent_in_subtree c x : parent_in c x ∈ subtree (plug c x).
Proof.
  unfold plug. induction c as [i e l r|i e l c IH r]; cbn [plugs parent_in].
  - left.
  - cbn [subtree]. right. apply elem_of_flat_map. exists (plugs c [x]).
    split; [|exact IH]. rewrite elem_of_app. right. left.
Qed.

Lemma top_id_sib c b a : top_id (ctx_sib c b a) = top_id c.
Proof. induction c; cbn; auto. Qed.

(** *** The unwrapping loop *)



(** *** One marked element rewritten *)

Lemma wf_page_perm p q :
  forest_ids (trees q) ≡ₚ forest_ids (trees p) -> next_id q = next_id p ->
  wf_page p -> wf_page q.
Proof. unfold wf_page. intros H -> [H1 H2]. rewrite H. split; assumption. Qed.

Lemma wf_page_grow p q n0 copy_ids :
  forest_ids (trees q) ≡ₚ forest_ids (trees p) ++ n0 :: copy_ids ->
  n0 = next_id p -> copy_ids = seq (S n0) (next_id q - S n0) -> S n0 <= next_id q ->
  wf_page p -> wf_page q.
Proof.
  unfold wf_page. intros H -> -> Hle [H1 H2]. rewrite H. split.
  - rewrite NoDup_app. split; [exact H1|]. split.
    + intros i Hi Hin. rewrite Forall_forall in H2. specialize (H2 _ Hi).
      rewrite elem_of_cons in Hin. destruct Hin as [->|Hin]; [lia|].
      apply list_elem_of_In, in_seq in Hin. lia.
    + rewrite NoDup_cons. split.
      * intros Hin. apply list_elem_of_In, in_seq in Hin. lia.
      * apply NoDup_ListNoDup, seq_NoDup.
  - rewrite Forall_app. split.
    + eapply Forall_impl; [exact H2|]. cbn. intros; lia.
    + constructor; [lia|]. apply Forall_forall. intros i Hi.
      apply list_elem_of_In, in_seq in Hi. lia.
Qed.


(** ** The parent-reuse path *)






Lemma top_node_in c new :
  Elem (top_id c) (top_data c) (top_left c ++ new ++ top_right c) ∈ subtree (plugs c new).
Proof.
  induction c as [i e l r|i e l c IH r]; cbn [plugs top_id top_data top_left top_right].
  - left.
  - cbn [subtree]. right. apply elem_of_flat_map. exists (plugs c new).
    split; [|exact IH]. rewrite elem_of_app. right. left.
Qed.




Lemma wf_page_decide p :
  bool_decide (NoDup (forest_ids (trees p))) = true ->
  forallb (fun i => i <? next_id p) (forest_ids (trees p)) = true ->
  wf_page p.
Proof.
  intros H1 H2. split.
  - apply bool_decide_eq_true in H1. exact H1.
  - apply Forall_forall. intros i Hi. rewrite forallb_forall in H2.
    apply Nat.ltb_lt, H2, list_elem_of_In. exact Hi.
Qed.

(** ** No marker left: what the loop keeps *)

(** ** Checks along a tree *)





Lemma elem_datas_Text i s : elem_datas [Text i s] = [].
Proof. reflexivity. Qed.





Section Scan.
Context (step : bool -> nid -> bool) (chk : bool -> nid -> edata -> bool).





Lemma hole_flag_alter_top g c : forall flag,
  hole_flag step flag (alter_top g c) = hole_flag step flag c.
Proof.
  induction c as [i e l r|i e l c IH r]; intros flag; cbn [alter_top hole_flag];
    [reflexivity|apply IH].
Qed.
End Scan.



(** ** Markers under cleaning, copying and resizing *)









Lemma new_span_no_span size : is_span_marker (new_span size) = false.
Proof. reflexivity. Qed.

(** ** The elements below the roots *)













(** ** What the loop keeps *)





















(** ** The end of the loop *)







(** ** The start of the loop *)





Lemma NoDup_node f x : NoDup (forest_ids f) -> x ∈ forest_nodes f -> NoDup (ids x).
Proof.
  intros Hn Hx. destruct (locate f x Hn Hx) as (f1 & t & f2 & -> & [->|[c ->]] & _).
  - exact (NoDup_forest_tree _ _ _ Hn).
  - apply NoDup_forest_tree, NoDup_plug in Hn as (_ & H & _). exact H.
Qed.



(** ** The statements around the loop *)

Lemma trees_steady_refl a : trees_steady a a.
Proof. reflexivity. Qed.

Lemma trees_steady_trans a b c : trees_steady a b -> trees_steady b c -> trees_steady a c.
Proof. unfold trees_steady. congruence. Qed.

Lemma trees_addRange r p : trees (addRange r p) = trees p.
Proof.
  unfold addRange. destruct (sel_range (selection p)); [reflexivity|].
  destruct (existsb _ _); reflexivity.
Qed.

Ltac trees_prim :=
  first [ apply respects_modify; intros ?; reflexivity
        | apply respects_modify; intros ?; apply trees_addRange
        | unfold emit
        | unfold ToolbarService.set_savedRange
        | unfold ToolbarService.activeStates_next
        | unfold TextEditorComponent.toolbarState_set
        | unfold TextEditorComponent.set_content
        | unfold TextEditorComponent.set_savedRange ].

Ltac trees_frame :=
  frame_walk trees_steady_refl trees_steady_trans I trees_prim.

Lemma reselect_keeps_trees news : respects trees_steady (reselect news).
Proof. trees_frame. Qed.




(** ** No marker left below the search root *)






(** ** The run resized a second time *)






(** * Further properties of the code *)

(** ** More of the selection tracker *)

Lemma walk_reaches_surface (pre : list node) (s : node) (rest : list node) :
  Forall (fun n => is_closed n = false) pre ->
  is_surface s = true ->
  ToolbarService.isContentEditable_walk (pre ++ s :: rest) = true.
Proof.
  intros Hpre Hs. induction Hpre as [|n pre Hn _ IH]; cbn [app].
  - destruct s as [|i e ks]; [discriminate|].
    cbn [is_surface] in Hs. cbn [ToolbarService.isContentEditable_walk]. rewrite Hs. reflexivity.
  - destruct n as [|i e ks]; cbn [ToolbarService.isContentEditable_walk]; [exact IH|].
    cbn [is_closed] in Hn. apply orb_false_iff in Hn as [H1 H2].
    destruct (bool_decide (getAttribute "contenteditable" e = Some "true")); [reflexivity|].
    rewrite H1, H2. exact IH.
Qed.

Lemma service_saveSelection_inside a r c pre s rest :
  sel_range (selection (page a)) = Some r ->
  commonAncestorContainer (page a) r = Some c ->
  inclusive_ancestors (page a) c = pre ++ s :: rest ->
  Forall (fun n => is_closed n = false) pre ->
  is_surface s = true ->
  ToolbarService.saveSelection a = ToolbarService.set_savedRange (Some r) a.
Proof.
  intros Hr Hc Hchain Hpre Hs.
  unfold ToolbarService.saveSelection, getSelection. cbv [bind gets].
  unfold rangeCount, getRangeAt0. rewrite Hr. cbn [Nat.ltb Nat.leb].
  cbv [bind gets ToolbarService.isContentEditable]. rewrite Hc, Hchain.
  rewrite (walk_reaches_surface pre s rest Hpre Hs). reflexivity.
Qed.

Lemma component_saveSelection_inside a r el :
  sel_range (selection (page a)) = Some r ->
  te_editorRef (editor a) = Some el ->
  contains (page a) el (anchorNode (selection (page a))) = true ->
  TextEditorComponent.saveSelection a = TextEditorComponent.set_savedRange (Some r) a.
Proof.
  intros Hr Hel Hin.
  unfold TextEditorComponent.saveSelection, getSelection. cbv [bind gets].
  unfold rangeCount, getRangeAt0. rewrite Hr. cbn [Nat.ltb Nat.leb].
  cbv [bind gets TextEditorComponent.nativeElement]. rewrite Hel. cbv [ret].
  rewrite Hin. reflexivity.
Qed.

(** The tracker stores the live range when the selection is inside.  The
    service walks up from the common ancestor of the range and stores the
    range when it meets an element with [contenteditable="true"] before
    any closed one; the component stores it when the editor element
    contains the anchor node.  Nothing else changes. *)
Theorem saveSelection_captures_inside :
  (forall a r c pre s rest,
     sel_range (selection (page a)) = Some r ->
     commonAncestorContainer (page a) r = Some c ->
     inclusive_ancestors (page a) c = pre ++ s :: rest ->
     Forall (fun n => is_closed n = false) pre ->
     is_surface s = true ->
     ToolbarService.saveSelection a = ToolbarService.set_savedRange (Some r) a) /\
  (forall a r el,
     sel_range (selection (page a)) = Some r ->
     te_editorRef (editor a) = Some el ->
     contains (page a) el (anchorNode (selection (page a))) = true ->
     TextEditorComponent.saveSelection a = TextEditorComponent.set_savedRange (Some r) a).
Proof.
  split.
  - exact service_saveSelection_inside.
  - exact component_saveSelection_inside.
Qed.

Lemma saveSelection_captures_inside_witness :
  ToolbarService.saveSelection Scenario.selected
  = ToolbarService.set_savedRange (Some Scenario.hello_range) Scenario.selected /\
  TextEditorComponent.saveSelection Scenario.selected
  = TextEditorComponent.set_savedRange (Some Scenario.hello_range) Scenario.selected.
Proof.
  split.
  - apply (proj1 saveSelection_captures_inside Scenario.selected Scenario.hello_range 3
             [Text 3 "hello"] (Elem 2 (Scenario.surface "true") [Text 3 "hello"])
             [Elem 1 (Scenario.plain "BODY") [Elem 2 (Scenario.surface "true") [Text 3 "hello"]];
              document (page Scenario.selected)]).
    + reflexivity.
    + vm_compute. reflexivity.
    + vm_compute. reflexivity.
    + repeat constructor.
    + vm_compute. reflexivity.
  - apply (proj2 saveSelection_captures_inside Scenario.selected Scenario.hello_range 2).
    + reflexivity.
    + reflexivity.
    + vm_compute. reflexivity.
Defined.

(** Round trip of the tracker.  [save()] on a selection inside the
    surface followed by [restore()] leaves the saved range as the only
    live range, its end points unchanged; the selection comes back as a
    forward one, whatever its direction was.  The range starts in the
    document, as every live range does. *)
Theorem save_then_restore :
  (forall a r c pre s rest,
     sel_range (selection (page a)) = Some r ->
     commonAncestorContainer (page a) r = Some c ->
     inclusive_ancestors (page a) c = pre ++ s :: rest ->
     Forall (fun n => is_closed n = false) pre ->
     is_surface s = true ->
     existsb (Nat.eqb (startContainer r)) (ids (document (page a))) = true ->
     exists a',
       (ToolbarService.saveSelection ;; ToolbarService.restoreSelection) a = (Ok tt, a') /\
       selection (page a') = mk_Selection (Some r) false /\
       ts_savedRange (service a') = Some r /\
       trees (page a') = trees (page a)) /\
  (forall a r el,
     sel_range (selection (page a)) = Some r ->
     te_editorRef (editor a) = Some el ->
     contains (page a) el (anchorNode (selection (page a))) = true ->
     existsb (Nat.eqb (startContainer r)) (ids (document (page a))) = true ->
     exists a',
       (TextEditorComponent.saveSelection ;; TextEditorComponent.restoreSelection) a
       = (Ok tt, a') /\
       selection (page a') = mk_Selection (Some r) false /\
       te_savedRange (editor a') = Some r /\
       trees (page a') = trees (page a)).
Proof.
  split.
  - intros a r c pre s rest Hr Hc Hchain Hpre Hs Hdoc.
    rewrite bind_run.
    rewrite (service_saveSelection_inside a r c pre s rest Hr Hc Hchain Hpre Hs).
    unfold ToolbarService.set_savedRange, modify.
    unfold ToolbarService.restoreSelection, getSelection, sel_removeAllRanges, sel_addRange,
      on_page.
    cbv [bind gets modify]. cbn [service set_service ts_savedRange page set_page].
    unfold addRange, removeAllRanges.
    cbn [selection set_selection sel_range no_selection document]. rewrite Hdoc.
    eexists. split; [reflexivity|]. repeat split.
  - intros a r el Hr Hel Hin Hdoc.
    rewrite bind_run.
    rewrite (component_saveSelection_inside a r el Hr Hel Hin).
    unfold TextEditorComponent.set_savedRange, modify.
    unfold TextEditorComponent.restoreSelection, getSelection, sel_removeAllRanges,
      sel_addRange, on_page.
    cbv [bind gets modify]. cbn [editor set_editor te_savedRange page set_page].
    unfold addRange, removeAllRanges.
    cbn [selection set_selection sel_range no_selection document]. rewrite Hdoc.
    eexists. split; [reflexivity|]. repeat split.
Qed.

Lemma save_then_restore_witness :
  (exists a',
     (ToolbarService.saveSelection ;; ToolbarService.restoreSelection) Scenario.selected
     = (Ok tt, a') /\
     selection (page a') = mk_Selection (Some Scenario.hello_range) false /\
     ts_savedRange (service a') = Some Scenario.hello_range /\
     trees (page a') = trees (page Scenario.selected)) /\
  (exists a',
     (TextEditorComponent.saveSelection ;; TextEditorComponent.restoreSelection)
       Scenario.selected = (Ok tt, a') /\
     selection (page a') = mk_Selection (Some Scenario.hello_range) false /\
     te_savedRange (editor a') = Some Scenario.hello_range /\
     trees (page a') = trees (page Scenario.selected)).
Proof.
  split.
  - apply (proj1 save_then_restore Scenario.selected Scenario.hello_range 3
             [Text 3 "hello"] (Elem 2 (Scenario.surface "true") [Text 3 "hello"])
             [Elem 1 (Scenario.plain "BODY") [Elem 2 (Scenario.surface "true") [Text 3 "hello"]];
              document (page Scenario.selected)]).
    + reflexivity.
    + vm_compute. reflexivity.
    + vm_compute. reflexivity.
    + repeat constructor.
    + vm_compute. reflexivity.
    + vm_compute. reflexivity.
  - apply (proj2 save_then_restore Scenario.selected Scenario.hello_range 2).
    + reflexivity.
    + reflexivity.
    + vm_compute. reflexivity.
    + vm_compute. reflexivity.
Defined.

(** ** The format state of the service *)

Lemma query_step {B} (br : Browser) (key : string) (k : bool -> M B) a :
  bind (document_queryCommandState br key) k a
  = match native_queryCommandState br key (page a) with
    | Ok b => k b (asked key a)
    | Throw e => (Throw e, asked key a)
    end.
Proof.
  unfold document_queryCommandState, emit, asked. cbv [bind modify]. cbn [page].
  destruct (native_queryCommandState br key (page a)); reflexivity.
Qed.

Lemma updateActiveStates_outside (br : Browser) a :
  (forall an, anchorNode (selection (page a)) = Some an ->
     ToolbarService.isContentEditable_walk (inclusive_ancestors (page a) an) = false) ->
  ToolbarService.updateActiveStates br a = (Ok tt, a).
Proof.
  intros H. unfold ToolbarService.updateActiveStates, getSelection.
  rewrite bind_gets. unfold ToolbarService.isContentEditable. rewrite bind_gets.
  destruct (anchorNode (selection (page a))) as [an|]; [|reflexivity].
  rewrite (H an eq_refl). reflexivity.
Qed.

Lemma updateActiveStates_inside (br : Browser) a an :
  anchorNode (selection (page a)) = Some an ->
  ToolbarService.isContentEditable_walk (inclusive_ancestors (page a) an) = true ->
  ToolbarService.updateActiveStates br a
  = (z <- probeFontSize br (node_id <$> parentNode (page a) an) ;;
     bold <- document_queryCommandState br "bold" ;;
     italic <- document_queryCommandState br "italic" ;;
     underline <- document_queryCommandState br "underline" ;;
     justifyLeft <- document_queryCommandState br "justifyLeft" ;;
     justifyCenter <- document_queryCommandState br "justifyCenter" ;;
     justifyRight <- document_queryCommandState br "justifyRight" ;;
     ToolbarService.activeStates_next
       (<["bold" := VBool bold]> (<["italic" := VBool italic]>
       (<["underline" := VBool underline]> (<["justifyLeft" := VBool justifyLeft]>
       (<["justifyCenter" := VBool justifyCenter]>
       (<["justifyRight" := VBool justifyRight]>
       (<["fontSize" := VNum z]> ∅)))))))) a.
Proof.
  intros Han Hw. unfold ToolbarService.updateActiveStates, getSelection.
  rewrite bind_gets. unfold ToolbarService.isContentEditable. rewrite bind_gets.
  rewrite Han, Hw. unfold parentElement. rewrite bind_gets. reflexivity.
Qed.

Lemma updateActiveStates_raises (br : Browser) :
  raises_within states_steady (ToolbarService.updateActiveStates br).
Proof.
  intros a e a' H. unfold states_steady.
  destruct (anchorNode (selection (page a))) as [an|] eqn:Han.
  2:{ rewrite updateActiveStates_outside in H by (intros an; congruence). discriminate. }
  destruct (ToolbarService.isContentEditable_walk (inclusive_ancestors (page a) an)) eqn:Hw.
  2:{ rewrite updateActiveStates_outside in H; [discriminate|].
      intros an' E. rewrite Han in E. injection E as <-. exact Hw. }
  rewrite (updateActiveStates_inside br a an Han Hw) in H.
  rewrite bind_run in H.
  destruct (probeFontSize_pure br (node_id <$> parentNode (page a) an) a) as (z & Hz).
  rewrite Hz in H.
  repeat (rewrite query_step in H;
          match type of H with
          | match ?q with _ => _ end = _ =>
              destruct q; [|injection H as _ <-; reflexivity]
          end).
  discriminate.
Qed.

Lemma updateActiveStates_probes (br : Browser) a a' an :
  anchorNode (selection (page a)) = Some an ->
  ToolbarService.isContentEditable_walk (inclusive_ancestors (page a) an) = true ->
  ToolbarService.updateActiveStates br a = (Ok tt, a') ->
  exists z bold italic underline justifyLeft justifyCenter justifyRight,
    probeFontSize br (node_id <$> parentNode (page a) an) a = (Ok z, a) /\
    native_queryCommandState br "bold" (page a) = Ok bold /\
    native_queryCommandState br "italic" (page a) = Ok italic /\
    native_queryCommandState br "underline" (page a) = Ok underline /\
    native_queryCommandState br "justifyLeft" (page a) = Ok justifyLeft /\
    native_queryCommandState br "justifyCenter" (page a) = Ok justifyCenter /\
    native_queryCommandState br "justifyRight" (page a) = Ok justifyRight /\
    ts_activeStates (service a')
    = <["bold" := VBool bold]> (<["italic" := VBool italic]>
      (<["underline" := VBool underline]> (<["justifyLeft" := VBool justifyLeft]>
      (<["justifyCenter" := VBool justifyCenter]>
      (<["justifyRight" := VBool justifyRight]>
      (<["fontSize" := VNum z]> ∅)))))) /\
    ts_savedRange (service a') = ts_savedRange (service a) /\
    ts_isUpdating (service a') = ts_isUpdating (service a) /\
    page a' = page a /\
    trace a' = trace a ++ map EvQueryCommandState format_keys.
Proof.
  intros Han Hw H.
  rewrite (updateActiveStates_inside br a an Han Hw) in H.
  rewrite bind_run in H.
  destruct (probeFontSize_pure br (node_id <$> parentNode (page a) an) a) as (z & Hz).
  rewrite Hz in H.
  rewrite query_step in H. cbn [asked page] in H.
  destruct (native_queryCommandState br "bold" (page a)) as [b1|] eqn:Q1; [|discriminate].
  rewrite query_step in H. cbn [asked page] in H.
  destruct (native_queryCommandState br "italic" (page a)) as [b2|] eqn:Q2; [|discriminate].
  rewrite query_step in H. cbn [asked page] in H.
  destruct (native_queryCommandState br "underline" (page a)) as [b3|] eqn:Q3; [|discriminate].
  rewrite query_step in H. cbn [asked page] in H.
  destruct (native_queryCommandState br "justifyLeft" (page a)) as [b4|] eqn:Q4; [|discriminate].
  rewrite query_step in H. cbn [asked page] in H.
  destruct (native_queryCommandState br "justifyCenter" (page a)) as [b5|] eqn:Q5; [|discriminate].
  rewrite query_step in H. cbn [asked page] in H.
  destruct (native_queryCommandState br "justifyRight" (page a)) as [b6|] eqn:Q6; [|discriminate].
  unfold ToolbarService.activeStates_next, modify in H. injection H as <-.
  exists z, b1, b2, b3, b4, b5, b6.
  cbn [service set_service ts_activeStates ts_savedRange ts_isUpdating page trace asked].
  split; [exact Hz|].
  repeat (split; [reflexivity|]).
  unfold format_keys. cbn [map]. rewrite <- !app_assoc. reflexivity.
Qed.

(** [updateActiveStates] of the service.  Outside the editable surface
    (no anchor node, or the walk up from it does not reach a surface) it
    does nothing and asks nothing.  Inside, a run that returns has put
    the six formatting queries to the browser, in the order of the
    source, and has replaced the whole format state by their answers and
    the probed font size: keys that were there before are gone.  A run
    that raises, because a query did, leaves the format state as it was:
    the state is replaced in one step, at the end. *)
Theorem updateActiveStates_replaces_state (br : Browser) :
  (forall a,
     (forall an, anchorNode (selection (page a)) = Some an ->
        ToolbarService.isContentEditable_walk (inclusive_ancestors (page a) an) = false) ->
     ToolbarService.updateActiveStates br a = (Ok tt, a)) /\
  (forall a a' an,
     anchorNode (selection (page a)) = Some an ->
     ToolbarService.isContentEditable_walk (inclusive_ancestors (page a) an) = true ->
     ToolbarService.updateActiveStates br a = (Ok tt, a') ->
     exists z bold italic underline justifyLeft justifyCenter justifyRight,
       probeFontSize br (node_id <$> parentNode (page a) an) a = (Ok z, a) /\
       native_queryCommandState br "bold" (page a) = Ok bold /\
       native_queryCommandState br "italic" (page a) = Ok italic /\
       native_queryCommandState br "underline" (page a) = Ok underline /\
       native_queryCommandState br "justifyLeft" (page a) = Ok justifyLeft /\
       native_queryCommandState br "justifyCenter" (page a) = Ok justifyCenter /\
       native_queryCommandState br "justifyRight" (page a) = Ok justifyRight /\
       ts_activeStates (service a')
       = <["bold" := VBool bold]> (<["italic" := VBool italic]>
         (<["underline" := VBool underline]> (<["justifyLeft" := VBool justifyLeft]>
         (<["justifyCenter" := VBool justifyCenter]>
         (<["justifyRight" := VBool justifyRight]>
         (<["fontSize" := VNum z]> ∅)))))) /\
       ts_savedRange (service a') = ts_savedRange (service a) /\
       ts_isUpdating (service a') = ts_isUpdating (service a) /\
       page a' = page a /\
       trace a' = trace a ++ map EvQueryCommandState format_keys) /\
  (forall a e a',
     ToolbarService.updateActiveStates br a = (Throw e, a') ->
     ts_activeStates (service a') = ts_activeStates (service a)).
Proof.
  split; [|split].
  - intros a. apply updateActiveStates_outside.
  - intros a a' an. apply updateActiveStates_probes.
  - intros a e a' H. exact (updateActiveStates_raises br a e a' H).
Qed.

Lemma updateActiveStates_replaces_state_witness :
  ToolbarService.updateActiveStates Scenario.quiet Scenario.hello = (Ok tt, Scenario.hello) /\
  (exists z b1 b2 b3 b4 b5 b6,
     probeFontSize Scenario.quiet (node_id <$> parentNode (page Scenario.selected) 3)
       Scenario.selected = (Ok z, Scenario.selected) /\
     native_queryCommandState Scenario.quiet "bold" (page Scenario.selected) = Ok b1 /\
     native_queryCommandState Scenario.quiet "italic" (page Scenario.selected) = Ok b2 /\
     native_queryCommandState Scenario.quiet "underline" (page Scenario.selected) = Ok b3 /\
     native_queryCommandState Scenario.quiet "justifyLeft" (page Scenario.selected) = Ok b4 /\
     native_queryCommandState Scenario.quiet "justifyCenter" (page Scenario.selected) = Ok b5 /\
     native_queryCommandState Scenario.quiet "justifyRight" (page Scenario.selected) = Ok b6 /\
     ts_activeStates
       (service (snd (ToolbarService.updateActiveStates Scenario.quiet Scenario.selected)))
     = <["bold" := VBool b1]> (<["italic" := VBool b2]>
       (<["underline" := VBool b3]> (<["justifyLeft" := VBool b4]>
       (<["justifyCenter" := VBool b5]>
       (<["justifyRight" := VBool b6]>
       (<["fontSize" := VNum z]> ∅)))))) /\
     ts_savedRange
       (service (snd (ToolbarService.updateActiveStates Scenario.quiet Scenario.selected)))
     = ts_savedRange (service Scenario.selected) /\
     ts_isUpdating
       (service (snd (ToolbarService.updateActiveStates Scenario.quiet Scenario.selected)))
     = ts_isUpdating (service Scenario.selected) /\
     page (snd (ToolbarService.updateActiveStates Scenario.quiet Scenario.selected))
     = page Scenario.selected /\
     trace (snd (ToolbarService.updateActiveStates Scenario.quiet Scenario.selected))
     = trace Scenario.selected ++ map EvQueryCommandState format_keys) /\
  ts_activeStates
    (service (snd (ToolbarService.updateActiveStates Scenario.italic_fails Scenario.selected)))
  = ts_activeStates (service Scenario.selected).
Proof.
  split; [|split].
  - apply (proj1 (updateActiveStates_replaces_state Scenario.quiet) Scenario.hello).
    intros an H. vm_compute in H. discriminate H.
  - apply (proj1 (proj2 (updateActiveStates_replaces_state Scenario.quiet))
             Scenario.selected _ 3).
    + reflexivity.
    + vm_compute. reflexivity.
    + vm_compute. reflexivity.
  - apply (proj2 (proj2 (updateActiveStates_replaces_state Scenario.italic_fails))
             Scenario.selected "InvalidStateError").
    vm_compute. reflexivity.
Defined.

(** ** Commands of the service: what is called, and what an error leaves *)

Section Raises.
Context (R : App -> App -> Prop).
Hypothesis R_trans : forall a b c, R a b -> R b c -> R a c.

Lemma raises_respects {A} (m : M A) : respects R m -> raises_within R m.
Proof. intros H a e a' E. specialize (H a). rewrite E in H. exact H. Qed.

Lemma raises_bind {A B} (m : M A) (k : A -> M B) :
  respects R m -> (forall x, raises_within R (k x)) -> raises_within R (bind m k).
Proof.
  intros Hm Hk a e a' E. rewrite bind_run in E. specialize (Hm a).
  destruct (m a) as [[x|e0] a1]; cbn [snd] in Hm.
  - eapply R_trans; [exact Hm|]. exact (Hk x a1 e a' E).
  - injection E as _ <-. exact Hm.
Qed.

Lemma raises_try_finally {A} (body : M A) (fin : M unit) :
  raises_within R body -> respects R fin -> (forall a, fst (fin a) = Ok tt) ->
  raises_within R (try_finally body fin).
Proof.
  intros Hb Hf Hok a e a' E. unfold try_finally in E.
  destruct (body a) as [r a1] eqn:Eb.
  specialize (Hf a1). specialize (Hok a1).
  destruct (fin a1) as [[[]|e1] a2]; cbn [fst snd] in *; [|discriminate].
  injection E as -> <-. eapply R_trans; [|exact Hf]. exact (Hb a e a1 Eb).
Qed.
End Raises.

Lemma activeStates_next_returns st a : exists a', ToolbarService.activeStates_next st a = (Ok tt, a').
Proof. eexists. reflexivity. Qed.

Lemma isUpdating_next_returns b a : fst (ToolbarService.isUpdating_next b a) = Ok tt.
Proof. reflexivity. Qed.

Ltac raises_walk :=
  repeat first
    [ apply (raises_bind _ states_steady_trans); [solve [states_frame]|intros ?]
    | match goal with
      | |- raises_within _ (match ?x with _ => _ end) => destruct x
      end ].

(** The service replaces its format state all or nothing.  When
    [executeCommand] or [setFontSize] raises, whatever raised, the format
    state is the one from before the call: neither operation writes it
    before its last statement. *)
Theorem service_error_keeps_format_state (br : Browser) :
  (forall command value a e a',
     ToolbarService.executeCommand br command value a = (Throw e, a') ->
     ts_activeStates (service a') = ts_activeStates (service a)) /\
  (forall size a e a',
     ToolbarService.setFontSize br size a = (Throw e, a') ->
     ts_activeStates (service a') = ts_activeStates (service a)).
Proof.
  split.
  - intros command value. change (raises_within states_steady
                                    (ToolbarService.executeCommand br command value)).
    unfold ToolbarService.executeCommand.
    apply (raises_bind _ states_steady_trans); [states_frame|intros _].
    apply (raises_try_finally _ states_steady_trans);
      [|states_frame|apply isUpdating_next_returns].
    raises_walk;
      first [ apply (raises_respects _); solve [states_frame]
            | intros ? ? ? H; unfold ToolbarService.activeStates_next, modify in H;
              discriminate ].
  - intros size. change (raises_within states_steady (ToolbarService.setFontSize br size)).
    unfold ToolbarService.setFontSize.
    apply (raises_bind _ states_steady_trans); [states_frame|intros _].
    apply (raises_try_finally _ states_steady_trans);
      [|states_frame|apply isUpdating_next_returns].
    raises_walk;
      first [ apply (raises_respects _); solve [states_frame]
            | intros ? ? ? H; unfold ToolbarService.activeStates_next, modify in H;
              discriminate ].
Qed.

Lemma service_error_keeps_format_state_witness :
  ts_activeStates
    (service (snd (ToolbarService.executeCommand Scenario.failing "bold" "" Scenario.selected)))
  = ts_activeStates (service Scenario.selected) /\
  ts_activeStates
    (service (snd (ToolbarService.setFontSize Scenario.failing 18%float Scenario.selected)))
  = ts_activeStates (service Scenario.selected).
Proof.
  split.
  - apply (proj1 (service_error_keeps_format_state Scenario.failing) "bold" ""
             Scenario.selected "NotSupportedError").
    vm_compute. reflexivity.
  - apply (proj2 (service_error_keeps_format_state Scenario.failing) 18%float
             Scenario.selected "NotSupportedError").
    vm_compute. reflexivity.
Defined.

Lemma trace_steady_refl a : trace_steady a a.
Proof. reflexivity. Qed.

Lemma trace_steady_trans a b c : trace_steady a b -> trace_steady b c -> trace_steady a c.
Proof. unfold trace_steady. congruence. Qed.

Lemma trace_steady_page a p : trace_steady a (set_page p a).
Proof. reflexivity. Qed.

Ltac trace_prim :=
  first [ apply respects_modify; intros ?; reflexivity
        | unfold ToolbarService.set_savedRange
        | unfold TextEditorComponent.set_savedRange
        | unfold TextEditorComponent.set_content ].

Ltac trace_frame :=
  frame_walk trace_steady_refl trace_steady_trans trace_steady_page trace_prim.

Lemma execCommand_step {B} (br : Browser) (name value : string) (k : unit -> M B) a y a2 :
  bind (document_execCommand br name value) k a = (Ok y, a2) ->
  exists a1, trace a1 = trace a ++ [EvExecCommand name value] /\ editor a1 = editor a /\
             k tt a1 = (Ok y, a2).
Proof.
  unfold document_execCommand, emit. cbv [bind modify]. cbn [page].
  destruct (native_execCommand br name value (page a)) as [[[]|e] p']; [|discriminate].
  intros H. eexists. split; [|split; [|exact H]]; reflexivity.
Qed.

Lemma focus_step {B} (br : Browser) (el : nid) (k : unit -> M B) a :
  bind (focus br el) k a
  = k tt (mk_App (native_focus br el (page a)) (service a) (editor a) (directive a)
                 (trace a ++ [EvFocus el])).
Proof. reflexivity. Qed.

Lemma nativeElement_step {B} (k : nid -> M B) a el :
  te_editorRef (editor a) = Some el ->
  bind TextEditorComponent.nativeElement k a = k el a.
Proof.
  intros H. unfold TextEditorComponent.nativeElement. rewrite bind_run, bind_gets, H.
  reflexivity.
Qed.

Lemma bind_modify {B} (f : App -> App) (k : unit -> M B) a :
  bind (modify f) k a = k tt (f a).
Proof. reflexivity. Qed.

Lemma editor_kept_refl a : editor_kept a a.
Proof. repeat split. Qed.

Lemma editor_kept_trans a b c : editor_kept a b -> editor_kept b c -> editor_kept a c.
Proof. unfold editor_kept. intros (?&?&?) (?&?&?). repeat split; congruence. Qed.

Lemma editor_kept_page a p : editor_kept a (set_page p a).
Proof. repeat split. Qed.

Ltac kept_prim :=
  first [ apply respects_modify; intros ?; repeat split
        | unfold emit
        | unfold TextEditorComponent.toolbarState_set
        | unfold TextEditorComponent.set_savedRange ].

Ltac kept_frame :=
  frame_walk editor_kept_refl editor_kept_trans editor_kept_page kept_prim.

Lemma quiet_kept_refl a : quiet_kept a a.
Proof. split; [reflexivity|apply editor_kept_refl]. Qed.

Lemma quiet_kept_trans a b c : quiet_kept a b -> quiet_kept b c -> quiet_kept a c.
Proof.
  intros [T1 K1] [T2 K2]. split.
  - eapply trace_steady_trans; eassumption.
  - eapply editor_kept_trans; eassumption.
Qed.

Lemma quiet_kept_page a p : quiet_kept a (set_page p a).
Proof. split; [reflexivity|apply editor_kept_page]. Qed.

Ltac quiet_prim :=
  first [ apply respects_modify; intros ?; split; [reflexivity|repeat split]
        | unfold TextEditorComponent.set_savedRange ].

Ltac quiet_frame :=
  frame_walk quiet_kept_refl quiet_kept_trans quiet_kept_page quiet_prim.

Lemma updateToolbarState_kept (br : Browser) :
  respects editor_kept (TextEditorComponent.updateToolbarState br).
Proof. kept_frame. Qed.

Lemma updateActiveStates_trace (br : Browser) a a' :
  ToolbarService.updateActiveStates br a = (Ok tt, a') ->
  trace a' = trace a \/ trace a' = trace a ++ map EvQueryCommandState format_keys.
Proof.
  intros H.
  destruct (anchorNode (selection (page a))) as [an|] eqn:Han.
  2:{ rewrite updateActiveStates_outside in H by (intros an; congruence).
      injection H as <-. left. reflexivity. }
  destruct (ToolbarService.isContentEditable_walk (inclusive_ancestors (page a) an)) eqn:Hw.
  2:{ rewrite updateActiveStates_outside in H.
      - injection H as <-. left. reflexivity.
      - intros an' E. rewrite Han in E. injection E as <-. exact Hw. }
  right. destruct (updateActiveStates_probes br a a' an Han Hw H)
    as (z & b1 & b2 & b3 & b4 & b5 & b6 & H'). tauto.
Qed.

Lemma updateToolbarState_trace (br : Browser) a a' :
  TextEditorComponent.updateToolbarState br a = (Ok tt, a') ->
  trace a' = trace a \/ trace a' = trace a ++ map EvQueryCommandState format_keys.
Proof.
  intros H. unfold TextEditorComponent.updateToolbarState in H.
  rewrite bind_gets in H.
  destruct (te_editorRef (editor a)) as [el|]; [|injection H as <-; left; reflexivity].
  unfold getSelection in H. rewrite bind_gets, bind_gets in H.
  destruct (anchorNode (selection (page a))) as [an|];
    [|injection H as <-; left; reflexivity].
  destruct (contains (page a) el (Some an)); [|injection H as <-; left; reflexivity].
  unfold parentElement in H. rewrite bind_gets, bind_run in H.
  destruct (probeFontSize_pure br (node_id <$> parentNode (page a) an) a) as (z & Hz).
  rewrite Hz in H.
  apply probe_step in H as (b1 & Q1 & H).
  apply probe_step in H as (b2 & Q2 & H).
  apply probe_step in H as (b3 & Q3 & H).
  apply probe_step in H as (b4 & Q4 & H).
  apply probe_step in H as (b5 & Q5 & H).
  apply probe_step in H as (b6 & Q6 & H).
  unfold TextEditorComponent.toolbarState_set, modify in H. injection H as <-.
  right. unfold probed, format_keys. cbn [trace set_editor map]. rewrite <- !app_assoc.
  reflexivity.
Qed.

Lemma onInput_trace (br : Browser) (cleanup : string -> string) a a' el :
  te_editorRef (editor a) = Some el ->
  TextEditorComponent.onInput br cleanup a = (Ok tt, a') ->
  exists qs,
    trace a' = trace a ++ [EvOnChange (te_content (editor a'))] ++ qs /\
    (qs = [] \/ qs = map EvQueryCommandState format_keys) /\
    te_content (editor a') = cleanup (native_serialize br (node_kids (page a) el)).
Proof.
  intros Href H. unfold TextEditorComponent.onInput in H.
  rewrite nativeElement_step with (el := el) in H by exact Href.
  unfold get_innerHTML in H. rewrite bind_gets in H.
  unfold TextEditorComponent.set_content in H. rewrite bind_modify, bind_gets in H.
  unfold emit in H. rewrite bind_modify in H.
  cbn [editor set_editor te_content page trace service directive] in H.
  rewrite bind_run in H.
  destruct (native_onChange br _) as [[]|]; [|discriminate].
  match type of H with
  | bind _ _ ?s = _ => set (s1 := s) in *
  end.
  skip_head quiet_kept quiet_frame H K1.
  destruct K1 as [T1 (C1 & _ & _)]. unfold trace_steady in T1.
  pose proof (updateToolbarState_kept br a0) as K2. rewrite H in K2.
  destruct K2 as (C2 & _ & _). cbn [snd] in C2.
  apply updateToolbarState_trace in H.
  assert (Hc : te_content (editor a')
               = cleanup (native_serialize br (node_kids (page a) el))).
  { rewrite C2, C1. reflexivity. }
  rewrite Hc.
  destruct H as [H|H]; [exists []|exists (map EvQueryCommandState format_keys)];
    (split; [|split; [tauto|reflexivity]]); rewrite H, T1; unfold s1; cbn [trace];
    rewrite <- ?app_assoc; reflexivity.
Qed.

(** What a command that returns has called, in order.  [executeCommand]
    of the service: the flag up, [styleWithCSS] switched on, the command,
    the six formatting queries when the selection is in a surface, the
    flag down.  [execCommand] of the component on an enabled surface:
    focus on the editor element, [styleWithCSS] switched on, the command,
    the formatting queries, one [onChange] with the stored content, the
    formatting queries again.  The service never focuses and never
    reports a change; the component never pushes on [isUpdating]. *)
Theorem command_calls_in_order (br : Browser) (cleanup : string -> string) :
  (forall command value a a',
     ToolbarService.executeCommand br command value a = (Ok tt, a') ->
     exists qs,
       trace a' = trace a ++ [EvIsUpdating true; EvExecCommand "styleWithCSS" "true";
                              EvExecCommand command value] ++ qs ++ [EvIsUpdating false] /\
       (qs = [] \/ qs = map EvQueryCommandState format_keys)) /\
  (forall command value a a' el,
     te_isDisabled (editor a) = false ->
     te_editorRef (editor a) = Some el ->
     TextEditorComponent.execCommand br cleanup command value a = (Ok tt, a') ->
     exists qs1 qs2,
       trace a' = trace a ++ [EvFocus el; EvExecCommand "styleWithCSS" "true";
                              EvExecCommand command value] ++ qs1
                          ++ [EvOnChange (te_content (editor a'))] ++ qs2 /\
       (qs1 = [] \/ qs1 = map EvQueryCommandState format_keys) /\
       (qs2 = [] \/ qs2 = map EvQueryCommandState format_keys)).
Proof.
  split.
  - intros command value a a' H. unfold ToolbarService.executeCommand in H.
    apply bind_Ok_inv in H as ([] & a0 & H0 & H).
    assert (T0 : trace a0 = trace a ++ [EvIsUpdating true]).
    { unfold ToolbarService.isUpdating_next, emit in H0. cbv [bind modify] in H0.
      injection H0 as <-. reflexivity. }
    apply try_finally_Ok_inv in H as (a1 & H & Hfin).
    assert (Tfin : trace a' = trace a1 ++ [EvIsUpdating false]).
    { unfold ToolbarService.isUpdating_next, emit in Hfin. cbv [bind modify] in Hfin.
      injection Hfin as <-. reflexivity. }
    skip_head trace_steady trace_frame H T1.
    apply execCommand_step in H as (a3 & T3 & _ & H).
    apply execCommand_step in H as (a4 & T4 & _ & H).
    skip_head trace_steady trace_frame H T5.
    apply updateActiveStates_trace in H. unfold trace_steady in *.
    destruct H as [H|H]; [exists []|exists (map EvQueryCommandState format_keys)];
      (split; [|tauto]); rewrite Tfin, H, T5, T4, T3, T1, T0, <- !app_assoc; reflexivity.
  - intros command value a a' el Hen Href H. unfold TextEditorComponent.execCommand in H.
    rewrite bind_gets, Hen in H.
    skip_head quiet_kept quiet_frame H K0.
    destruct K0 as [T0 (_ & _ & R0)]. unfold trace_steady in T0.
    rewrite nativeElement_step with (el := el) in H by congruence.
    rewrite focus_step in H.
    apply execCommand_step in H as (a3 & T3 & E3 & H).
    apply execCommand_step in H as (a4 & T4 & E4 & H).
    cbn [trace editor] in T3, E3.
    skip_head quiet_kept quiet_frame H K5.
    destruct K5 as [T5 (_ & _ & R5)]. unfold trace_steady in T5.
    apply bind_Ok_inv in H as ([] & a6 & H6 & H).
    pose proof (updateToolbarState_kept br a1) as K6. rewrite H6 in K6.
    destruct K6 as (_ & _ & R6). cbn [snd] in R6.
    apply updateToolbarState_trace in H6.
    destruct (onInput_trace br cleanup a6 a' el) as (qs2 & T7 & Hq2 & _); [congruence|exact H|].
    destruct H6 as [H6|H6]; [exists []|exists (map EvQueryCommandState format_keys)];
      exists qs2; (split; [|tauto]); rewrite T7, H6, T5, T4, T3, T0, <- !app_assoc;
      reflexivity.
Qed.

Lemma command_calls_in_order_witness :
  (exists qs,
     trace (snd (ToolbarService.executeCommand Scenario.quiet "bold" "" Scenario.selected))
     = trace Scenario.selected
       ++ [EvIsUpdating true; EvExecCommand "styleWithCSS" "true"; EvExecCommand "bold" ""]
       ++ qs ++ [EvIsUpdating false] /\
     (qs = [] \/ qs = map EvQueryCommandState format_keys)) /\
  (exists qs1 qs2,
     let a' := snd (TextEditorComponent.execCommand Scenario.quiet (fun s => s) "bold" ""
                      Scenario.selected) in
     trace a'
     = trace Scenario.selected
       ++ [EvFocus 2; EvExecCommand "styleWithCSS" "true"; EvExecCommand "bold" ""] ++ qs1
       ++ [EvOnChange (te_content (editor a'))] ++ qs2 /\
     (qs1 = [] \/ qs1 = map EvQueryCommandState format_keys) /\
     (qs2 = [] \/ qs2 = map EvQueryCommandState format_keys)).
Proof.
  split.
  - apply (proj1 (command_calls_in_order Scenario.quiet (fun s => s)) "bold" ""
             Scenario.selected).
    vm_compute. reflexivity.
  - apply (proj2 (command_calls_in_order Scenario.quiet (fun s => s)) "bold" ""
             Scenario.selected _ 2).
    + reflexivity.
    + reflexivity.
    + vm_compute. reflexivity.
Defined.

(** ** The steppers after an exact size *)

(** The steps of the floating toolbar start from the exact size.  Once
    [setFontSize(s)] of the service has returned, the stored size is [s]
    itself, so [changeFontSize(delta)] asks for [s + delta] when this is
    at least 1 and does nothing otherwise. *)
Theorem toolbar_step_after_exact_size (br : Browser) (s delta : float) (a a' : App) :
  ToolbarService.setFontSize br s a = (Ok tt, a') ->
  FloatingToolbarComponent.getCurrentFontSize a' = (Ok s, a') /\
  FloatingToolbarComponent.changeFontSize br delta a'
  = if ge1 (s + delta)%float then ToolbarService.setFontSize br (s + delta)%float a'
    else (Ok tt, a').
Proof.
  intros H. apply service_setFontSize_states in H.
  assert (Hs : FloatingToolbarComponent.getCurrentFontSize a' = (Ok s, a')).
  { unfold FloatingToolbarComponent.getCurrentFontSize, gets.
    rewrite H, lookup_insert_eq. reflexivity. }
  split; [exact Hs|].
  unfold FloatingToolbarComponent.changeFontSize. rewrite bind_run, Hs.
  destruct (ge1 (s + delta)%float); reflexivity.
Qed.

Lemma toolbar_step_after_exact_size_witness :
  let a' := snd (ToolbarService.setFontSize Scenario.quiet 18 Scenario.selected) in
  FloatingToolbarComponent.getCurrentFontSize a' = (Ok 18%float, a') /\
  FloatingToolbarComponent.changeFontSize Scenario.quiet 1 a'
  = if ge1 (18 + 1)%float then ToolbarService.setFontSize Scenario.quiet (18 + 1)%float a'
    else (Ok tt, a').
Proof.
  apply (toolbar_step_after_exact_size Scenario.quiet 18 1 Scenario.selected).
  vm_compute. reflexivity.
Defined.

(** ** The font size on a disabled surface *)

Lemma component_restoreSelection_returns a :
  exists a0, TextEditorComponent.restoreSelection a = (Ok tt, a0) /\ trace a0 = trace a.
Proof.
  unfold TextEditorComponent.restoreSelection, getSelection, sel_removeAllRanges, sel_addRange,
    on_page.
  cbv [bind gets modify]. destruct (te_savedRange (editor a)); eexists; split; reflexivity.
Qed.

Lemma execCommand_run {B} (br : Browser) (name value : string) (k : unit -> M B) a :
  bind (document_execCommand br name value) k a
  = match native_execCommand br name value (page a) with
    | (Ok _, p') =>
        k tt (mk_App p' (service a) (editor a) (directive a)
                     (trace a ++ [EvExecCommand name value]))
    | (Throw e, p') =>
        (Throw e, mk_App p' (service a) (editor a) (directive a)
                         (trace a ++ [EvExecCommand name value]))
    end.
Proof.
  unfold document_execCommand, emit. cbv [bind modify]. cbn [page].
  destruct (native_execCommand br name value (page a)) as [[[]|e] p']; reflexivity.
Qed.

(** [setFontSize] of the component does not look at [isDisabled].  On
    every state, a disabled surface included, its first step after
    restoring the selection is the native call
    [execCommand('styleWithCSS', false, 'false')]. *)
Theorem component_setFontSize_unguarded
    (br : Browser) (cleanup : string -> string) (size : float) (a : App) :
  exists evs,
    trace (snd (TextEditorComponent.setFontSize br cleanup size a))
    = trace a ++ EvExecCommand "styleWithCSS" "false" :: evs.
Proof.
  unfold TextEditorComponent.setFontSize. rewrite bind_run.
  destruct (component_restoreSelection_returns a) as (a0 & -> & T0).
  match goal with
  | |- context [bind (document_execCommand br "styleWithCSS" "false") ?k] =>
      assert (Hk : forall x, respects flag_steady (k x)) by (intros x; flag_frame)
  end.
  rewrite execCommand_run.
  destruct (native_execCommand br "styleWithCSS" "false" (page a0)) as [[[]|e] p'].
  - match goal with
    | |- context [snd (?m ?s)] =>
        destruct (Hk tt s) as [_ (evs & Hevs & _)]; rewrite Hevs
    end.
    cbn [trace]. rewrite T0, <- app_assoc. exists evs. reflexivity.
  - cbn [snd trace]. rewrite T0. exists []. reflexivity.
Qed.

(** ** The format state of the component, key by key *)

Lemma probe_run {B} (br : Browser) (key : string) (k : unit -> M B) a :
  bind (TextEditorComponent.probeState br key) k a
  = match native_queryCommandState br key (page a) with
    | Ok b => k tt (probed key b a)
    | Throw e => (Throw e, asked key a)
    end.
Proof.
  unfold TextEditorComponent.probeState, TextEditorComponent.toolbarState_set,
    document_queryCommandState, emit, probed, asked.
  cbv [bind modify]. cbn [page].
  destruct (native_queryCommandState br key (page a)); reflexivity.
Qed.

(** The component stores the answers of the formatting queries one by
    one.  When the query for bold answers and the one for italics raises,
    [updateToolbarState] raises that error with the answer for bold
    already stored and the other keys as they were: unlike the service,
    the component can be left with a format state that is half new. *)
Theorem component_state_updated_key_by_key
    (br : Browser) (a : App) (el an : nid) (b : bool) (e : string) :
  te_editorRef (editor a) = Some el ->
  anchorNode (selection (page a)) = Some an ->
  contains (page a) el (Some an) = true ->
  native_queryCommandState br "bold" (page a) = Ok b ->
  native_queryCommandState br "italic" (page a) = Throw e ->
  exists a',
    TextEditorComponent.updateToolbarState br a = (Throw e, a') /\
    te_toolbarState (editor a') = <["bold" := VBool b]> (te_toolbarState (editor a)).
Proof.
  intros Href Han Hin Hb Hi. unfold TextEditorComponent.updateToolbarState.
  rewrite bind_gets, Href. unfold getSelection. rewrite bind_gets, bind_gets, Han, Hin.
  unfold parentElement. rewrite bind_gets, bind_run.
  destruct (probeFontSize_pure br (node_id <$> parentNode (page a) an) a) as (z & ->).
  rewrite probe_run, Hb, probe_run. cbn [probed page]. rewrite Hi.
  eexists. split; reflexivity.
Qed.

Lemma component_state_updated_key_by_key_witness :
  exists a',
    TextEditorComponent.updateToolbarState Scenario.italic_fails Scenario.selected
    = (Throw "InvalidStateError", a') /\
    te_toolbarState (editor a')
    = <["bold" := VBool true]> (te_toolbarState (editor Scenario.selected)).
Proof.
  apply (component_state_updated_key_by_key Scenario.italic_fails Scenario.selected 2 3 true
           "InvalidStateError"); reflexivity.
Defined.

(** ** Disabling the editor, seen from the service *)

Lemma first_path_map (f g : node -> list node) (h : node -> node) l :
  (forall k, k ∈ l -> f (h k) = map h (g k)) ->
  first_path f (map h l) = map h (first_path g l).
Proof.
  induction l as [|k l IH]; intros H; [reflexivity|].
  cbn [map first_path]. rewrite (H k ltac:(left)).
  destruct (g k) as [|x p]; cbn [map]; [|reflexivity].
  apply IH. intros k' Hk'. apply H. right. exact Hk'.
Qed.

Lemma path_to_alter i el g n :
  path_to i (alter_node el g n) = map (alter_node el g) (path_to i n).
Proof.
  induction n as [j s|j e ks IH] using node_ind';
    [cbn; destruct (j =? i); reflexivity|].
  cbn [alter_node]. rewrite !path_to_Elem.
  destruct (j =? i); [reflexivity|].
  rewrite (first_path_map (path_to i) (path_to i) (alter_node el g) ks).
  - destruct (first_path (path_to i) ks); reflexivity.
  - intros k Hk. rewrite Forall_forall in IH. exact (IH k Hk).
Qed.

Lemma inclusive_ancestors_alter el g p i :
  inclusive_ancestors (alter_element el g p) i
  = map (alter_node el g) (inclusive_ancestors p i).
Proof.
  unfold inclusive_ancestors, forest_path, alter_element. rewrite trees_on_trees.
  rewrite (first_path_map (path_to i) (path_to i) (alter_node el g) (trees p)).
  - rewrite map_rev. reflexivity.
  - intros k _. apply path_to_alter.
Qed.

Lemma walk_reaches_surface' (pre : list node) (s : node) (rest : list node) :
  Forall (fun n => is_closed n = false \/ is_surface n = true) pre ->
  is_surface s = true ->
  ToolbarService.isContentEditable_walk (pre ++ s :: rest) = true.
Proof.
  intros Hpre Hs. induction Hpre as [|n pre Hn _ IH]; cbn [app].
  - destruct s as [|i e ks]; [discriminate|].
    cbn [is_surface] in Hs. cbn [ToolbarService.isContentEditable_walk]. rewrite Hs. reflexivity.
  - destruct n as [|i e ks]; cbn [ToolbarService.isContentEditable_walk]; [exact IH|].
    cbn [is_closed is_surface] in Hn.
    destruct (bool_decide (getAttribute "contenteditable" e = Some "true")); [reflexivity|].
    destruct Hn as [Hn|Hn]; [|discriminate].
    apply orb_false_iff in Hn as [H1 H2]. rewrite H1, H2. exact IH.
Qed.

Lemma surface_with_contenteditable i e ks v :
  is_surface (Elem i (with_contenteditable v e) ks) = bool_decide (v = "true").
Proof.
  unfold is_surface, getAttribute, with_contenteditable. cbn [attrs].
  rewrite lookup_insert_eq. apply bool_decide_ext. split; congruence.
Qed.

Lemma closed_with_contenteditable_false i e ks :
  is_closed (Elem i (with_contenteditable "false" e) ks) = true.
Proof.
  unfold is_closed, getAttribute, with_contenteditable. cbn [attrs].
  rewrite lookup_insert_eq. reflexivity.
Qed.

Lemma setDisabledState_page (d : bool) a el :
  te_editorRef (editor a) = Some el ->
  TextEditorComponent.setDisabledState d a
  = (Ok tt,
     mk_App (alter_element el (with_contenteditable (if d then "false" else "true")) (page a))
            (service a)
            (mk_TextEditorComponent (te_content (editor a)) d (te_savedRange (editor a))
               (te_toolbarState (editor a)) (te_editorRef (editor a)))
            (directive a) (trace a)).
Proof.
  intros Href. unfold TextEditorComponent.setDisabledState, TextEditorComponent.set_isDisabled.
  rewrite bind_modify, bind_gets. cbn [editor set_editor te_editorRef]. rewrite Href.
  reflexivity.
Qed.

Lemma hostContentEditable_page (d : bool) a :
  (RichTextDirective.setDisabledState d ;; RichTextDirective.hostContentEditable) a
  = (Ok tt,
     mk_App (alter_element (rt_el (directive a))
               (with_contenteditable (if d then "false" else "true")) (page a))
            (service a) (editor a)
            (mk_RichTextDirective d (rt_el (directive a))) (trace a)).
Proof.
  unfold RichTextDirective.setDisabledState, RichTextDirective.hostContentEditable.
  rewrite bind_modify. unfold modify. cbn [directive set_directive rt_isDisabled rt_el page].
  reflexivity.
Qed.

Lemma closed_after_alter p el n pre e ks rest :
  inclusive_ancestors p n = pre ++ Elem el e ks :: rest ->
  Forall (fun x => is_surface x = false) pre ->
  ToolbarService.isContentEditable_walk
    (inclusive_ancestors (alter_element el (with_contenteditable "false") p) n) = false.
Proof.
  intros Hchain Hpre.
  rewrite inclusive_ancestors_alter, Hchain, map_app. cbn [map alter_node].
  rewrite Nat.eqb_refl. apply walk_stops_before_surface.
  - apply Forall_fmap. eapply Forall_impl; [exact Hpre|].
    intros [i s|i e0 ks0] Hx; [reflexivity|]. cbn [alter_node compose].
    destruct (i =? el); [|exact Hx].
    rewrite (surface_with_contenteditable i e0 _ "false"). reflexivity.
  - right. eexists _, _. split; [reflexivity|]. split.
    + rewrite (surface_with_contenteditable el e _ "false"). reflexivity.
    + apply closed_with_contenteditable_false.
Qed.

Lemma open_after_alter p el n pre e ks rest :
  inclusive_ancestors p n = pre ++ Elem el e ks :: rest ->
  Forall (fun x => is_closed x = false) pre ->
  ToolbarService.isContentEditable_walk
    (inclusive_ancestors (alter_element el (with_contenteditable "true") p) n) = true.
Proof.
  intros Hchain Hpre.
  rewrite inclusive_ancestors_alter, Hchain, map_app. cbn [map alter_node].
  rewrite Nat.eqb_refl. apply walk_reaches_surface'.
  - apply Forall_fmap. eapply Forall_impl; [exact Hpre|].
    intros [i s|i e0 ks0] Hx; [left; reflexivity|]. cbn [alter_node compose].
    destruct (i =? el); [|left; exact Hx].
    right. rewrite (surface_with_contenteditable i e0 _ "true"). reflexivity.
  - rewrite (surface_with_contenteditable el e _ "true"). reflexivity.
Qed.

Lemma saveSelection_on_closed a n :
  ToolbarService.isContentEditable_walk (inclusive_ancestors (page a) n) = false ->
  forall r, sel_range (selection (page a)) = Some r ->
            commonAncestorContainer (page a) r = Some n ->
            ToolbarService.saveSelection a = (Ok tt, a).
Proof.
  intros Hw r Hr Hc. apply service_saveSelection_skips.
  intros r' c' Hr' Hc'. rewrite Hr in Hr'. injection Hr' as <-.
  rewrite Hc in Hc'. injection Hc' as <-. exact Hw.
Qed.

(** The disabled flag reaches the shared service through the document.
    [setDisabledState(true)] of the editor component writes
    [contenteditable="false"] on the editor element, and so does the
    host binding of the directive once its flag is set: from any node
    below the element with no editable surface in between, the walk of
    the service now ends closed, and the service does not save a
    selection there.  With [false] they write [contenteditable="true"]:
    the walk from any node below the element with no closed region in
    between ends on a surface. *)
Theorem disabled_editor_is_closed_to_the_service :
  (forall a el n pre e ks rest,
     te_editorRef (editor a) = Some el ->
     inclusive_ancestors (page a) n = pre ++ Elem el e ks :: rest ->
     Forall (fun x => is_surface x = false) pre ->
     let a' := snd (TextEditorComponent.setDisabledState true a) in
     te_isDisabled (editor a') = true /\
     ToolbarService.isContentEditable_walk (inclusive_ancestors (page a') n) = false /\
     (forall r, sel_range (selection (page a')) = Some r ->
                commonAncestorContainer (page a') r = Some n ->
                ToolbarService.saveSelection a' = (Ok tt, a'))) /\
  (forall a el n pre e ks rest,
     te_editorRef (editor a) = Some el ->
     inclusive_ancestors (page a) n = pre ++ Elem el e ks :: rest ->
     Forall (fun x => is_closed x = false) pre ->
     let a' := snd (TextEditorComponent.setDisabledState false a) in
     te_isDisabled (editor a') = false /\
     ToolbarService.isContentEditable_walk (inclusive_ancestors (page a') n) = true) /\
  (forall a n pre e ks rest,
     inclusive_ancestors (page a) n = pre ++ Elem (rt_el (directive a)) e ks :: rest ->
     Forall (fun x => is_surface x = false) pre ->
     let a' := snd ((RichTextDirective.setDisabledState true ;;
                     RichTextDirective.hostContentEditable) a) in
     rt_isDisabled (directive a') = true /\
     ToolbarService.isContentEditable_walk (inclusive_ancestors (page a') n) = false /\
     (forall r, sel_range (selection (page a')) = Some r ->
                commonAncestorContainer (page a') r = Some n ->
                ToolbarService.saveSelection a' = (Ok tt, a'))) /\
  (forall a n pre e ks rest,
     inclusive_ancestors (page a) n = pre ++ Elem (rt_el (directive a)) e ks :: rest ->
     Forall (fun x => is_closed x = false) pre ->
     let a' := snd ((RichTextDirective.setDisabledState false ;;
                     RichTextDirective.hostContentEditable) a) in
     rt_isDisabled (directive a') = false /\
     ToolbarService.isContentEditable_walk (inclusive_ancestors (page a') n) = true).
Proof.
  split; [|split; [|split]].
  - intros a el n pre e ks rest Href Hchain Hpre. cbv zeta.
    rewrite (setDisabledState_page _ a el Href). cbn [snd editor te_isDisabled page].
    split; [reflexivity|].
    pose proof (closed_after_alter _ _ _ _ _ _ _ Hchain Hpre) as Hw.
    split; [exact Hw|].
    match goal with
    | |- forall r, _ -> _ -> ToolbarService.saveSelection ?s = _ =>
        apply (saveSelection_on_closed s n); exact Hw
    end.
  - intros a el n pre e ks rest Href Hchain Hpre. cbv zeta.
    rewrite (setDisabledState_page _ a el Href). cbn [snd editor te_isDisabled page].
    split; [reflexivity|]. exact (open_after_alter _ _ _ _ _ _ _ Hchain Hpre).
  - intros a n pre e ks rest Hchain Hpre. cbv zeta.
    rewrite hostContentEditable_page. cbn [snd directive rt_isDisabled page].
    split; [reflexivity|].
    pose proof (closed_after_alter _ _ _ _ _ _ _ Hchain Hpre) as Hw.
    split; [exact Hw|].
    match goal with
    | |- forall r, _ -> _ -> ToolbarService.saveSelection ?s = _ =>
        apply (saveSelection_on_closed s n); exact Hw
    end.
  - intros a n pre e ks rest Hchain Hpre. cbv zeta.
    rewrite hostContentEditable_page. cbn [snd directive rt_isDisabled page].
    split; [reflexivity|]. exact (open_after_alter _ _ _ _ _ _ _ Hchain Hpre).
Qed.

Lemma disabled_editor_is_closed_to_the_service_witness :
  (let a' := snd (TextEditorComponent.setDisabledState true Scenario.selected) in
   te_isDisabled (editor a') = true /\
   ToolbarService.isContentEditable_walk (inclusive_ancestors (page a') 3) = false /\
   ToolbarService.saveSelection a' = (Ok tt, a')) /\
  (let a' := snd (TextEditorComponent.setDisabledState false Scenario.disabled) in
   te_isDisabled (editor a') = false /\
   ToolbarService.isContentEditable_walk (inclusive_ancestors (page a') 3) = true) /\
  (let a' := snd ((RichTextDirective.setDisabledState true ;;
                   RichTextDirective.hostContentEditable) Scenario.selected) in
   rt_isDisabled (directive a') = true /\
   ToolbarService.isContentEditable_walk (inclusive_ancestors (page a') 3) = false /\
   ToolbarService.saveSelection a' = (Ok tt, a')) /\
  (let a' := snd ((RichTextDirective.setDisabledState false ;;
                   RichTextDirective.hostContentEditable) Scenario.disabled) in
   rt_isDisabled (directive a') = false /\
   ToolbarService.isContentEditable_walk (inclusive_ancestors (page a') 3) = true).
Proof.
  pose proof disabled_editor_is_closed_to_the_service as (T1 & T2 & T3 & T4).
  split; [|split; [|split]].
  - destruct (T1 Scenario.selected 2 3 [Text 3 "hello"] (Scenario.surface "true")
                [Text 3 "hello"] (tl (tl (inclusive_ancestors (page Scenario.selected) 3)))
                eq_refl eq_refl) as (H1 & H2 & H3).
    + repeat constructor.
    + split; [exact H1|]. split; [exact H2|].
      apply (H3 Scenario.hello_range); vm_compute; reflexivity.
  - apply (T2 Scenario.disabled 2 3 [Text 3 "hello"] (Scenario.surface "false")
             [Text 3 "hello"] (tl (tl (inclusive_ancestors (page Scenario.disabled) 3)))
             eq_refl eq_refl).
    repeat constructor.
  - destruct (T3 Scenario.selected 3 [Text 3 "hello"] (Scenario.surface "true")
                [Text 3 "hello"] (tl (tl (inclusive_ancestors (page Scenario.selected) 3)))
                eq_refl) as (H1 & H2 & H3).
    + repeat constructor.
    + split; [exact H1|]. split; [exact H2|].
      apply (H3 Scenario.hello_range); vm_compute; reflexivity.
  - apply (T4 Scenario.disabled 3 [Text 3 "hello"] (Scenario.surface "false")
             [Text 3 "hello"] (tl (tl (inclusive_ancestors (page Scenario.disabled) 3)))
             eq_refl).
    repeat constructor.
Defined.

(** ** The text under the rewrite *)

Lemma string_app_assoc (s1 s2 s3 : string) : ((s1 ++ s2) ++ s3 = s1 ++ (s2 ++ s3))%string.
Proof.
  induction s1 as [|c s1 IH]; [reflexivity|].
  change (String c ((s1 ++ s2) ++ s3) = String c (s1 ++ (s2 ++ s3)))%string.
  f_equal. exact IH.
Qed.

Lemma string_app_nil_r (s : string) : (s ++ "" = s)%string.
Proof.
  induction s as [|c s IH]; [reflexivity|].
  change (String c (s ++ "") = String c s)%string. f_equal. exact IH.
Qed.

Lemma textContent_Elem i e ks : textContent (Elem i e ks) = forest_text ks.
Proof. reflexivity. Qed.

Lemma forest_text_cons k ks : forest_text (k :: ks) = (textContent k ++ forest_text ks)%string.
Proof. reflexivity. Qed.

Lemma forest_text_app l r : forest_text (l ++ r) = (forest_text l ++ forest_text r)%string.
Proof.
  induction l as [|k l IH]; [reflexivity|].
  cbn [app]. rewrite !forest_text_cons, IH, string_app_assoc. reflexivity.
Qed.

Lemma forest_text_one k : forest_text [k] = textContent k.
Proof. rewrite forest_text_cons. apply string_app_nil_r. Qed.





Lemma textContent_relabel n : forall next, textContent (fst (relabel next n)) = textContent n.
Proof.
  induction n as [j s|j e ks IH] using node_ind'; intros next; [reflexivity|].
  rewrite relabel_Elem. cbn [fst]. rewrite !textContent_Elem.
  generalize (S next). induction IH as [|k ks Hk _ IHks]; intros nx; [reflexivity|].
  rewrite relabel_list_cons. cbn [fst]. rewrite !forest_text_cons, Hk, IHks. reflexivity.
Qed.

Lemma forest_text_relabel ks : forall next,
  forest_text (fst (relabel_list next ks)) = forest_text ks.
Proof.
  induction ks as [|k ks IH]; intros next; [reflexivity|].
  rewrite relabel_list_cons. cbn [fst]. rewrite !forest_text_cons, textContent_relabel, IH.
  reflexivity.
Qed.








(** ** The standard path *)



(** ** The handlers of the directive *)

Lemma sbind_lift_gets {A B} (f : App -> A) (k : A -> MS B) st :
  sbind (lift (gets f)) k st = k (f (stage_app st)) st.
Proof. unfold sbind, lift, gets. destruct st; reflexivity. Qed.

Lemma sbind_lift {A B} (m : M A) (k : A -> MS B) st :
  sbind (lift m) k st
  = match m (stage_app st) with
    | (Ok x, a') => k x (mk_Stage a' (isVisible st) (position st))
    | (Throw e, a') => (Throw e, mk_Stage a' (isVisible st) (position st))
    end.
Proof. unfold sbind, lift. destruct (m (stage_app st)) as [[x|e] a']; reflexivity. Qed.

Lemma service_saveSelection_returns a :
  exists a', ToolbarService.saveSelection a = (Ok tt, a') /\
             page a' = page a /\ trace a' = trace a /\
             ts_isUpdating (service a') = ts_isUpdating (service a) /\
             ts_activeStates (service a') = ts_activeStates (service a).
Proof.
  unfold ToolbarService.saveSelection, getSelection. cbv [bind gets].
  destruct (0 <? rangeCount (selection (page a))); [|eexists; repeat split].
  destruct (getRangeAt0 (selection (page a))) as [r|]; [|eexists; repeat split].
  cbv [bind gets ToolbarService.isContentEditable].
  destruct (commonAncestorContainer (page a) r) as [c|]; [|eexists; repeat split].
  destruct (ToolbarService.isContentEditable_walk _); eexists; repeat split.
Qed.

(** Events the directive ignores.  While the service is updating,
    [checkSelection] changes nothing at all, and [onInput] only hands the
    markup of the host element to [onChange]: the saved range is left
    alone.  With no range in the window, or with a range whose common
    ancestor is not in the host element (the caret in the toolbar's own
    input, say), [checkSelection] changes nothing either: the toolbar is
    neither hidden nor moved. *)
Theorem directive_ignores (br : Browser) (ly : Layout) :
  (forall st,
     ts_isUpdating (service (stage_app st)) = true ->
     RichTextHandlers.checkSelection br ly st = (Ok tt, st)) /\
  (forall a,
     ts_isUpdating (service a) = true ->
     snd (RichTextHandlers.onInput br a)
     = mk_App (page a) (service a) (editor a) (directive a)
              (trace a ++ [EvOnChange (native_serialize br
                                         (node_kids (page a) (rt_el (directive a))))])) /\
  (forall st,
     sel_range (selection (page (stage_app st))) = None ->
     RichTextHandlers.checkSelection br ly st = (Ok tt, st)) /\
  (forall st r,
     sel_range (selection (page (stage_app st))) = Some r ->
     contains (page (stage_app st)) (rt_el (directive (stage_app st)))
              (commonAncestorContainer (page (stage_app st)) r) = false ->
     RichTextHandlers.checkSelection br ly st = (Ok tt, st)).
Proof.
  split; [|split; [|split]].
  - intros st Hb. unfold RichTextHandlers.checkSelection.
    rewrite sbind_lift_gets, Hb. reflexivity.
  - intros a Hb. unfold RichTextHandlers.onInput.
    rewrite bind_gets. unfold get_innerHTML. rewrite bind_gets.
    unfold emit. rewrite bind_modify, bind_run.
    destruct (native_onChange br _) as [[]|]; [|reflexivity].
    rewrite bind_gets. cbn [service]. rewrite Hb. reflexivity.
  - intros st Hr. unfold RichTextHandlers.checkSelection.
    rewrite sbind_lift_gets.
    destruct (ts_isUpdating (service (stage_app st))); [reflexivity|].
    unfold getSelection. rewrite sbind_lift_gets. unfold rangeCount. rewrite Hr. reflexivity.
  - intros st r Hr Hc. unfold RichTextHandlers.checkSelection.
    rewrite sbind_lift_gets.
    destruct (ts_isUpdating (service (stage_app st))); [reflexivity|].
    unfold getSelection. rewrite sbind_lift_gets. unfold rangeCount, getRangeAt0. rewrite Hr.
    cbn [Nat.eqb]. rewrite !sbind_lift_gets, Hc. reflexivity.
Qed.

Lemma directive_ignores_witness :
  RichTextHandlers.checkSelection Scenario.quiet Scenario.still (Scenario.on_stage Scenario.busy)
  = (Ok tt, Scenario.on_stage Scenario.busy) /\
  snd (RichTextHandlers.onInput Scenario.quiet Scenario.busy)
  = mk_App (page Scenario.busy) (service Scenario.busy) (editor Scenario.busy)
           (directive Scenario.busy)
           (trace Scenario.busy
            ++ [EvOnChange (native_serialize Scenario.quiet
                              (node_kids (page Scenario.busy) (rt_el (directive Scenario.busy))))]) /\
  RichTextHandlers.checkSelection Scenario.quiet Scenario.still (Scenario.on_stage Scenario.hello)
  = (Ok tt, Scenario.on_stage Scenario.hello) /\
  RichTextHandlers.checkSelection Scenario.quiet Scenario.still
    (Scenario.on_stage Scenario.in_toolbar)
  = (Ok tt, Scenario.on_stage Scenario.in_toolbar).
Proof.
  pose proof (directive_ignores Scenario.quiet Scenario.still) as (H1 & H2 & H3 & H4).
  split; [|split; [|split]].
  - apply H1. reflexivity.
  - apply H2. reflexivity.
  - apply H3. reflexivity.
  - eapply H4; vm_compute; reflexivity.
Defined.

(** A caret hides the toolbar, a selection shows it.  With the service
    idle and the range inside the host element: a collapsed selection
    hides the toolbar and does nothing else, the saved range included; a
    selection that is not collapsed is offered to [saveSelection], and
    when its rectangle has a positive width the toolbar is made visible
    at the top left corner of the host element plus the scroll offsets,
    wherever the selection is, before the format state is probed. *)
Theorem directive_places_the_toolbar (br : Browser) (ly : Layout) :
  (forall st r,
     ts_isUpdating (service (stage_app st)) = false ->
     sel_range (selection (page (stage_app st))) = Some r ->
     contains (page (stage_app st)) (rt_el (directive (stage_app st)))
              (commonAncestorContainer (page (stage_app st)) r) = true ->
     isCollapsed (selection (page (stage_app st))) = true ->
     RichTextHandlers.checkSelection br ly st
     = (Ok tt, mk_Stage (stage_app st) false (position st))) /\
  (forall st r,
     ts_isUpdating (service (stage_app st)) = false ->
     sel_range (selection (page (stage_app st))) = Some r ->
     contains (page (stage_app st)) (rt_el (directive (stage_app st)))
              (commonAncestorContainer (page (stage_app st)) r) = true ->
     isCollapsed (selection (page (stage_app st))) = false ->
     exists a1,
       ToolbarService.saveSelection (stage_app st) = (Ok tt, a1) /\
       RichTextHandlers.checkSelection br ly st
       = if (0 <? rect_width (range_rect ly (page (stage_app st)) r))%float
         then
           let corner := element_rect ly (page (stage_app st)) (rt_el (directive (stage_app st))) in
           (fst (ToolbarService.updateActiveStates br a1),
            mk_Stage (snd (ToolbarService.updateActiveStates br a1)) true
              (mk_ToolbarPosition (rect_top corner + window_scrollY ly)%float
                                  (rect_left corner + window_scrollX ly)%float))
         else (Ok tt, mk_Stage a1 (isVisible st) (position st))).
Proof.
  split.
  - intros st r Hb Hr Hc Hcol. unfold RichTextHandlers.checkSelection.
    rewrite sbind_lift_gets, Hb. unfold getSelection. rewrite sbind_lift_gets.
    unfold rangeCount, getRangeAt0. rewrite Hr. cbn [Nat.eqb].
    rewrite !sbind_lift_gets, Hc, Hcol. reflexivity.
  - intros st r Hb Hr Hc Hcol.
    destruct (service_saveSelection_returns (stage_app st)) as (a1 & Hs & Hp & _).
    exists a1. split; [exact Hs|].
    unfold RichTextHandlers.checkSelection.
    rewrite sbind_lift_gets, Hb. unfold getSelection. rewrite sbind_lift_gets.
    unfold rangeCount, getRangeAt0. rewrite Hr. cbn [Nat.eqb].
    rewrite !sbind_lift_gets, Hc, Hcol. cbn [negb].
    rewrite !sbind_lift_gets, sbind_lift, Hs.
    destruct (0 <? rect_width (range_rect ly (page (stage_app st)) r))%float; [|reflexivity].
    unfold ToolbarPlacement.show, position_next, isVisible_next, sbind, lift.
    cbn [stage_app isVisible position].
    destruct (ToolbarService.updateActiveStates br a1) as [res a2]. reflexivity.
Qed.

Lemma directive_places_the_toolbar_witness :
  RichTextHandlers.checkSelection Scenario.quiet Scenario.still (Scenario.on_stage Scenario.caret)
  = (Ok tt, mk_Stage Scenario.caret false (mk_ToolbarPosition 0 0)) /\
  exists a1,
    ToolbarService.saveSelection Scenario.selected = (Ok tt, a1) /\
    RichTextHandlers.checkSelection Scenario.quiet Scenario.still
      (Scenario.on_stage Scenario.selected)
    = (fst (ToolbarService.updateActiveStates Scenario.quiet a1),
       mk_Stage (snd (ToolbarService.updateActiveStates Scenario.quiet a1)) true
         (mk_ToolbarPosition (100 + 0)%float (50 + 0)%float)).
Proof.
  pose proof (directive_places_the_toolbar Scenario.quiet Scenario.still) as (H1 & H2).
  split.
  - eapply H1; vm_compute; reflexivity.
  - apply (H2 (Scenario.on_stage Scenario.selected) Scenario.hello_range);
      vm_compute; reflexivity.
Defined.

(** ** Empty lines *)

Lemma block_ids_app l r : block_ids (l ++ r) = block_ids l ++ block_ids r.
Proof. unfold block_ids. rewrite flat_map_app, List.filter_app, map_app. reflexivity. Qed.

Lemma block_ids_Elem i e ks :
  block_ids [Elem i e ks] = (if is_block (Elem i e ks) then [i] else []) ++ block_ids ks.
Proof.
  unfold block_ids. cbn [flat_map subtree]. rewrite app_nil_r. cbn [List.filter].
  destruct (is_block (Elem i e ks)); reflexivity.
Qed.

(** One turn of the loop, on a block in a place. *)
Lemma removeIfEmpty_effect br a f1 c i e ks f2 :
  NoDup (forest_ids (trees (page a))) ->
  trees (page a) = f1 ++ plug c (Elem i e ks) :: f2 ->
  exists a', EmptyLines.removeIfEmpty br i a = (Ok tt, a') /\ only_page a a' /\
             same_frame (page a) (page a') /\
             trees (page a')
             = (if empty_content br ks
                then f1 ++ plugs c [] :: f2 ++ [Elem i e ks]
                else f1 ++ plug c (Elem i e ks) :: f2) /\
             forest_ids (trees (page a')) ≡ₚ forest_ids (trees (page a)).
Proof.
  intros Hn Ht.
  pose proof (get_node_at (page a) f1 _ f2 (Elem i e ks) Hn Ht (plug_in c _)) as Hg.
  cbn [node_id] in Hg.
  unfold EmptyLines.removeIfEmpty, EmptyLines.get_textContent, get_innerHTML.
  rewrite !bind_gets. unfold node_kids. rewrite Hg. cbn [childNodes].
  rewrite textContent_Elem. fold (empty_content br ks).
  destruct (empty_content br ks).
  - unfold when, el_remove, on_page, modify.
    destruct (remove_node_effect (page a) f1 c (Elem i e ks) f2 Hn Ht) as (T & N & S & B).
    cbn [node_id] in T, N, S, B.
    eexists. split; [reflexivity|]. split; [repeat split|].
    split; [split; [exact N|split; [exact S|exact B]]|]. split; [exact T|].
    cbn [page set_page]. rewrite T, Ht, forest_ids_unplug.
    rewrite app_comm_cons, app_assoc, (forest_ids_app _ [_]), forest_ids_cons, forest_ids_nil,
      app_nil_r. reflexivity.
  - exists a. split; [reflexivity|]. split; [apply only_page_refl|].
    split; [apply same_frame_refl|]. split; [exact Ht|reflexivity].
Qed.

Lemma prunes_nil br : prunes br [].
Proof.
  intros c done after a f1 f2 Hn Ht. exists a, []. split; [reflexivity|].
  split; [apply only_page_refl|]. split; [apply same_frame_refl|].
  split; [rewrite app_nil_r; exact Ht|reflexivity].
Qed.

Lemma prunes_cons br k ks : prunes br [k] -> prunes br ks -> prunes br (k :: ks).
Proof.
  intros Hk Hks c done after a f1 f2 Hn Ht.
  change (k :: ks) with ([k] ++ ks). rewrite block_ids_app, forEach_app.
  destruct (Hk c done (ks ++ after) a f1 f2 Hn) as (a1 & j1 & R1 & O1 & F1 & T1 & P1).
  { rewrite Ht. cbn [app]. reflexivity. }
  rewrite R1.
  assert (Hn1 : NoDup (forest_ids (trees (page a1)))) by (rewrite P1; exact Hn).
  destruct (Hks c (done ++ flat_map (prune br) [k]) after a1 f1 (f2 ++ j1) Hn1)
    as (a2 & j2 & R2 & O2 & F2 & T2 & P2).
  { rewrite T1, <- !app_assoc. reflexivity. }
  exists a2, (j1 ++ j2). split; [exact R2|]. split; [eapply only_page_trans; eassumption|].
  split; [eapply same_frame_trans; eassumption|]. split.
  - rewrite T2, flat_map_app, <- !app_assoc. reflexivity.
  - rewrite P2. exact P1.
Qed.

Lemma prunes_all br ks : prunes br ks.
Proof.
  assert (H : Forall (fun k => prunes br [k]) ks).
  { induction ks as [|k ks IH]; constructor; [|exact IH]. clear IH ks.
    induction k as [i s|i e kk IH] using node_ind'.
    - intros c done after a f1 f2 Hn Ht. exists a, []. split; [reflexivity|].
      split; [apply only_page_refl|]. split; [apply same_frame_refl|].
      split; [rewrite app_nil_r; exact Ht|reflexivity].
    - assert (Hkk : prunes br kk).
      { induction IH as [|k kk Hk _ IHkk]; [apply prunes_nil|].
        apply prunes_cons; assumption. }
      intros c done after a f1 f2 Hn Ht.
      assert (Ht' : trees (page a) = f1 ++ plug (ctx_sib c done after) (Elem i e kk) :: f2).
      { rewrite Ht. unfold plug. rewrite plugs_ctx_sib. reflexivity. }
      assert (Hstay : exists a' junk,
                forEach (block_ids kk) (EmptyLines.removeIfEmpty br) a = (Ok tt, a') /\
                only_page a a' /\ same_frame (page a) (page a') /\
                trees (page a')
                = f1 ++ plugs c (done ++ [Elem i e (flat_map (prune br) kk)] ++ after)
                     :: f2 ++ junk /\
                forest_ids (trees (page a')) ≡ₚ forest_ids (trees (page a))).
      { destruct (Hkk (ctx_app (ctx_sib c done after) (Top i e [] [])) [] [] a f1 f2 Hn)
          as (a2 & j2 & R2 & O2 & F2 & T2 & P2).
        { rewrite Ht', plugs_ctx_app. cbn [plugs app]. rewrite !app_nil_r. reflexivity. }
        exists a2, j2. split; [exact R2|]. split; [exact O2|]. split; [exact F2|].
        split; [|exact P2].
        rewrite T2, plugs_ctx_app. cbn [plugs app]. rewrite !app_nil_r.
        unfold plug. rewrite plugs_ctx_sib. reflexivity. }
      rewrite block_ids_Elem. cbn [flat_map prune]. rewrite app_nil_r.
      destruct (is_block (Elem i e kk)) eqn:Hb; cbn [andb app]; [|exact Hstay].
      cbn [forEach]. rewrite bind_run.
      destruct (removeIfEmpty_effect br a f1 _ i e kk f2 Hn Ht')
        as (a1 & R1 & O1 & F1 & T1 & P1).
      rewrite R1. destruct (empty_content br kk) eqn:He.
      + assert (Hn1 : NoDup (forest_ids (trees (page a1)))) by (rewrite P1; exact Hn).
        destruct (Hkk (Top i e [] []) [] [] a1 (f1 ++ plugs (ctx_sib c done after) [] :: f2) []
                    Hn1) as (a2 & j2 & R2 & O2 & F2 & T2 & P2).
        { rewrite T1. cbn [plugs app]. rewrite !app_nil_r, <- app_assoc. reflexivity. }
        exists a2, (Elem i e (flat_map (prune br) kk) :: j2).
        split; [exact R2|]. split; [eapply only_page_trans; eassumption|].
        split; [eapply same_frame_trans; eassumption|]. split.
        * rewrite T2. cbn [plugs app]. rewrite !app_nil_r, <- app_assoc.
          rewrite plugs_ctx_sib. reflexivity.
        * rewrite P2. exact P1.
      + destruct Hstay as (a2 & j2 & R2 & O2 & F2 & T2 & P2).
        assert (a1 = a) as ->.
        { unfold EmptyLines.removeIfEmpty, EmptyLines.get_textContent, get_innerHTML in R1.
          rewrite !bind_gets in R1. unfold node_kids in R1.
          pose proof (get_node_at (page a) f1 _ f2 (Elem i e kk) Hn Ht' (plug_in _ _)) as Hg.
          cbn [node_id] in Hg. rewrite Hg in R1. cbn [childNodes] in R1.
          rewrite textContent_Elem in R1. fold (empty_content br kk) in R1.
          rewrite He in R1. injection R1 as <-. reflexivity. }
        exists a2, j2. repeat (split; [assumption|]). exact P2. }
  induction H as [|k ks Hk _ IH]; [apply prunes_nil|apply prunes_cons; assumption].
Qed.

(** The scratch element filled with a copy of the parsed fragment. *)
Lemma scratch_effect br html p :
  wf_page p ->
  let n0 := next_id p in
  let copy := relabel_list (S n0) (native_parse br html) in
  let p2 := set_children_copy n0 (native_parse br html) (snd (createElement "DIV" p)) in
  trees p2 = trees p ++ [Elem n0 (mk_edata "DIV" ∅ [] []) (fst copy)] /\
  next_id p2 = snd copy /\ selection p2 = selection p /\ body p2 = body p /\
  wf_page p2.
Proof.
  intros Hwf. cbv zeta.
  set (n0 := next_id p).
  set (p1 := snd (createElement "DIV" p)).
  assert (T1 : trees p1 = trees p ++ [Elem n0 (mk_edata "DIV" ∅ [] []) []]) by reflexivity.
  pose proof (wf_page_fresh p n0 Hwf (le_n _)) as Hfresh.
  unfold set_children_copy.
  assert (N1 : next_id p1 = S n0) by reflexivity. rewrite N1.
  destruct (relabel_list (S n0) (native_parse br html)) as [copy nx] eqn:Hcopy.
  cbn [fst snd].
  assert (K1 : node_kids p1 n0 = []).
  { unfold node_kids, get_node. rewrite T1.
    assert (Hf : find_node n0 (trees p ++ [Elem n0 (mk_edata "DIV" ∅ [] []) []])
                 = Some (Elem n0 (mk_edata "DIV" ∅ [] []) [])).
    { unfold find_node. rewrite forest_nodes_app.
      rewrite find_skip by (apply find_absent; exact Hfresh).
      cbn. unfold has_id. cbn. rewrite Nat.eqb_refl. reflexivity. }
    rewrite Hf. reflexivity. }
  rewrite K1, app_nil_r.
  assert (T2 : trees (mk_Page (set_kids n0 copy (document p1)) (body p1)
                        (map (set_kids n0 copy) (detached p1)) nx (selection p1))
               = trees p ++ [Elem n0 (mk_edata "DIV" ∅ [] []) copy]).
  { unfold trees at 1. cbn [document detached].
    change (set_kids n0 copy (document p1) :: map (set_kids n0 copy) (detached p1))
      with (map (set_kids n0 copy) (trees p1)).
    rewrite T1, map_app, map_set_kids_absent by exact Hfresh.
    cbn [map set_kids]. rewrite Nat.eqb_refl. reflexivity. }
  split; [exact T2|]. split; [reflexivity|]. split; [reflexivity|]. split; [reflexivity|].
  pose proof (relabel_list_spec (native_parse br html) (S n0)) as [Hids Hnx].
  rewrite Hcopy in Hids, Hnx. cbn [fst snd] in Hids, Hnx.
  apply (wf_page_grow p _ n0 (forest_ids copy)); [| reflexivity | | | exact Hwf].
  - rewrite T2, forest_ids_app, forest_ids_cons, forest_ids_nil, app_nil_r, ids_Elem.
    reflexivity.
  - cbn [next_id]. rewrite Hids, Hnx. f_equal. lia.
  - cbn [next_id]. lia.
Qed.

(** What [cleanupEmptyLines] returns and what it leaves behind: the
    trimmed markup of the pruned copy; the trees of the page as they
    were, then the scratch element, then what was removed from it. *)
Lemma cleanupEmptyLines_run br html a :
  wf_page (page a) ->
  let copy := fst (relabel_list (S (next_id (page a))) (native_parse br html)) in
  exists a' junk,
    EmptyLines.cleanupEmptyLines br html a
    = (Ok (trim (native_serialize br (flat_map (prune br) copy))), a') /\
    only_page a a' /\
    trees (page a')
    = trees (page a)
      ++ Elem (next_id (page a)) (mk_edata "DIV" ∅ [] []) (flat_map (prune br) copy) :: junk /\
    selection (page a') = selection (page a) /\ body (page a') = body (page a) /\
    wf_page (page a').
Proof.
  intros Hwf. cbv zeta.
  destruct (scratch_effect br html (page a) Hwf) as (T2 & N2 & S2 & B2 & Hwf2).
  set (n0 := next_id (page a)) in *.
  set (d := mk_edata "DIV" ∅ [] []) in *.
  set (copy := fst (relabel_list (S n0) (native_parse br html))) in *.
  set (p2 := set_children_copy n0 (native_parse br html) (snd (createElement "DIV" (page a))))
    in *.
  unfold EmptyLines.cleanupEmptyLines.
  assert (R0 : document_createElement "DIV" a
               = (Ok n0, set_page (snd (createElement "DIV" (page a))) a)) by reflexivity.
  rewrite bind_run, R0.
  unfold set_innerHTML, on_page. rewrite bind_modify. cbn [page set_page].
  fold p2. set (a2 := set_page p2 _).
  assert (Hp2 : page a2 = p2) by reflexivity.
  assert (Hn2 : NoDup (forest_ids (trees (page a2)))) by (rewrite Hp2; apply Hwf2).
  assert (Ht2 : trees (page a2) = trees (page a) ++ plugs (Top n0 d [] []) ([] ++ copy ++ []) :: []).
  { rewrite Hp2, T2. cbn [plugs app]. rewrite !app_nil_r. reflexivity. }
  unfold EmptyLines.querySelectorAll_blocks. rewrite bind_gets.
  assert (Hg2 : get_node (page a2) n0 = Some (Elem n0 d copy)).
  { apply (get_node_at (page a2) (trees (page a)) (Elem n0 d copy) [] (Elem n0 d copy) Hn2).
    - rewrite Hp2. exact T2.
    - cbn [subtree]. left. }
  rewrite Hg2. change (select_blocks (Elem n0 d copy)) with (block_ids copy).
  destruct (prunes_all br copy (Top n0 d [] []) [] [] a2 (trees (page a)) [] Hn2 Ht2)
    as (a3 & junk & R3 & O3 & F3 & T3 & P3).
  rewrite bind_run, R3.
  cbn [plugs app] in T3. rewrite !app_nil_r in T3.
  assert (Hn3 : NoDup (forest_ids (trees (page a3)))) by (rewrite P3; exact Hn2).
  assert (Hg3 : get_node (page a3) n0 = Some (Elem n0 d (flat_map (prune br) copy))).
  { apply (get_node_at (page a3) (trees (page a)) (Elem n0 d (flat_map (prune br) copy)) junk
             (Elem n0 d (flat_map (prune br) copy)) Hn3 T3).
    cbn [subtree]. left. }
  unfold get_innerHTML. rewrite bind_gets. unfold node_kids. rewrite Hg3. cbn [childNodes].
  exists a3, junk. split; [reflexivity|].
  destruct F3 as (N3 & S3 & B3).
  split; [|split; [exact T3|split; [|split]]].
  - eapply only_page_trans; [|exact O3]. repeat split.
  - rewrite S3, Hp2. exact S2.
  - rewrite B3, Hp2. exact B2.
  - apply (wf_page_perm (page a2)); [exact P3|exact N3|]. rewrite Hp2. exact Hwf2.
Qed.

(** *** Strings *)

Lemma remove_br_from_enough n : forall m s,
  String.length s <= n -> String.length s <= m -> remove_br_from n s = remove_br_from m s.
Proof.
  assert (Hstart : forall s, String.length (trimStart s) <= String.length s).
  { induction s as [|c s IH]; cbn [trimStart]; [lia|].
    destruct (is_whitespace c); cbn [String.length] in *; lia. }
  assert (Hm : forall s after, match_br s = Some after ->
                               String.length after < String.length s).
  { intros s after H. unfold match_br in H.
    destruct s as [|c1 [|c2 [|c3 rest]]]; try discriminate.
    destruct (_ && _ && _); [|discriminate].
    pose proof (Hstart rest) as Hl.
    destruct (trimStart rest) as [|c t]; [discriminate|].
    cbn [String.length] in *.
    destruct (is_char "/" c).
    - destruct t as [|c' t']; [discriminate|].
      destruct (is_char ">" c'); [|discriminate]. injection H as <-.
      cbn [String.length] in *. lia.
    - destruct (is_char ">" c); [|discriminate]. injection H as <-. lia. }
  induction n as [|n IH]; intros m s Hn Hlen.
  - destruct s; [|cbn [String.length] in Hn; lia]. destruct m; reflexivity.
  - destruct m as [|m].
    + destruct s; [reflexivity|cbn [String.length] in Hlen; lia].
    + cbn [remove_br_from]. destruct s as [|c rest]; [reflexivity|].
      cbn [String.length] in Hn, Hlen.
      destruct (match_br (String c rest)) as [after|] eqn:E.
      * apply Hm in E. cbn [String.length] in E. apply IH; lia.
      * f_equal. apply IH; lia.
Qed.

Lemma visible_app s1 s2 : visible (s1 ++ s2) = (visible s1 ++ visible s2)%string.
Proof.
  induction s1 as [|c s1 IH]; [reflexivity|].
  change (visible (String c (s1 ++ s2)) = (visible (String c s1) ++ visible s2)%string).
  cbn [visible]. destruct (is_whitespace c); [exact IH|].
  change (String c (visible (s1 ++ s2)) = String c (visible s1 ++ visible s2)%string).
  f_equal. exact IH.
Qed.

Lemma visible_trimStart s : visible (trimStart s) = visible s.
Proof.
  induction s as [|c s IH]; [reflexivity|].
  cbn [trimStart]. destruct (is_whitespace c) eqn:E; [|reflexivity].
  cbn [visible]. rewrite E. exact IH.
Qed.

Lemma trimEnd_nil_visible s : trimEnd s = "" -> visible s = "".
Proof.
  induction s as [|c s IH]; [reflexivity|].
  cbn [trimEnd visible]. destruct (trimEnd s); [|discriminate].
  destruct (is_whitespace c); [intros _; apply IH; reflexivity|discriminate].
Qed.

Lemma trim_nil_visible s : trim s = "" -> visible s = "".
Proof.
  unfold trim. intros H. apply trimEnd_nil_visible in H.
  rewrite visible_trimStart in H. exact H.
Qed.

Lemma trimEnd_idem s : trimEnd (trimEnd s) = trimEnd s.
Proof.
  induction s as [|c s IH]; [reflexivity|].
  cbn [trimEnd]. destruct (trimEnd s) as [|c' t] eqn:E.
  - destruct (is_whitespace c) eqn:Ec; [reflexivity|].
    cbn [trimEnd]. rewrite Ec. reflexivity.
  - cbn [trimEnd]. cbn [trimEnd] in IH. rewrite IH. reflexivity.
Qed.

Lemma trimStart_trim s : trimStart (trim s) = trim s.
Proof.
  unfold trim.
  assert (H : forall t, trimStart t = t -> trimStart (trimEnd t) = trimEnd t).
  { intros [|c r] Ht; [reflexivity|].
    cbn [trimStart] in Ht. destruct (is_whitespace c) eqn:Ec.
    - exfalso. assert (Hl : String.length (trimStart r) <= String.length r).
      { clear. induction r as [|c r IH]; cbn [trimStart]; [lia|].
        destruct (is_whitespace c); cbn [String.length] in *; lia. }
      rewrite Ht in Hl. cbn [String.length] in Hl. lia.
    - cbn [trimEnd]. destruct (trimEnd r); rewrite ?Ec; cbn [trimStart]; rewrite Ec;
        reflexivity. }
  apply H. induction s as [|c s IH]; [reflexivity|].
  cbn [trimStart]. destruct (is_whitespace c) eqn:Ec; [exact IH|].
  cbn [trimStart]. rewrite Ec. reflexivity.
Qed.

Lemma trim_idem s : trim (trim s) = trim s.
Proof.
  unfold trim at 1. rewrite trimStart_trim. unfold trim. apply trimEnd_idem.
Qed.

(** *** What pruning keeps *)

Lemma visible_prune br n : visible (forest_text (prune br n)) = visible (textContent n).
Proof.
  induction n as [i s|i e ks IH] using node_ind'.
  - cbn [prune]. rewrite forest_text_one. reflexivity.
  - cbn [prune]. rewrite textContent_Elem.
    assert (Hks : visible (forest_text (flat_map (prune br) ks)) = visible (forest_text ks)).
    { induction IH as [|k ks Hk _ IHks]; [reflexivity|].
      cbn [flat_map]. rewrite forest_text_app, forest_text_cons, !visible_app, Hk, IHks.
      reflexivity. }
    destruct (is_block (Elem i e ks) && empty_content br ks) eqn:E.
    + apply andb_prop in E as [_ E]. unfold empty_content in E.
      apply andb_prop in E as [E _]. apply String.eqb_eq in E.
      symmetry. apply trim_nil_visible. exact E.
    + rewrite forest_text_one, textContent_Elem. exact Hks.
Qed.

Lemma visible_prune_forest br ks :
  visible (forest_text (flat_map (prune br) ks)) = visible (forest_text ks).
Proof.
  induction ks as [|k ks IH]; [reflexivity|].
  cbn [flat_map]. rewrite forest_text_app, forest_text_cons, !visible_app, visible_prune, IH.
  reflexivity.
Qed.

(** [cleanupEmptyLines] works on a copy.  It returns the trimmed markup
    of a copy of the parsed fragment from which every [P] and [DIV]
    whose content, as parsed, had white space for text and line breaks
    for markup is gone with all it held; a block left empty by the
    removal of its children stays.  The document, the selection, the
    service, the editor component and what the observer saw are as they
    were. *)
Theorem cleanupEmptyLines_prunes_a_copy (br : Browser) (html : string) (a : App) :
  wf_page (page a) ->
  exists a',
    EmptyLines.cleanupEmptyLines br html a
    = (Ok (trim (native_serialize br
                   (flat_map (prune br)
                      (fst (relabel_list (S (next_id (page a))) (native_parse br html)))))),
       a') /\
    document (page a') = document (page a) /\
    selection (page a') = selection (page a) /\
    service a' = service a /\ editor a' = editor a /\ directive a' = directive a /\
    trace a' = trace a /\
    wf_page (page a').
Proof.
  intros Hwf.
  destruct (cleanupEmptyLines_run br html a Hwf) as (a' & junk & R & O & T & S & _ & W).
  exists a'. split; [exact R|].
  destruct O as (O1 & O2 & O3 & O4).
  split; [|repeat (split; [assumption|]); exact W].
  unfold trees in T. cbn [app] in T. injection T as -> _. reflexivity.
Qed.

Lemma cleanupEmptyLines_prunes_a_copy_witness :
  exists a',
    EmptyLines.cleanupEmptyLines Scenario.typing "" Scenario.hello
    = (Ok "<div></div><p>hello</p>", a') /\
    document (page a') = document (page Scenario.hello) /\
    selection (page a') = selection (page Scenario.hello) /\
    service a' = service Scenario.hello /\ editor a' = editor Scenario.hello /\
    directive a' = directive Scenario.hello /\
    trace a' = trace Scenario.hello /\
    wf_page (page a').
Proof.
  apply (cleanupEmptyLines_prunes_a_copy Scenario.typing "" Scenario.hello).
  apply wf_page_decide; vm_compute; reflexivity.
Defined.

(** [cleanupEmptyLines] drops no visible text.  The fragment whose
    markup it returns has, white space apart, the text of the fragment
    parsed from its argument, and the string it returns starts and ends
    without white space. *)
Theorem cleanupEmptyLines_keeps_visible_text (br : Browser) (html : string) (a : App) :
  wf_page (page a) ->
  exists kept a',
    EmptyLines.cleanupEmptyLines br html a = (Ok (trim (native_serialize br kept)), a') /\
    visible (forest_text kept) = visible (forest_text (native_parse br html)) /\
    trim (trim (native_serialize br kept)) = trim (native_serialize br kept).
Proof.
  intros Hwf.
  destruct (cleanupEmptyLines_run br html a Hwf) as (a' & junk & R & _).
  eexists _, a'. split; [exact R|]. split; [|apply trim_idem].
  rewrite visible_prune_forest. f_equal. apply forest_text_relabel.
Qed.

Lemma cleanupEmptyLines_keeps_visible_text_witness :
  exists kept a',
    EmptyLines.cleanupEmptyLines Scenario.typing "" Scenario.hello
    = (Ok (trim (native_serialize Scenario.typing kept)), a') /\
    visible (forest_text kept) = "hello" /\
    trim (trim (native_serialize Scenario.typing kept))
    = trim (native_serialize Scenario.typing kept).
Proof.
  apply (cleanupEmptyLines_keeps_visible_text Scenario.typing "" Scenario.hello).
  apply wf_page_decide; vm_compute; reflexivity.
Defined.

(** ** Boundary points *)

Lemma points_Elem i e ks : points (Elem i e ks) = (i, 0) :: kid_points i 0 ks.
Proof.
  cbn [points]. f_equal. generalize 0. induction ks as [|c r IH]; intros k; [reflexivity|].
  cbn [kid_points]. rewrite <- IH. reflexivity.
Qed.

Lemma kid_points_app i l r : forall k,
  kid_points i k (l ++ r) = kid_points i k l ++ kid_points i (k + length l) r.
Proof.
  induction l as [|c l IH]; intros k; cbn [app kid_points length].
  - rewrite Nat.add_0_r. reflexivity.
  - rewrite IH, <- app_assoc. cbn [app].
    replace (S k + length l) with (k + S (length l)) by lia. reflexivity.
Qed.

Lemma points_fst n : forall q, q ∈ points n -> fst q ∈ ids n.
Proof.
  induction n as [i s|i e ks IH] using node_ind'; intros q Hq.
  - cbn [points] in Hq. apply list_elem_of_fmap in Hq as (k & -> & _). cbn [fst].
    rewrite ids_Text. left.
  - rewrite points_Elem in Hq. rewrite ids_Elem.
    rewrite elem_of_cons in Hq. destruct Hq as [->|Hq]; [left|].
    revert Hq. generalize 0. induction IH as [|c r Hc _ IHr]; intros k Hq.
    + cbn [kid_points] in Hq. apply elem_of_nil in Hq. contradiction.
    + cbn [kid_points] in Hq. rewrite elem_of_app, elem_of_cons in Hq.
      rewrite forest_ids_cons. destruct Hq as [Hq|[->|Hq]].
      * right. rewrite elem_of_app. left. apply Hc. exact Hq.
      * left.
      * specialize (IHr _ Hq). rewrite elem_of_cons in IHr. destruct IHr as [->|IHr]; [left|].
        right. rewrite elem_of_app. right. exact IHr.
Qed.

Lemma index_of_app_miss {A} (p : A -> bool) (l r : list A) :
  Forall (fun x => p x = false) l ->
  index_of p (l ++ r) = (fun n => length l + n) <$> index_of p r.
Proof.
  induction 1 as [|x l Hx _ IH]; cbn [app index_of length].
  - destruct (index_of p r); reflexivity.
  - rewrite Hx, IH. destruct (index_of p r); reflexivity.
Qed.

Lemma points_miss i n k : i ∉ ids n -> Forall (fun q => at_point (i, k) q = false) (points n).
Proof.
  intros H. apply Forall_forall. intros q Hq. apply points_fst in Hq.
  unfold at_point. cbn [fst snd]. destruct (Nat.eqb_spec (fst q) i) as [E|_]; [|reflexivity].
  rewrite E in Hq. contradiction.
Qed.

Lemma index_kid_points i ks : forall k m,
  i ∉ forest_ids ks -> m < length ks ->
  index_of (at_point (i, S (k + m))) (kid_points i k ks)
  = Some (m + length (flat_map points (take (S m) ks))).
Proof.
  induction ks as [|c r IH]; intros k m Hi Hm; [cbn in Hm; lia|].
  rewrite forest_ids_cons, not_elem_of_app in Hi. destruct Hi as [Hc Hr].
  cbn [kid_points]. rewrite index_of_app_miss by (apply points_miss; exact Hc).
  cbn [index_of]. unfold at_point at 1. cbn [fst snd]. rewrite Nat.eqb_refl. cbn [andb].
  destruct m as [|m].
  - rewrite Nat.add_0_r, Nat.eqb_refl. cbn [fmap option_fmap option_map take flat_map].
    rewrite app_nil_r. f_equal. lia.
  - destruct (Nat.eqb_spec (S k) (S (k + S m))) as [E|_]; [lia|].
    cbn [length] in Hm.
    replace (S (k + S m)) with (S (S k + m)) by lia.
    rewrite (IH (S k) m Hr) by lia.
    cbn [fmap option_fmap option_map take flat_map]. rewrite length_app. f_equal. lia.
Qed.

(** The point [(i, k)] among the points of the element [i]. *)
Lemma index_own_point i e ks k :
  i ∉ forest_ids ks -> k <= length ks ->
  index_of (at_point (i, k)) (points (Elem i e ks)) = Some (point_offset ks k).
Proof.
  intros Hi Hk. rewrite points_Elem. cbn [index_of]. unfold at_point at 1. cbn [fst snd].
  rewrite Nat.eqb_refl. cbn [andb]. unfold point_offset. destruct k as [|m]; [reflexivity|].
  cbn [Nat.eqb]. pose proof (index_kid_points i ks 0 m Hi) as H. cbn [Nat.add] in H.
  rewrite H by lia. reflexivity.
Qed.

Lemma point_offset_mono ks k1 k2 : k1 < k2 -> point_offset ks k1 < point_offset ks k2.
Proof.
  intros H. unfold point_offset.
  assert (Hle : forall l a b, a <= b ->
            length (flat_map points (take a l)) <= length (flat_map points (take b l))).
  { induction l as [|c l IH]; intros a b Hab.
    - rewrite !take_nil. lia.
    - destruct a as [|a]; [cbn [take flat_map length]; lia|].
      destruct b as [|b]; [lia|]. cbn [take flat_map]. rewrite !length_app.
      specialize (IH a b). lia. }
  specialize (Hle ks k1 k2). lia.
Qed.

Lemma kid_points_fst i l : forall k q,
  q ∈ kid_points i k l -> fst q = i \/ fst q ∈ forest_ids l.
Proof.
  induction l as [|c l IH]; intros k q Hq; cbn [kid_points] in Hq.
  - apply elem_of_nil in Hq. contradiction.
  - rewrite forest_ids_cons. rewrite elem_of_app, elem_of_cons in Hq.
    destruct Hq as [Hq|[->|Hq]].
    + right. rewrite elem_of_app. left. apply points_fst. exact Hq.
    + left. reflexivity.
    + destruct (IH _ _ Hq) as [H|H]; [left; exact H|].
      right. rewrite elem_of_app. right. exact H.
Qed.

Lemma top_id_inside c mid : top_id c ∈ ids (plugs c mid).
Proof. apply (subtree_ids _ _ (top_node_in c mid)). Qed.

(** The points of the element right above a place, among those of the
    whole tree. *)
Lemma points_plugs c mid :
  NoDup (ids (plugs c mid)) ->
  exists A B,
    points (plugs c mid)
    = A ++ points (Elem (top_id c) (top_data c) (top_left c ++ mid ++ top_right c)) ++ B /\
    Forall (fun q => fst q <> top_id c) A.
Proof.
  induction c as [i e l r|i e l c IH r]; intros Hn;
    cbn [plugs top_id top_data top_left top_right] in *.
  - exists [], []. rewrite app_nil_r. split; [reflexivity|constructor].
  - pose proof Hn as Hk. apply NoDup_kid in Hk as (Hsub & Hd & _).
    destruct (IH Hsub) as (A & B & HP & HA).
    destruct (Hd _ (top_id_inside c mid)) as (Hne & Hl & _).
    rewrite points_Elem, kid_points_app. cbn [kid_points]. rewrite HP.
    eexists ((i, 0) :: kid_points i 0 l ++ A), _. split.
    + cbn [app]. rewrite <- !app_assoc. reflexivity.
    + constructor; [cbn [fst]; congruence|]. apply Forall_app. split; [|exact HA].
      apply Forall_forall. intros q Hq E. apply kid_points_fst in Hq as [Hq|Hq].
      * congruence.
      * rewrite E in Hq. contradiction.
Qed.

Lemma index_of_app_hit {A} (p : A -> bool) (l r : list A) j :
  index_of p l = Some j -> index_of p (l ++ r) = Some j.
Proof.
  revert j. induction l as [|x l IH]; intros j; cbn [app index_of]; [discriminate|].
  destruct (p x); [trivial|]. destruct (index_of p l) as [n|]; [|discriminate].
  rewrite (IH n eq_refl). trivial.
Qed.

(** The points on the element right above a place keep their order in
    the whole tree. *)
Lemma index_in_tree c mid :
  NoDup (ids (plugs c mid)) ->
  exists base, forall k,
    k <= length (top_left c ++ mid ++ top_right c) ->
    index_of (at_point (top_id c, k)) (points (plugs c mid))
    = Some (base + point_offset (top_left c ++ mid ++ top_right c) k).
Proof.
  intros Hn. destruct (points_plugs c mid Hn) as (A & B & HP & HA).
  exists (length A). intros k Hk. rewrite HP.
  rewrite index_of_app_miss.
  - erewrite index_of_app_hit; [reflexivity|]. apply index_own_point; [|exact Hk].
    assert (Ht : NoDup (ids (Elem (top_id c) (top_data c)
                               (top_left c ++ mid ++ top_right c)))).
    { apply (NoDup_node [plugs c mid]).
      - rewrite forest_ids_cons, forest_ids_nil, app_nil_r. exact Hn.
      - unfold forest_nodes. cbn [flat_map]. rewrite app_nil_r. apply top_node_in. }
    rewrite ids_Elem, NoDup_cons in Ht. tauto.
  - eapply Forall_impl; [exact HA|]. intros q Hq. unfold at_point. cbn [fst snd].
    destruct (Nat.eqb_spec (fst q) (top_id c)); [contradiction|reflexivity].
Qed.

(** *** The root of a node of the document *)

Lemma path_to_head i n : path_to i n = [] \/ exists rest, path_to i n = n :: rest.
Proof.
  destruct n as [j s|j e ks]; cbn [path_to]; destruct (has_id i _); eauto.
  destruct (first_path (path_to i) ks); eauto.
Qed.

Lemma path_to_found n : forall i, i ∈ ids n -> path_to i n <> [].
Proof.
  induction n as [j s|j e ks IH] using node_ind'; intros i Hi.
  - rewrite ids_Text in Hi. apply list_elem_of_singleton in Hi as ->.
    pose proof (path_to_self (Text j s)) as E. cbn [node_id] in E. rewrite E. discriminate.
  - rewrite ids_Elem, elem_of_cons in Hi. rewrite path_to_Elem.
    destruct (Nat.eqb_spec j i) as [_|Hne]; [discriminate|].
    destruct Hi as [->|Hi]; [congruence|].
    assert (Hp : first_path (path_to i) ks <> []).
    { clear Hne. induction IH as [|k ks Hk _ IHks].
      - rewrite forest_ids_nil in Hi. apply elem_of_nil in Hi. contradiction.
      - rewrite forest_ids_cons, elem_of_app in Hi. cbn [first_path].
        destruct (path_to i k) eqn:E; [|discriminate].
        destruct Hi as [Hi|Hi]; [exfalso; exact (Hk i Hi E)|exact (IHks Hi)]. }
    destruct (first_path (path_to i) ks); [contradiction|discriminate].
Qed.

Lemma last_ancestor_document p i :
  i ∈ ids (document p) -> last (inclusive_ancestors p i) = Some (document p).
Proof.
  intros Hi. unfold inclusive_ancestors, forest_path, trees. cbn [first_path].
  destruct (path_to_head i (document p)) as [E|(rest & E)].
  - exfalso. exact (path_to_found _ _ Hi E).
  - rewrite E. cbn [rev]. apply last_snoc.
Qed.

Lemma child_index_at i e l x r :
  node_id x ∉ map node_id l -> child_index (Elem i e (l ++ x :: r)) (node_id x) = length l.
Proof.
  intros H. unfold child_index. cbn [childNodes].
  rewrite index_of_app_miss.
  - cbn [index_of]. unfold has_id at 1. rewrite Nat.eqb_refl. cbn. lia.
  - apply Forall_forall. intros y Hy. unfold has_id.
    destruct (Nat.eqb_spec (node_id y) (node_id x)) as [E|_]; [|reflexivity].
    exfalso. apply H. rewrite <- E. change (map node_id l) with (node_id <$> l).
    apply list_elem_of_fmap_2. exact Hy.
Qed.

Lemma parent_in_sib c before after x :
  parent_in (ctx_sib c before after) x
  = Elem (top_id c) (top_data c) ((top_left c ++ before) ++ x :: after ++ top_right c).
Proof.
  induction c as [i e l r|i e l c IH r];
    cbn [ctx_sib parent_in top_id top_data top_left top_right]; [reflexivity|exact IH].
Qed.

(** *** Ranges on the element above a place *)

Lemma root_of_document p i : i ∈ ids (document p) -> root_of p i = Some (node_id (document p)).
Proof. intros H. unfold root_of. rewrite (last_ancestor_document p i H). reflexivity. Qed.

Lemma point_index_document p bp :
  fst bp ∈ ids (document p) ->
  point_index p bp = index_of (at_point bp) (points (document p)).
Proof. intros H. unfold point_index. rewrite (last_ancestor_document p _ H). reflexivity. Qed.

Lemma plugs_is_Elem c mid : exists i e ks, plugs c mid = Elem i e ks.
Proof. destruct c; cbn [plugs]; eauto. Qed.

(** [setStartBefore] on the range [document.createRange()] gives. *)
Lemma set_start_from_origin p c mid k :
  NoDup (ids (document p)) -> document p = plugs c mid ->
  k <= length (top_left c ++ mid ++ top_right c) ->
  set_start p (createRange p) (top_id c, k) = mk_Range (top_id c) k (top_id c) k.
Proof.
  intros Hn Hd Hk.
  assert (Hpar : top_id c ∈ ids (document p)) by (rewrite Hd; apply top_id_inside).
  rewrite Hd in Hn. destruct (index_in_tree c mid Hn) as (base & Hidx).
  unfold set_start, createRange. cbn [startContainer endContainer endOffset fst snd].
  unfold same_root. rewrite (root_of_document p _ (ids_head _)), (root_of_document p _ Hpar).
  rewrite Nat.eqb_refl. cbn [negb orb].
  unfold point_before. rewrite !point_index_document by (cbn [fst]; auto using ids_head).
  rewrite Hd, (Hidx k Hk).
  destruct (plugs_is_Elem c mid) as (i & e & ks & E).
  pose proof (Hidx k Hk) as Hi. clear Hidx Hn Hd Hpar. rewrite E in Hi. rewrite E.
  cbn [node_id]. rewrite points_Elem in Hi. rewrite points_Elem.
  cbn [index_of] in *. unfold at_point at 1. cbn [fst snd]. rewrite !Nat.eqb_refl. cbn [andb].
  destruct (Nat.ltb_spec 0 (base + point_offset (top_left c ++ mid ++ top_right c) k))
    as [_|Hz]; [reflexivity|].
  unfold at_point at 1 in Hi. cbn [fst snd] in Hi.
  destruct (Nat.eqb_spec i (top_id c)) as [<-|_]; cbn [andb] in Hi.
  - destruct (Nat.eqb_spec 0 k) as [<-|_]; [reflexivity|].
    destruct (index_of _ _); cbn in Hi; [|discriminate]. injection Hi as Hi. lia.
  - destruct (index_of _ _); cbn in Hi; [|discriminate]. injection Hi as Hi. lia.
Qed.

(** [setEndAfter] on a range collapsed at an earlier point of the same
    element. *)
Lemma set_end_later p c mid k1 k2 :
  NoDup (ids (document p)) -> document p = plugs c mid ->
  k1 < k2 -> k2 <= length (top_left c ++ mid ++ top_right c) ->
  set_end p (mk_Range (top_id c) k1 (top_id c) k1) (top_id c, k2)
  = mk_Range (top_id c) k1 (top_id c) k2.
Proof.
  intros Hn Hd H12 Hk.
  assert (Hpar : top_id c ∈ ids (document p)) by (rewrite Hd; apply top_id_inside).
  rewrite Hd in Hn. destruct (index_in_tree c mid Hn) as (base & Hidx).
  unfold set_end. cbn [startContainer startOffset fst snd].
  unfold same_root. rewrite (root_of_document p _ Hpar). rewrite Nat.eqb_refl. cbn [negb orb].
  unfold point_before. rewrite !point_index_document by (cbn [fst]; exact Hpar).
  rewrite Hd, (Hidx k1), (Hidx k2) by lia.
  pose proof (point_offset_mono (top_left c ++ mid ++ top_right c) k1 k2 H12).
  destruct (Nat.ltb_spec (base + point_offset (top_left c ++ mid ++ top_right c) k2)
              (base + point_offset (top_left c ++ mid ++ top_right c) k1)); [lia|reflexivity].
Qed.

Lemma head_not_before (l : list node) x :
  (forall j, j ∈ ids x -> j ∉ forest_ids l) -> node_id x ∉ map node_id l.
Proof.
  intros H Hin. apply (H _ (ids_head x)).
  change (map node_id l) with (node_id <$> l) in Hin.
  apply list_elem_of_fmap in Hin as (y & E & Hy).
  apply elem_of_forest_ids. exists y. split; [exact Hy|]. rewrite E. apply ids_head.
Qed.

(** The parent of a node of the fragment in a place, and the index of
    the node in it. *)
Lemma parent_of_sibling p c mid det k x :
  NoDup (forest_ids (trees p)) -> trees p = plugs c mid :: det -> mid !! k = Some x ->
  exists pn, parentNode p (node_id x) = Some pn /\ node_id pn = top_id c /\
             child_index pn (node_id x) = length (top_left c) + k.
Proof.
  intros Hn Ht Hx.
  pose proof (take_drop_middle mid k x Hx) as Hmid.
  assert (Hk : k < length mid) by (apply lookup_lt_is_Some; eauto).
  assert (Ht' : trees p = [] ++ plug (ctx_sib c (take k mid) (drop (S k) mid)) x :: det).
  { rewrite Ht. unfold plug. rewrite plugs_ctx_sib. cbn [app]. rewrite Hmid. reflexivity. }
  exists (parent_in (ctx_sib c (take k mid) (drop (S k) mid)) x).
  split; [exact (parentNode_plug p _ _ x _ Hn Ht')|].
  assert (Hpn : NoDup (ids (parent_in (ctx_sib c (take k mid) (drop (S k) mid)) x))).
  { apply (NoDup_node (trees p)); [exact Hn|]. rewrite Ht'. cbn [app].
    unfold forest_nodes. cbn [flat_map]. rewrite elem_of_app. left.
    apply parent_in_subtree. }
  rewrite parent_in_sib in *. split; [reflexivity|].
  rewrite child_index_at.
  - rewrite length_app, length_take. lia.
  - apply NoDup_kid in Hpn as (_ & Hd & _). apply head_not_before.
    intros j Hj. exact (proj1 (proj2 (Hd j Hj))).
Qed.

(** The wrappers stand side by side in the document, the first no later
    than the last: the new range goes from right before the first to
    right after the last. *)
Lemma reselect_siblings a c mid k1 k2 x y rest :
  NoDup (forest_ids (trees (page a))) ->
  document (page a) = plugs c mid ->
  mid !! k1 = Some x -> mid !! k2 = Some y -> k1 <= k2 ->
  List.last (node_id x :: rest) (node_id x) = node_id y ->
  reselect (node_id x :: rest) a
  = (Ok tt,
     set_page (set_selection
                 (mk_Selection (Some (mk_Range (top_id c) (length (top_left c) + k1)
                                               (top_id c) (S (length (top_left c) + k2))))
                               false)
                 (page a)) a).
Proof.
  intros Hn Hd Hx Hy H12 Hlast.
  assert (Hk2 : k2 < length mid) by (apply lookup_lt_is_Some; eauto).
  unfold reselect, getSelection. rewrite bind_gets.
  unfold sel_removeAllRanges, on_page. rewrite bind_modify.
  set (a1 := set_page (removeAllRanges (page a)) a).
  assert (Ht1 : trees (page a1) = plugs c mid :: detached (page a)).
  { unfold a1, trees. cbn. rewrite Hd. reflexivity. }
  assert (Hn1 : NoDup (forest_ids (trees (page a1)))) by exact Hn.
  assert (Hd1 : document (page a1) = plugs c mid) by exact Hd.
  assert (Hnd : NoDup (ids (document (page a1)))).
  { apply (NoDup_forest_tree [] _ (detached (page a))). exact Hn1. }
  unfold document_createRange. rewrite bind_gets.
  destruct (parent_of_sibling (page a1) c mid _ k1 x Hn1 Ht1 Hx) as (pn1 & P1 & I1 & C1).
  destruct (parent_of_sibling (page a1) c mid _ k2 y Hn1 Ht1 Hy) as (pn2 & P2 & I2 & C2).
  unfold setStartBefore. rewrite bind_run, bind_gets, P1. cbv [gets bind].
  rewrite I1, C1.
  rewrite (set_start_from_origin (page a1) c mid _ Hnd Hd1)
    by (rewrite !length_app; lia).
  unfold setEndAfter. rewrite Hlast, bind_gets, P2. cbv [gets].
  rewrite I2, C2.
  rewrite (set_end_later (page a1) c mid _ _ Hnd Hd1) by (rewrite ?length_app; lia).
  unfold sel_addRange, on_page, modify, addRange. unfold a1.
  cbn [page set_page removeAllRanges selection set_selection sel_range no_selection
       startContainer document].
  assert (He : existsb (Nat.eqb (top_id c)) (ids (document (page a))) = true).
  { apply existsb_exists. exists (top_id c). split; [|apply Nat.eqb_refl].
    apply list_elem_of_In. rewrite Hd. apply top_id_inside. }
  rewrite He. reflexivity.
Qed.

(** ** The selection after the rewrite *)








(** The wrappers in document order.  When the first and the last of the
    new wrappers are children of one element of the document, the first
    not after the last, the selection that [setFontSize] rebuilds is the
    range from right before the first to right after the last, forward.
    Their order in the array is what counts, whatever form the markers
    had. *)
Theorem reselect_spans_siblings_in_order
    (a : App) (c : ctx) (mid : list node) (k1 k2 : nat) (x y : node) (rest : list nid) :
  wf_page (page a) ->
  document (page a) = plugs c mid ->
  mid !! k1 = Some x -> mid !! k2 = Some y -> k1 <= k2 ->
  List.last (node_id x :: rest) (node_id x) = node_id y ->
  exists a',
    reselect (node_id x :: rest) a = (Ok tt, a') /\
    selection (page a')
    = mk_Selection (Some (mk_Range (top_id c) (length (top_left c) + k1)
                                   (top_id c) (S (length (top_left c) + k2)))) false /\
    trees (page a') = trees (page a).
Proof.
  intros Hwf Hd Hx Hy H12 Hlast.
  rewrite (reselect_siblings a c mid k1 k2 x y rest (proj1 Hwf) Hd Hx Hy H12 Hlast).
  eexists. split; [reflexivity|]. split; reflexivity.
Qed.

Lemma reselect_spans_siblings_in_order_witness :
  exists a',
    reselect [3; 5] Scenario.two_wrappers = (Ok tt, a') /\
    selection (page a') = mk_Selection (Some (mk_Range 2 0 2 2)) false /\
    trees (page a') = trees (page Scenario.two_wrappers).
Proof.
  apply (reselect_spans_siblings_in_order Scenario.two_wrappers
           (Below 0 (Scenario.plain "HTML") []
              (Below 1 (Scenario.plain "BODY") [] (Top 2 (Scenario.surface "true") [] []) []) [])
           [Elem 3 (Scenario.sized_span 18) [Text 4 "a"];
            Elem 5 (Scenario.sized_span 18) [Text 6 "b"]]
           0 1 (Elem 3 (Scenario.sized_span 18) [Text 4 "a"])
           (Elem 5 (Scenario.sized_span 18) [Text 6 "b"]) [5]).
  - apply wf_page_decide; vm_compute; reflexivity.
  - reflexivity.
  - reflexivity.
  - reflexivity.
  - lia.
  - reflexivity.
Defined.


